(** * tinygrad/lazy.py: the lazy buffer graph, its rewrites, scheduler and realizer

    A shallow embedding of [tinygrad/lazy.py].  Python objects live in an
    arena addressed by integer references; reference equality is equality
    of addresses.  Functions that allocate nodes, mutate consumer sets or
    may raise are written in a state-and-exception monad [M]. *)

From Stdlib Require Import ZArith QArith Lia Ascii SpecFloat.
From stdpp Require Import base list strings.

Local Open Scope Z_scope.

(** ** Opcodes *)

(** Modelled from the spec: the opcode enumerations of [tinygrad.ops]
    (imported by lazy.py, not part of it).  Five disjoint categories plus
    the backend-facing buffer markers (spec section 3). *)
Module LoadOps.
Inductive t := EMPTY | RAND | CONST | FROM | CONTIGUOUS | CUSTOM.
End LoadOps.
Module UnaryOps.
Inductive t := NOOP | EXP2 | LOG2 | CAST | SIN | SQRT | RECIP | NEG.
End UnaryOps.
Module BinaryOps.
Inductive t := ADD | SUB | MUL | DIV | MAX | MOD | CMPLT.
End BinaryOps.
Module TernaryOps.
Inductive t := MULACC | WHERE.
End TernaryOps.
Module ReduceOps.
Inductive t := SUM | MAX.
End ReduceOps.
Module BufferOps.
Inductive t := MEM | CONST.
End BufferOps.

Inductive Op :=
| OpLoad (o : LoadOps.t)
| OpUnary (o : UnaryOps.t)
| OpBinary (o : BinaryOps.t)
| OpTernary (o : TernaryOps.t)
| OpReduce (o : ReduceOps.t)
| OpBuffer (o : BufferOps.t).

Coercion OpLoad : LoadOps.t >-> Op.
Coercion OpUnary : UnaryOps.t >-> Op.
Coercion OpBinary : BinaryOps.t >-> Op.
Coercion OpTernary : TernaryOps.t >-> Op.
Coercion OpReduce : ReduceOps.t >-> Op.
Coercion OpBuffer : BufferOps.t >-> Op.

#[global] Instance LoadOps_eq_dec : EqDecision LoadOps.t.
Proof. solve_decision. Defined.
#[global] Instance UnaryOps_eq_dec : EqDecision UnaryOps.t.
Proof. solve_decision. Defined.
#[global] Instance BinaryOps_eq_dec : EqDecision BinaryOps.t.
Proof. solve_decision. Defined.
#[global] Instance TernaryOps_eq_dec : EqDecision TernaryOps.t.
Proof. solve_decision. Defined.
#[global] Instance ReduceOps_eq_dec : EqDecision ReduceOps.t.
Proof. solve_decision. Defined.
#[global] Instance BufferOps_eq_dec : EqDecision BufferOps.t.
Proof. solve_decision. Defined.
#[global] Instance Op_eq_dec : EqDecision Op.
Proof. solve_decision. Defined.

(** [op in LoadOps], [op in ElementwiseOps], [op in ReduceOps]. *)
Definition in_LoadOps (o : Op) : bool :=
  match o with OpLoad _ => true | _ => false end.
(** [ElementwiseOps = {*UnaryOps, *BinaryOps, *TernaryOps}] *)
Definition in_ElementwiseOps (o : Op) : bool :=
  match o with OpUnary _ | OpBinary _ | OpTernary _ => true | _ => false end.
Definition in_ReduceOps (o : Op) : bool :=
  match o with OpReduce _ => true | _ => false end.

(** ** Shapes, dtypes, raw buffers *)

(** [sint = Union[Node, int]]: a dimension is an integer or symbolic. *)
Inductive sint := SInt (n : Z) | SSym (v : string).
#[global] Instance sint_eq_dec : EqDecision sint.
Proof. solve_decision. Defined.

Abbreviation Shape := (list sint) (only parsing).

Definition is_int (s : sint) : bool :=
  match s with SInt _ => true | SSym _ => false end.

(** [all_int(shape)] *)
Definition all_int (sh : Shape) : bool := forallb is_int sh.

(** The integers of a shape, when every dimension is one. *)
Fixpoint ints (sh : Shape) : option (list Z) :=
  match sh with
  | [] => Some []
  | SInt n :: sh' => option_map (cons n) (ints sh')
  | SSym _ :: _ => None
  end.

(** [prod] of [tinygrad.helpers] on integers. *)
Definition prod (l : list Z) : Z := fold_left Z.mul l 1.

(** Modelled from the spec: [DType] of [tinygrad.helpers], a named tuple
    compared field by field; [np] is the host array type when there is
    one. *)
Record DType := mkDType {
  priority : Z;
  itemsize : Z;
  name : string;
  np : option string
}.
#[global] Instance DType_eq_dec : EqDecision DType.
Proof. solve_decision. Defined.

(** Tuple order on dtypes: [a > b]. *)
Definition dtype_gtb (a b : DType) : bool :=
  if decide (priority a = priority b) then
    if decide (itemsize a = itemsize b) then
      match String.compare (name a) (name b) with Gt => true | _ => false end
    else itemsize b <? itemsize a
  else priority b <? priority a.

(** Python's [max] over a non-empty list: the first maximal element. *)
Definition py_max {A} (gtb : A -> A -> bool) (x : A) (l : list A) : A :=
  fold_left (fun best y => if gtb y best then y else best) l x.

#[global] Instance Q_eq_dec : EqDecision Q.
Proof. solve_decision. Defined.
#[global] Instance spec_float_eq_dec : EqDecision spec_float.
Proof. solve_decision. Defined.

(** Modelled from the spec: the raw result contract (spec section 6):
    a raw result exposes size and dtype and is either a legitimate kernel
    argument or a constant-folded scalar.  [RawConst(size, dtype, val)] is
    the scalar that line 214 builds.  Every other raw result is an object
    that a collaborator allocates: it is known by its identity [id], as
    Python compares such objects, and what it holds is the business of the
    backend. *)
Inductive RawBuffer :=
| RawConst (size : Z) (dt : DType) (val : spec_float)
| RawObject (id : nat) (size : Z) (dt : DType).
#[global] Instance RawBuffer_eq_dec : EqDecision RawBuffer.
Proof. solve_decision. Defined.

Definition is_RawConst (rb : RawBuffer) : bool :=
  match rb with RawConst _ _ _ => true | RawObject _ _ _ => false end.
Definition rb_size (rb : RawBuffer) : Z :=
  match rb with RawConst n _ _ | RawObject _ n _ => n end.
Definition rb_dtype (rb : RawBuffer) : DType :=
  match rb with RawConst _ dt _ | RawObject _ _ dt => dt end.

(** ** Python exceptions *)
Inductive Exn :=
| AssertionError (msg : string)
| AttributeError
| NotImplementedError
| ZeroDivisionError
| ValueError
| TypeError
| OverflowError
| IndexError
| KeyError
| RuntimeError
| UnboundLocalError
| ExternalError     (* raised inside an external collaborator *)
| InvalidReference  (* an address outside the arena *)
| RecursionError.   (* the recursion budget of the model is exhausted *)

(** ** Python numbers *)

(** A number as an operation carries it in [arg]: an [int] or a [float],
    which is a binary64 value. *)
Inductive PyNum := PyInt (n : Z) | PyFloat (x : spec_float).
#[global] Instance PyNum_eq_dec : EqDecision PyNum.
Proof. solve_decision. Defined.

(** Python's [float(v)] on a number: a float is returned as it is; an
    int is rounded to the nearest binary64 value, ties to even, and one
    too large for binary64 raises [OverflowError]. *)
Definition py_float (v : PyNum) : Exn + spec_float :=
  match v with
  | PyFloat x => inr x
  | PyInt n =>
      match binary_normalize 53 1024 n 0 false with
      | S754_infinity _ => inl OverflowError
      | x => inr x
      end
  end.

(** References to buffer nodes. *)
Abbreviation Ref := nat (only parsing).

(** ** The view algebra (external collaborator) *)

(** Arguments of the movement operations. *)
Inductive MovementArg :=
| ReshapeArg (new_shape : Shape)
| PermuteArg (axes : list Z)
| ShrinkArg (bounds : list (sint * sint))
| StrideArg (mul : list Z)
| ExpandArg (new_shape : Shape)
| PadArg (padding : list (sint * sint)).

(** [tinygrad.shape.shapetracker.ShapeTracker] is consumed, not
    implemented, by lazy.py: its operations are parameters of the
    development.  A movement returns [None] when the view algebra raises.
    [real_strides] is read by [r] only when every dimension is an integer;
    a stride is then an integer or undefined. *)
Class ViewAlgebra := {
  ShapeTracker : Type;
  st_eqb : ShapeTracker -> ShapeTracker -> bool;
  st_shape : ShapeTracker -> Shape;
  st_contiguous : ShapeTracker -> bool;
  st_size : ShapeTracker -> Z;
  st_real_strides : ShapeTracker -> list (option Z);
  st_simplify : ShapeTracker -> ShapeTracker;
  from_shape : Shape -> ShapeTracker;
  st_movement : ShapeTracker -> MovementArg -> option ShapeTracker
}.

Section Lazy.

Context {VA : ViewAlgebra}.

(** [OPT = getenv("OPT", 2)], read once when the module is loaded. *)
Variable OPT : Z.

Definition MERGE_ELEMENTWISE_INTO_REDUCE : bool := 1 <=? OPT.
Definition MERGE_ELEMENTWISE_OPS : bool := 1 <=? OPT.
Definition MERGE_ONE_REDUCE_INTO_ELEMENTWISE : bool := 2 <=? OPT.

(** ** Operation nodes *)

(** The static payload [arg] of an operation: nothing, a target shape
    (reduce), a number (constant value, random seed), the pair of a cast,
    a user callable (custom load), or the descriptors [ConstBuffer] and
    [MemBuffer] that buffer-slot resolution writes. *)
Inductive Arg :=
| ArgNone
| ArgShape (new_shape : Shape)
| ArgNum (val : PyNum)
| ArgCast (dt : DType) (bitcast : bool)
| ArgCallable (fn : nat)
| ConstBuffer (val : spec_float) (dt : DType) (st : ShapeTracker)
| MemBuffer (idx : Z) (dt : DType) (st : ShapeTracker).

(** [LazyOp(op, src, arg)]; a source is a [LazyOp] or (a reference to) a
    [LazyBuffer]. *)
#[local] Unset Elimination Schemes.
Inductive LazyOp := mkLazyOp {
  op : Op;
  src : list (LazyOp + Ref);
  arg : Arg
}.
#[local] Set Elimination Schemes.

Definition Src : Type := LazyOp + Ref.

(** A stronger induction principle: the sources that are operations
    satisfy the predicate. *)
Definition src_holds (P : LazyOp -> Prop) (y : Src) : Prop :=
  match y with inl o => P o | inr _ => True end.

Fixpoint LazyOp_ind' (P : LazyOp -> Prop)
    (IH : forall o srcs a, Forall (src_holds P) srcs -> P (mkLazyOp o srcs a))
    (t : LazyOp) : P t :=
  match t with
  | mkLazyOp o srcs a =>
      IH o srcs a
        ((fix go (l : list Src) : Forall (src_holds P) l :=
            match l with
            | [] => List.Forall_nil _
            | y :: l' =>
                List.Forall_cons _ y l'
                  (match y return src_holds P y with
                   | inl o' => LazyOp_ind' P IH o'
                   | inr _ => I
                   end)
                  (go l')
            end) srcs)
  end.

(** Modelled from the spec: [LazyOp.buffers] of [tinygrad.ops] (spec
    section 4.1): the leaf buffer nodes reachable from the tree, a buffer
    standing as a source counting as one leaf ([LazyBuffer.buffers], line
    163, returns [(self,)]), a composed operation recursing.  The source
    uses it as a tuple ([(self,)+buffers]) and removes repetitions itself
    ([dedup]), so leaves are listed in source order, once per
    occurrence. *)
Fixpoint buffers (t : LazyOp) : list Ref :=
  flat_map (fun y => match y with inl o => buffers o | inr x => [x] end) (src t).

(** [y.buffers] for a source of either kind. *)
Definition src_buffers (y : Src) : list Ref :=
  match y with inl o => buffers o | inr x => [x] end.

(** ** Buffer nodes and the arena *)

(** A [LazyBuffer] object.  [_realized], [_children] and [_op] are
    attributes of nodes constructed without a base only; they are read
    through [base] (see [base_attrs]).  [_op = None] on such a node means
    the attribute was never set ([if op: self._op = op]).  [shape] is
    [st.shape] and is not stored.  [_children] is a [WeakSet]: the model
    never collects a referent, the set only grows (spec section 5). *)
Record LazyBuffer := mkLazyBuffer {
  st : ShapeTracker;
  dtype : DType;
  device : string;
  base : Ref;
  _realized : option RawBuffer;
  _children : list Ref;
  _op : option LazyOp
}.

(** A call that reached the backend or a load handler, recorded in order
    (ghost state: it only observes). *)
Inductive Call :=
| ExecAst (ast : LazyOp) (output : Ref) (inputs : list RawBuffer)
| LoadCall (kind : LoadOps.t) (buffer : Ref).

Record State := mkState {
  bufs : list LazyBuffer;
  calls : list Call
}.

(** ** The monad of state and exceptions *)

Inductive Result (A : Type) :=
| Ok (a : A) (s : State)
| Raise (e : Exn).
Arguments Ok {A} a s.
Arguments Raise {A} e.

Definition M (A : Type) : Type := State -> Result A.

Definition ret {A} (a : A) : M A := fun s => Ok a s.
Definition raise {A} (e : Exn) : M A := fun _ => Raise e.
Definition bind {A B} (m : M A) (k : A -> M B) : M B :=
  fun s => match m s with
           | Ok a s' => k a s'
           | Raise e => Raise e
           end.

Notation "x <- m ;; k" := (bind m (fun x => k))
  (at level 100, m at next level, right associativity).
Notation "m ;;; k" := (bind m (fun _ => k))
  (at level 100, right associativity).

(** [assert c, msg] *)
Definition py_assert (c : bool) (msg : string) : M unit :=
  if c then ret tt else raise (AssertionError msg).

(** The result of an external call that may raise. *)
Definition external {A} (o : option A) : M A :=
  match o with Some a => ret a | None => raise ExternalError end.

(** [for x in l: body(x)] *)
Fixpoint for_each {A} (l : list A) (body : A -> M unit) : M unit :=
  match l with
  | [] => ret tt
  | x :: l' => body x ;;; for_each l' body
  end.

(** [[f(x) for x in l]] *)
Fixpoint map_M {A B} (f : A -> M B) (l : list A) : M (list B) :=
  match l with
  | [] => ret []
  | x :: l' => y <- f x ;; ys <- map_M f l' ;; ret (y :: ys)
  end.

(** [[x for x in l if f(x)]] *)
Fixpoint filter_M {A} (f : A -> M bool) (l : list A) : M (list A) :=
  match l with
  | [] => ret []
  | x :: l' => b <- f x ;; ys <- filter_M f l' ;; ret (if b then x :: ys else ys)
  end.

(** Dereference. *)
Definition get (x : Ref) : M LazyBuffer :=
  fun s => match bufs s !! x with
           | Some b => Ok b s
           | None => Raise InvalidReference
           end.

Definition shape (b : LazyBuffer) : Shape := st_shape (st b).

(** [self.base._realized], [self.base._children], [self.base._op]: the
    node [self.base], provided it carries the attributes, that is, it was
    constructed without a base and so is its own base. *)
Definition base_attrs (x : Ref) : M LazyBuffer :=
  b <- get x ;;
  bb <- get (base b) ;;
  if Nat.eqb (base bb) (base b) then ret bb else raise AttributeError.

(** [@property op] *)
Definition lb_op (x : Ref) : M LazyOp :=
  bb <- base_attrs x ;;
  match _op bb with
  | Some o => ret o
  | None => raise AttributeError
  end.

(** [@property realized] *)
Definition realized (x : Ref) : M (option RawBuffer) :=
  bb <- base_attrs x ;; ret (_realized bb).

(** [@property children] *)
Definition children (x : Ref) : M (list Ref) :=
  bb <- base_attrs x ;; ret (_children bb).

(** Truth value of [x.realized]: [None] is false, a raw buffer object is
    true. *)
Definition truthy {A} (o : option A) : bool :=
  match o with Some _ => true | None => false end.

(** [len(s) == 0] *)
Definition is_empty {A} (l : list A) : bool :=
  match l with [] => true | _ => false end.

(** ** Construction *)

Definition set_buf (i : Ref) (b : LazyBuffer) : M unit :=
  fun s => Ok tt (mkState (<[i := b]> (bufs s)) (calls s)).

(** A new object; its address is the next free one. *)
Definition alloc (mk : Ref -> LazyBuffer) : M Ref :=
  fun s => let self := length (bufs s) in
           Ok self (mkState (bufs s ++ [mk self]) (calls s)).

Definition set_add (x : Ref) (l : list Ref) : list Ref :=
  if decide (x ∈ l) then l else l ++ [x].

(** [x.children.add(self)] *)
Definition children_add (x self : Ref) : M unit :=
  b <- get x ;;
  bb <- base_attrs x ;;
  set_buf (base b)
    (mkLazyBuffer (st bb) (dtype bb) (device bb) (base bb) (_realized bb)
       (set_add self (_children bb)) (_op bb)).

(** [LazyBuffer.__init__(self, op, st, dtype, device, src=None, base=None)] *)
Definition LazyBuffer_init (op0 : option LazyOp) (st0 : ShapeTracker)
    (dtype0 : DType) (device0 : string) (src0 : option RawBuffer)
    (base0 : option Ref) : M Ref :=
  match base0 with
  | Some base1 =>
      bb <- get base1 ;;
      py_assert (st_contiguous (st bb)) "base must be contiguous" ;;;
      self <- alloc (fun _ => mkLazyBuffer st0 dtype0 device0 base1 None [] None) ;;
      children_add base1 self ;;;
      ret self
  | None =>
      self <- alloc (fun self => mkLazyBuffer st0 dtype0 device0 self src0 [] op0) ;;
      match op0 with
      | Some o => for_each (buffers o) (fun x => children_add x self)
      | None => ret tt
      end ;;;
      ret self
  end.

(** [is_contiguous] *)
Definition is_contiguous (self : Ref) : M bool :=
  b <- get self ;;
  if st_contiguous (st b) then
    bb <- get (base b) ;;
    ret (st_size (st bb) =? st_size (st b))
  else ret false.

(** [contiguous] *)
Definition contiguous (self : Ref) : M Ref :=
  c <- is_contiguous self ;;
  if c then ret self else
  b <- get self ;;
  LazyBuffer_init (Some (mkLazyOp LoadOps.CONTIGUOUS [inr self] ArgNone))
    (from_shape (shape b)) (dtype b) (device b) None None.

(** [loadop] *)
Definition loadop (op0 : Op) (shape0 : Shape) (dtype0 : DType) (device0 : string)
    (arg0 : Arg) (src0 : option Src) : M Ref :=
  LazyBuffer_init
    (Some (mkLazyOp op0 (match src0 with None => [] | Some y => [y] end) arg0))
    (from_shape shape0) dtype0 device0 None None.

(** ** Movement operations *)

(** [_movement_op] *)
Definition _movement_op (self : Ref) (st0 : ShapeTracker) : M Ref :=
  b <- get self ;;
  if st_eqb (st b) st0 then ret self else
  LazyBuffer_init None st0 (dtype b) (device b) None (Some (base b)).

Definition movement (self : Ref) (a : MovementArg) : M Ref :=
  b <- get self ;;
  st0 <- external (st_movement (st b) a) ;;
  _movement_op self st0.

Definition reshape (self : Ref) (a : Shape) : M Ref := movement self (ReshapeArg a).
Definition permute (self : Ref) (a : list Z) : M Ref := movement self (PermuteArg a).
Definition shrink (self : Ref) (a : list (sint * sint)) : M Ref := movement self (ShrinkArg a).
Definition stride (self : Ref) (a : list Z) : M Ref := movement self (StrideArg a).
Definition expand (self : Ref) (a : Shape) : M Ref := movement self (ExpandArg a).
Definition pad (self : Ref) (a : list (sint * sint)) : M Ref := movement self (PadArg a).

(** ** Elementwise operations *)

(** The test of line 132:
    [not x.realized and x.is_contiguous() and x.op.op in ElementwiseOps and not x.children] *)
Definition e_inlines (x : Ref) : M bool :=
  rz <- realized x ;;
  if truthy rz then ret false else
  c <- is_contiguous x ;;
  if negb c then ret false else
  o <- lb_op x ;;
  if negb (in_ElementwiseOps (op o)) then ret false else
  ch <- children x ;;
  ret (is_empty ch).

(** [e] *)
Definition e (self : Ref) (op0 : Op) (srcs : list Ref) (arg0 : Arg) : M Ref :=
  let srcs := self :: srcs in
  b <- get self ;;
  dts <- map_M (fun x => bx <- get x ;; ret (dtype bx)) srcs ;;
  out_dtype <-
    (if decide (op0 = UnaryOps.CAST) then
       match arg0 with ArgCast dt _ => ret dt | _ => raise TypeError end
     else ret (py_max dtype_gtb (dtype b) (tail dts))) ;;
  srcs' <-
    (if MERGE_ELEMENTWISE_OPS then
       map_M (fun x => c <- e_inlines x ;;
                       if c then o <- lb_op x ;; ret (inl o : Src)
                       else ret (inr x : Src)) srcs
     else ret (map (fun x => inr x : Src) srcs)) ;;
  LazyBuffer_init (Some (mkLazyOp op0 srcs' arg0)) (from_shape (shape b))
    out_dtype (device b) None None.

(** ** Reduce operations *)

(** [_reduce_op] *)
Definition _reduce_op (self : Ref) (op0 : Op) (new_shape : Shape) : M Ref :=
  b <- get self ;;
  if decide (shape b = new_shape) then ret self else
  LazyBuffer_init (Some (mkLazyOp op0 [inr self] (ArgShape new_shape)))
    (from_shape new_shape) (dtype b) (device b) None None.

(** A candidate of line 144: [(heuristic, divisor, i)].  The quotient
    [divisor/stride] is kept exact. *)
Definition Candidate : Type := Q * Z * nat.

(** [gcd(256, old) / (stride or math.inf)] *)
Definition heuristic_of (divisor : Z) (stride0 : option Z) : Q :=
  match stride0 with
  | None | Some 0 => 0%Q
  | Some s => (inject_Z divisor / inject_Z s)%Q
  end.

(** The generator of line 144 from index [i] on: [zip] stops with the
    shortest of its three arguments. *)
Fixpoint candidates (i : nat) (sh new_sh : list Z) (strides : list (option Z))
    : list Candidate :=
  match sh, new_sh, strides with
  | old :: sh', new :: new_sh', stride0 :: strides' =>
      let rest := candidates (S i) sh' new_sh' strides' in
      if old =? new then rest
      else (heuristic_of (Z.gcd 256 old) stride0, Z.gcd 256 old, i) :: rest
  | _, _, _ => []
  end.

Definition Qltb (a b : Q) : bool := negb (Qle_bool b a).

(** Tuple order on candidates: [a > b]. *)
Definition cand_gtb (a b : Candidate) : bool :=
  let '(h1, d1, i1) := a in
  let '(h2, d2, i2) := b in
  if Qeq_bool h1 h2 then
    if d1 =? d2 then (i2 <? i1)%nat else d2 <? d1
  else Qltb h2 h1.

(** How [r] reduces: directly, or in two passes on [dim_to_split]. *)
Inductive ReducePlan :=
| Direct
| Split (divisor : Z) (dim_to_split : nat).

(** Lines 143 to 145 on integer shapes.  [prod(self.shape) // prod(new_shape)]
    raises when the divisor is zero; [max] raises on an empty generator. *)
Definition reduce_plan (sh new_sh : list Z) (strides : list (option Z))
    : Exn + ReducePlan :=
  if prod new_sh =? 0 then inl ZeroDivisionError else
  if prod sh / prod new_sh <? 32768 then inr Direct else
  match candidates 0 sh new_sh strides with
  | [] => inl ValueError
  | c :: cs =>
      let '(heuristic, divisor, dim_to_split) := py_max cand_gtb c cs in
      if (divisor <? 16) || Qltb heuristic (1 # 10) then inr Direct
      else inr (Split divisor dim_to_split)
  end.

(** [splitted_shape(dim_aft_div)] of line 146. *)
Definition splitted_shape (sh : list Z) (divisor : Z) (dim_to_split : nat)
    (dim_aft_div : list Z) : Shape :=
  map SInt (take dim_to_split sh
            ++ [nth dim_to_split sh 0 / divisor] ++ dim_aft_div
            ++ drop (S dim_to_split) sh).

(** The two-pass reduction of line 147. *)
Definition r_split (self : Ref) (op0 : Op) (new_shape : Shape) (sh : list Z)
    (divisor : Z) (dim_to_split : nat) : M Ref :=
  v1 <- reshape self (splitted_shape sh divisor dim_to_split [divisor]) ;;
  r1 <- _reduce_op v1 op0 (splitted_shape sh divisor dim_to_split [1]) ;;
  v2 <- reshape r1 (splitted_shape sh divisor dim_to_split []) ;;
  _reduce_op v2 op0 new_shape.

(** [r].  With an integer shape and a symbolic [new_shape] the quotient
    is [int // Node], which the symbolic arithmetic refuses. *)
Definition r (self : Ref) (op0 : Op) (new_shape : Shape) : M Ref :=
  b <- get self ;;
  match ints (shape b) with
  | None => _reduce_op self op0 new_shape
  | Some sh =>
      match ints new_shape with
      | None => raise RuntimeError
      | Some new_sh =>
          match reduce_plan sh new_sh (st_real_strides (st b)) with
          | inl exn => raise exn
          | inr Direct => _reduce_op self op0 new_shape
          | inr (Split divisor dim_to_split) =>
              r_split self op0 new_shape sh divisor dim_to_split
          end
      end
  end.

(** ** Python dictionaries keyed by buffers *)

(** A [dict]: keys in insertion order; assigning to a present key keeps
    its place. *)
Definition PyDict (V : Type) : Type := list (Ref * V).

Fixpoint dict_get {V} (k : Ref) (d : PyDict V) : option V :=
  match d with
  | [] => None
  | (k', v) :: d' => if Nat.eqb k k' then Some v else dict_get k d'
  end.

Fixpoint dict_set {V} (k : Ref) (v : V) (d : PyDict V) : PyDict V :=
  match d with
  | [] => [(k, v)]
  | (k', v') :: d' =>
      if Nat.eqb k k' then (k, v) :: d' else (k', v') :: dict_set k v d'
  end.

Definition dict_keys {V} (d : PyDict V) : list Ref := map fst d.

(** [{x: f(x) for x in l}] *)
Definition dict_of {V} (f : Ref -> V) (l : list Ref) : PyDict V :=
  fold_left (fun d x => dict_set x (f x) d) l [].

(** [d.update(d')] *)
Definition dict_update {V} (d d' : PyDict V) : PyDict V :=
  fold_left (fun acc kv => dict_set kv.1 kv.2 acc) d' d.

(** Modelled from the spec: [dedup] of [tinygrad.helpers]: the distinct
    elements as an ordered list, each at its first occurrence. *)
Definition dedup {A} `{EqDecision A} (l : list A) : list A :=
  fold_left (fun acc x => if decide (x ∈ acc) then acc else acc ++ [x]) l [].

(** [l.index(x)] for an [x] known to be in [l]. *)
Fixpoint index {A} `{EqDecision A} (x : A) (l : list A) : Z :=
  match l with
  | [] => 0
  | y :: l' => if decide (x = y) then 0 else 1 + index x l'
  end.

(** Modelled from the spec: [LazyOp.map_buffers] of [tinygrad.ops], the
    [substitute] of spec section 4.1: every leaf buffer present in the
    mapping is replaced by its image, the others are kept
    ([LazyBuffer.map_buffers], line 164, is [real_srcs.get(self, self)]);
    an image is not visited again. *)
Fixpoint map_buffers (real_srcs : PyDict Src) (t : LazyOp) : LazyOp :=
  mkLazyOp (op t)
    (map (fun y => match y with
                   | inl o => inl (map_buffers real_srcs o)
                   | inr x => default (inr x) (dict_get x real_srcs)
                   end) (src t))
    (arg t).

(** [prod(a) == prod(b)]; a product with a symbolic factor is compared as
    it is written. *)
Definition prod_eqb (a b : Shape) : bool :=
  match ints a, ints b with
  | Some x, Some y => prod x =? prod y
  | _, _ => bool_decide (a = b)
  end.

(** [for x in l: acc = f(acc, x)] *)
Fixpoint fold_M {A B} (f : B -> A -> M B) (l : list A) (acc : B) : M B :=
  match l with
  | [] => ret acc
  | x :: l' => acc' <- f acc x ;; fold_M f l' acc'
  end.

(** ** Fusion rewriters *)

(** [_ast_reduceops] *)
Definition _ast_reduceops (t : LazyOp) : M LazyOp :=
  match src t with
  | [] => raise IndexError
  | inl _ :: _ => raise AttributeError
  | inr x :: _ =>
      rz <- realized x ;;
      if truthy rz then ret (mkLazyOp (op t) [inr x] (arg t)) else
      o <- lb_op x ;;
      if MERGE_ELEMENTWISE_INTO_REDUCE && in_ElementwiseOps (op o) then
        ch <- children x ;;
        if (length ch <=? 1)%nat then ret (mkLazyOp (op t) [inl o] (arg t))
        else ret (mkLazyOp (op t) [inr x] (arg t))
      else ret (mkLazyOp (op t) [inr x] (arg t))
  end.

(** The filter of line 35, where [k] and [x] run over the same keys:
    [not x.realized and x.op.op in ReduceOps and prod(k.shape) == prod(x.shape)
     and len(x.children) <= 1 and len(k.children) <= 1] *)
Definition psrc_filter (k x : Ref) : M bool :=
  rz <- realized x ;;
  if truthy rz then ret false else
  o <- lb_op x ;;
  if negb (in_ReduceOps (op o)) then ret false else
  bk <- get k ;;
  bx <- get x ;;
  if negb (prod_eqb (shape bk) (shape bx)) then ret false else
  chx <- children x ;;
  if negb (length chx <=? 1)%nat then ret false else
  chk <- children k ;;
  ret (length chk <=? 1)%nat.

(** [(k, x.base if x.is_contiguous() else x)] *)
Definition psrc_of (k x : Ref) : M (Ref * Ref) :=
  c <- is_contiguous x ;;
  if c then b <- get x ;; ret (k, base b) else ret (k, x).

(** [_ast_binaryops] *)
Definition _ast_binaryops (t : LazyOp) (output_shape : Shape) : M LazyOp :=
  let real_srcs0 : PyDict (option Src) := dict_of (fun _ => None) (buffers t) in
  keep <- filter_M (fun x => psrc_filter x x) (dict_keys real_srcs0) ;;
  psrcs <- map_M (fun x => psrc_of x x) keep ;;
  absorbed <-
    (match psrcs with
     | psrc :: _ =>
         if MERGE_ONE_REDUCE_INTO_ELEMENTWISE then
           o1 <- lb_op psrc.2 ;;
           top <- (if in_ReduceOps (op o1) then _ast_reduceops o1
                   else raise UnboundLocalError) ;;
           let d1 := dict_set psrc.1 (Some (inl top : Src)) real_srcs0 in
           let d2 := dict_update d1 (dict_of (fun x => Some (inr x : Src)) (buffers top)) in
           b0 <- get psrc.1 ;;
           b1 <- get psrc.2 ;;
           if decide (shape b0 = shape b1) then ret (d2, output_shape)
           else
             py_assert (bool_decide (shape b0 = output_shape)) "shape mismatch" ;;;
             ret (d2, shape b1)
         else ret (real_srcs0, output_shape)
     | [] => ret (real_srcs0, output_shape)
     end) ;;
  let real_srcs1 : PyDict (option Src) := absorbed.1 in
  let intermediate_shape : Shape := absorbed.2 in
  real_srcs2 <-
    map_M (fun kv : Ref * option Src =>
             match kv.2 with
             | Some y => ret (kv.1, y)
             | None => v <- reshape kv.1 intermediate_shape ;; ret (kv.1, inr v : Src)
             end) real_srcs1 ;;
  ret (map_buffers real_srcs2 t).

(** [float(arg)]; an [arg] that is not a number raises [TypeError]. *)
Definition float_of_arg (a : Arg) : M spec_float :=
  match a with
  | ArgNum v => match py_float v with inl exn => raise exn | inr x => ret x end
  | _ => raise TypeError
  end.

(** [x.base.op.op == LoadOps.CONST] *)
Definition base_is_const (x : Ref) : M bool :=
  b <- get x ;;
  o <- lb_op (base b) ;;
  ret (bool_decide (op o = LoadOps.CONST)).

(** The body of the loop of lines 60 to 66: the replacement of leaf [x]. *)
Definition bufferop_of (base_bufs : list Ref) (x : Ref) : M LazyOp :=
  b <- get x ;;
  c <- base_is_const x ;;
  if c then
    o <- lb_op (base b) ;;
    v <- float_of_arg (arg o) ;;
    ret (mkLazyOp BufferOps.CONST [] (ConstBuffer v (dtype b) (st_simplify (st b))))
  else if bool_decide (base b ∈ base_bufs) then
    ret (mkLazyOp BufferOps.MEM []
           (MemBuffer (index (base b) base_bufs + 1) (dtype b) (st_simplify (st b))))
  else raise NotImplementedError.

(** [base_bufs] of line 59. *)
Definition base_bufs_of (t : LazyOp) : M (list Ref) :=
  keep <- filter_M (fun x => c <- base_is_const x ;; ret (negb c)) (buffers t) ;;
  bases <- map_M (fun x => b <- get x ;; ret (base b)) keep ;;
  ret (dedup bases).

(** The dictionary [replacements] when the loop of line 60 is over. *)
Definition replacements_of (t : LazyOp) : M (PyDict Src) :=
  base_bufs <- base_bufs_of t ;;
  fold_M (fun d x => o <- bufferop_of base_bufs x ;; ret (dict_set x (inl o : Src) d))
    (buffers t) [].

(** [_ast_bufferops] *)
Definition _ast_bufferops (t : LazyOp) : M LazyOp :=
  replacements <- replacements_of t ;;
  ret (map_buffers replacements t).

(** ** The scheduler *)

Definition ScheduleItem : Type := LazyOp * list Ref.

(** Lines 181 to 183: one unit of a sub-schedule. *)
Definition schedule_add (acc : list ScheduleItem * list Ref) (item : ScheduleItem)
    : M (list ScheduleItem * list Ref) :=
  match item.2 with
  | [] => raise IndexError
  | b0 :: _ =>
      if bool_decide (b0 ∈ acc.2) then ret acc
      else ret (acc.1 ++ [item], b0 :: acc.2)
  end.

(** Lines 172 and 173: the absorption rewrites, by category. *)
Definition absorption (op1 : LazyOp) (self_shape : Shape) : M LazyOp :=
  if in_ElementwiseOps (op op1) then _ast_binaryops op1 self_shape
  else if in_ReduceOps (op op1) then _ast_reduceops op1
  else ret op1.

(** Lines 178 to 183 for one buffer [x]; [schedule_rec] is [schedule]. *)
Definition schedule_leaf (schedule_rec : Ref -> M (list ScheduleItem))
    (acc : list ScheduleItem * list Ref) (x : Ref)
    : M (list ScheduleItem * list Ref) :=
  rz <- realized x ;;
  if negb (truthy rz) && negb (bool_decide (x ∈ acc.2)) then
    sub <- schedule_rec x ;;
    fold_M schedule_add sub acc
  else ret acc.

(** [schedule]; [fuel] bounds the depth of the recursion. *)
Fixpoint schedule (fuel : nat) (self : Ref) : M (list ScheduleItem) :=
  match fuel with
  | O => raise RecursionError
  | S fuel' =>
      b <- get self ;;
      if negb (Nat.eqb (base b) self) then schedule fuel' (base b) else
      o <- lb_op self ;;
      let op1 := if decide (op o = LoadOps.CONTIGUOUS)
                 then mkLazyOp UnaryOps.NOOP (src o) ArgNone else o in
      if in_LoadOps (op op1) then ret [(o, [self])] else
      op2 <- absorption op1 (shape b) ;;
      let buffers0 := buffers op2 in
      op3 <- _ast_bufferops op2 ;;
      acc <- fold_M (schedule_leaf (schedule fuel')) buffers0 ([], []) ;;
      ret (acc.1 ++ [(op3, self :: buffers0)])
  end.

(** ** The realizer *)

(** The device backends, host arrays and user callables are external
    collaborators (spec section 6): parameters.  An operation returns
    [None] when the collaborator raises.  An operation that allocates a
    raw buffer is given the state it is called in, as an allocator is, so
    that it can tell the new object from the ones that exist. *)
Class Backend := {
  ndarray : Type;
  (** [Device[device].exec_ast(ast, output=..., inputs=..., var_vals={}, **extra)] *)
  exec_ast : State -> string -> LazyOp -> LazyBuffer -> list RawBuffer -> option string
             -> option RawBuffer;
  (** [Device[device].buffer.fromCPU(x, **extra)] *)
  buffer_fromCPU : State -> string -> ndarray -> option string -> option RawBuffer;
  (** [Device[device].buffer(size, dtype, **extra)] *)
  buffer_new : State -> string -> Z -> DType -> option string -> option RawBuffer;
  (** [isinstance(Device[device], Compiled)] *)
  is_Compiled : string -> bool;
  (** [RawBuffer.toCPU] and [RawNumpyBuffer.fromCPU] *)
  raw_toCPU : RawBuffer -> option ndarray;
  raw_fromCPU : State -> ndarray -> RawBuffer;
  (** [x.shape], [x.dtype], [x.reshape(shape)] of a host array *)
  np_shape : ndarray -> Shape;
  np_dtype : ndarray -> option string;
  np_reshape : ndarray -> Shape -> option ndarray;
  (** [np.random.default_rng(seed).random(size=shape, dtype=np.float32).astype(dtype.np)] *)
  np_random : Arg -> Shape -> DType -> option ndarray;
  (** [np.array(val, dtype=dtype.np)] *)
  np_array : Arg -> DType -> option ndarray;
  (** [dtypes.from_np] *)
  from_np : option string -> option DType;
  (** the callable of a custom load, applied to the buffer and its
      realized sources *)
  call_custom : nat -> State -> Ref -> list Ref -> option RawBuffer
}.

Context {BE : Backend}.

(** Modelled from the spec: [buf_is_kernel_arg] of [tinygrad.runtime.lib]
    (spec section 6): a realized result that is not a constant-folded
    scalar. *)
Definition buf_is_kernel_arg (x : Ref) : M bool :=
  rz <- realized x ;;
  ret (match rz with Some rb => negb (is_RawConst rb) | None => false end).

(** [self.device.split(":", 1)[1] if ":" in self.device else {}] *)
Fixpoint device_suffix (d : string) : option string :=
  match d with
  | EmptyString => None
  | String c d' => if Ascii.eqb c ":"%char then Some d' else device_suffix d'
  end.

(** [_device_extra_args] *)
Definition _device_extra_args (self : Ref) : M (option string) :=
  b <- get self ;; ret (device_suffix (device b)).

(** [@realized.setter] *)
Definition set_realized (self : Ref) (val : option RawBuffer) : M unit :=
  b <- get self ;;
  py_assert (Nat.eqb (base b) self) "must be a base" ;;;
  set_buf self
    (mkLazyBuffer (st b) (dtype b) (device b) (base b) val (_children b) (_op b)).

Definition log (c : Call) : M unit :=
  fun s => Ok tt (mkState (bufs s) (calls s ++ [c])).

Definition get_state : M State := fun s => Ok s s.

(** [fromCPU] *)
Definition fromCPU (x : ndarray) : M Ref :=
  dt <- external (from_np (np_dtype x)) ;;
  s <- get_state ;;
  LazyBuffer_init None (from_shape (np_shape x)) dt "CPU" (Some (raw_fromCPU s x)) None.

(** [const] *)
Definition const (self : Ref) (val : PyNum) : M Ref :=
  b <- get self ;;
  dt <- external (from_np (np (dtype b))) ;;
  c <- loadop LoadOps.CONST [] dt (device b) (ArgNum val) None ;;
  c1 <- reshape c (map (fun _ => SInt 1) (shape b)) ;;
  expand c1 (shape b).

Section Realize.

  (** The method [realize] as seen from the handlers of load operations,
      which call it on their sources. *)
Variable realize_rec : Ref -> M Ref.

  (** [toCPU] *)
Definition toCPU (self : Ref) : M ndarray :=
    b <- get self ;;
    py_assert (truthy (np (dtype b))) "not supported in toCPU" ;;;
    dt <- external (from_np (np (dtype b))) ;;
    self_casted <- (if decide (dt = dtype b) then ret self
                    else e self UnaryOps.CAST [] (ArgCast dt false)) ;;
    c <- contiguous self_casted ;;
    rl <- realize_rec c ;;
    rz <- realized rl ;;
    py_assert (all_int (shape b)) "no toCPU if shape is symbolic" ;;;
    match rz with
    | None => raise AttributeError
    | Some rb =>
        x <- external (raw_toCPU rb) ;;
        external (np_reshape x (shape b))
    end.

  (** [_realize_from] *)
Definition _realize_from (buffer : Ref) : M unit :=
    o <- lb_op buffer ;;
    match src o with
    | [] => raise IndexError
    | inl _ :: _ => raise AttributeError
    | inr x :: _ =>
        rawbuf <- realize_rec x ;;
        rz <- realized rawbuf ;;
        py_assert (truthy rz) "realize failed?" ;;;
        b <- get buffer ;;
        host <- toCPU rawbuf ;;
        extra <- _device_extra_args buffer ;;
        s <- get_state ;;
        rb <- external (buffer_fromCPU s (device b) host extra) ;;
        set_realized buffer (Some rb)
    end.

  (** [_realize_rand] *)
Definition _realize_rand (buffer : Ref) : M unit :=
    o <- lb_op buffer ;;
    b <- get buffer ;;
    host <- external (np_random (arg o) (shape b) (dtype b)) ;;
    extra <- _device_extra_args buffer ;;
    s <- get_state ;;
    rb <- external (buffer_fromCPU s (device b) host extra) ;;
    set_realized buffer (Some rb).

  (** [_realize_const] *)
Definition _realize_const (buffer : Ref) : M unit :=
    b <- get buffer ;;
    if is_Compiled (device b) && negb (bool_decide (device b = "LLVM")) then
      o <- lb_op buffer ;;
      v <- float_of_arg (arg o) ;;
      set_realized buffer (Some (RawConst 1 (dtype b) v))
    else
      o <- lb_op buffer ;;
      host <- external (np_array (arg o) (dtype b)) ;;
      extra <- _device_extra_args buffer ;;
      s <- get_state ;;
      rb <- external (buffer_fromCPU s (device b) host extra) ;;
      set_realized buffer (Some rb).

  (** [_realize_empty] *)
Definition _realize_empty (buffer : Ref) : M unit :=
    b <- get buffer ;;
    py_assert (all_int (shape b)) "does not support symbolic shape" ;;;
    extra <- _device_extra_args buffer ;;
    s <- get_state ;;
    rb <- external (buffer_new s (device b) (prod (default [] (ints (shape b))))
                      (dtype b) extra) ;;
    set_realized buffer (Some rb).

  (** [_realize_custom] *)
Definition _realize_custom (buffer : Ref) : M unit :=
    o <- lb_op buffer ;;
    fn <- (match arg o with ArgCallable fn => ret fn | _ => raise TypeError end) ;;
    srcs <- map_M (fun y : Src => match y with
                                  | inl _ => raise AttributeError
                                  | inr x => realize_rec x
                                  end) (src o) ;;
    s <- get_state ;;
    rb <- external (call_custom fn s buffer srcs) ;;
    set_realized buffer (Some rb).

  (** [LOAD_OPS_DISPATCHER[kind](buffer)] *)
Definition LOAD_OPS_DISPATCHER (kind : LoadOps.t) (buffer : Ref) : M unit :=
    match kind with
    | LoadOps.CUSTOM => _realize_custom buffer
    | LoadOps.FROM => _realize_from buffer
    | LoadOps.EMPTY => _realize_empty buffer
    | LoadOps.CONST => _realize_const buffer
    | LoadOps.RAND => _realize_rand buffer
    | LoadOps.CONTIGUOUS => raise KeyError
    end.

  (** The body of the loop of [realize] (lines 193 to 197) for the unit
      [(op, buffers)] of the schedule of [self].  The results that [dedup]
      meets are kernel arguments, objects of the backend, which are equal
      when they are the same object. *)
Definition realize_unit (self : Ref) (item : ScheduleItem) : M unit :=
    match op item.1 with
    | OpLoad kind =>
        match item.2 with
        | [] => raise IndexError
        | b0 :: _ => log (LoadCall kind b0) ;;; LOAD_OPS_DISPATCHER kind b0
        end
    | _ =>
        args <- filter_M buf_is_kernel_arg (tail item.2) ;;
        rzs <- map_M realized args ;;
        let realized_bufs := dedup (omap id rzs) in
        match item.2 with
        | [] => raise IndexError
        | b0 :: _ =>
            out <- get b0 ;;
            extra <- _device_extra_args self ;;
            log (ExecAst item.1 b0 realized_bufs) ;;;
            s <- get_state ;;
            rb <- external (exec_ast s (device out) item.1 out realized_bufs extra) ;;
            set_realized b0 (Some rb)
        end
    end.

End Realize.

(** [realize]; [fuel] bounds the depth of the recursion through the
    scheduler and the load handlers. *)
Fixpoint realize (fuel : nat) (self : Ref) : M Ref :=
  match fuel with
  | O => raise RecursionError
  | S fuel' =>
      rz <- realized self ;;
      if truthy rz then ret self else
      units <- schedule fuel self ;;
      for_each units (realize_unit (realize fuel') self) ;;;
      ret self
  end.

(** ** Vocabulary of the properties *)

(** Two nodes that differ at most in their consumer set. *)
Definition same_node (b b' : LazyBuffer) : Prop :=
  st b = st b' /\ dtype b = dtype b' /\ device b = device b' /\
  base b = base b' /\ _realized b = _realized b' /\ _op b = _op b'.

(** [s'] has every node of [s], up to consumer sets, and maybe more. *)
Definition grows (s s' : State) : Prop :=
  calls s' = calls s /\
  (length (bufs s) <= length (bufs s'))%nat /\
  forall i b, bufs s !! i = Some b -> exists b', bufs s' !! i = Some b' /\ same_node b b'.

(** The operation of the base of [x], when [x] and its base are in the
    arena and the base carries one. *)
Definition op_of (s : State) (x : Ref) : option LazyOp :=
  match bufs s !! x with
  | Some b => match bufs s !! base b with
              | Some bb => _op bb
              | None => None
              end
  | None => None
  end.

(** The four conditions under which elementwise construction inlines a
    source [x] (spec section 4.3): (a) not yet materialized, (b)
    contiguous relative to its own base, (c) itself the result of an
    elementwise operation, (d) no consumer. *)
Definition inline_conditions (s : State) (x : Ref) : Prop :=
  exists b bb o,
    bufs s !! x = Some b /\ bufs s !! base b = Some bb /\
    _realized bb = None /\
    (st_contiguous (st b) = true /\ st_size (st bb) = st_size (st b)) /\
    (_op bb = Some o /\ in_ElementwiseOps (op o) = true) /\
    _children bb = [].

(** A computation that only reads the state. *)
Definition read_only {A} (m : M A) : Prop :=
  forall s a s', m s = Ok a s' -> s' = s.

(** What the properties about shapes ask of the view algebra: [==] on
    views is equality, and a view made from a shape, or reshaped to one,
    has that shape. *)
Record ViewLaws : Prop := {
  st_eqb_eq : forall a b, st_eqb a b = true -> a = b;
  st_shape_from_shape : forall sh, st_shape (from_shape sh) = sh;
  st_shape_reshape : forall v a v',
    st_movement v (ReshapeArg a) = Some v' -> st_shape v' = a
}.

(** The two-pass reduction as the specification words it (section 4.3):
    the dimension is split into the pair (divisor, inner-remainder), the
    first reduce collapses the inner-remainder axis, the singleton is
    reshaped away, the second reduce goes to the final shape. *)
Definition spec_splitted_shape (sh : list Z) (divisor : Z) (dim_to_split : nat)
    (inner : list Z) : Shape :=
  map SInt (take dim_to_split sh ++ [divisor] ++ inner ++ drop (S dim_to_split) sh).

Definition spec_r_split (self : Ref) (op0 : Op) (new_shape : Shape) (sh : list Z)
    (divisor : Z) (dim_to_split : nat) : M Ref :=
  v1 <- reshape self
          (spec_splitted_shape sh divisor dim_to_split [nth dim_to_split sh 0 / divisor]) ;;
  r1 <- _reduce_op v1 op0 (spec_splitted_shape sh divisor dim_to_split [1]) ;;
  v2 <- reshape r1 (spec_splitted_shape sh divisor dim_to_split []) ;;
  _reduce_op v2 op0 new_shape.

(** The descriptors that buffer-slot resolution writes for a leaf whose
    node is [b]. *)
Definition const_descriptor (v : spec_float) (b : LazyBuffer) : LazyOp :=
  mkLazyOp BufferOps.CONST [] (ConstBuffer v (dtype b) (st_simplify (st b))).

Definition mem_descriptor (slot : Z) (b : LazyBuffer) : LazyOp :=
  mkLazyOp BufferOps.MEM [] (MemBuffer slot (dtype b) (st_simplify (st b))).

(** The tree [t] with every leaf buffer [x] replaced by the operation
    [d x], and nothing else changed. *)
Fixpoint with_leaves (d : Ref -> LazyOp) (t : LazyOp) : LazyOp :=
  mkLazyOp (op t)
    (map (fun y => match y with
                   | inl o => inl (with_leaves d o)
                   | inr x => inl (d x)
                   end) (src t))
    (arg t).

(** The memory slot a replacement dictionary gives to leaf [x], if any. *)
Definition mem_slot (replacements : PyDict Src) (x : Ref) : option Z :=
  match dict_get x replacements with
  | Some (inl (mkLazyOp (OpBuffer BufferOps.MEM) _ (MemBuffer slot _ _))) => Some slot
  | _ => None
  end.

(** The base of [x]. *)
Definition base_of (s : State) (x : Ref) : option Ref :=
  base <$> bufs s !! x.

(** The base of leaf [x] when the leaf stands for memory: [x.base],
    unless the operation of that base is a [CONST] load. *)
Definition mem_base (s : State) (x : Ref) : option Ref :=
  match bufs s !! x with
  | Some b =>
      match lb_op (base b) s with
      | Ok o _ => if decide (op o = LoadOps.CONST) then None else Some (base b)
      | Raise _ => None
      end
  | None => None
  end.

(** The bases that get a memory slot, in slot order: the bases of the
    memory leaves of [t] in leaf order, each kept where it comes first. *)
Definition slot_bases (s : State) (t : LazyOp) : list Ref :=
  dedup (omap (mem_base s) (buffers t)).

(** A leaf that buffer-slot resolution can resolve: it is in the arena,
    the operation of its base can be read, and a constant has a number
    that [float] accepts as its value. *)
Definition resolvable (s : State) (x : Ref) : Prop :=
  exists b o, bufs s !! x = Some b /\ lb_op (base b) s = Ok o s /\
              (op o = LoadOps.CONST ->
               exists v x, arg o = ArgNum v /\ py_float v = inr x).

(** *** Schedules *)

(** [x] is an address of the arena. *)
Definition valid (s : State) (x : Ref) : Prop := (x < length (bufs s))%nat.

(** [x] is in the arena and its base has a smaller address than [self]. *)
Definition below (s : State) (self x : Ref) : Prop :=
  exists bx, bufs s !! x = Some bx /\ (base bx < self)%nat.

(** Objects are created after the objects they refer to: the base of a
    node is not younger than the node and is its own base, and the leaves
    of the operation of a base are older than the base.  Every arena that
    the constructors build is so ordered. *)
Definition arena_ordered (s : State) : Prop :=
  forall i b, bufs s !! i = Some b ->
    (base b <= i)%nat /\
    (exists bb, bufs s !! base b = Some bb /\ base bb = base b) /\
    (forall o x, base b = i -> _op b = Some o -> x ∈ buffers o -> (x < i)%nat).

Definition node_orderedb (l : list LazyBuffer) (i : nat) (b : LazyBuffer) : bool :=
  (base b <=? i)%nat
  && match l !! base b with
     | Some bb => Nat.eqb (base bb) (base b)
     | None => false
     end
  && (if Nat.eqb (base b) i then
        match _op b with
        | Some o => forallb (fun x => (x <? i)%nat) (buffers o)
        | None => true
        end
      else true).

(** The same, as a test. *)
Definition arena_orderedb (s : State) : bool :=
  forallb (fun ib : nat * LazyBuffer => node_orderedb (bufs s) ib.1 ib.2)
    (imap pair (bufs s)).

Definition is_base (s : State) (x : Ref) : Prop :=
  exists b, bufs s !! x = Some b /\ base b = x.

(** The base of [x] holds no materialized result. *)
Definition unrealized (s : State) (x : Ref) : Prop :=
  exists b bb, bufs s !! x = Some b /\ bufs s !! base b = Some bb /\ _realized bb = None.

(** The output of a unit is the first element of its buffer tuple; the
    others are its dependencies. *)
Definition output (item : ScheduleItem) : option Ref := head item.2.
Definition deps (item : ScheduleItem) : list Ref := tail item.2.
Definition outputs (units : list ScheduleItem) : list Ref := omap output units.

(** Every unrealized dependency of a unit is, through its base, the
    output of a unit before it in the list or one of [avail]. *)
Fixpoint closed_from (s : State) (avail : list Ref) (units : list ScheduleItem) : Prop :=
  match units with
  | [] => True
  | u :: us =>
      (forall x, x ∈ deps u -> valid s x /\
         (unrealized s x -> exists bx, base_of s x = Some bx /\ bx ∈ avail)) /\
      exists out, output u = Some out /\ closed_from s (out :: avail) us
  end.

(** Every unit produces a base, no younger than [root]. *)
Definition units_wf (s : State) (root : Ref) (units : list ScheduleItem) : Prop :=
  Forall (fun u => exists out, output u = Some out /\ is_base s out /\ (out <= root)%nat) units.

(** Every unit produces a base older than [self]. *)
Definition units_below (s : State) (self : Ref) (units : list ScheduleItem) : Prop :=
  Forall (fun u => exists out, output u = Some out /\ is_base s out /\ (out < self)%nat) units.

(** The accumulators [(ret, seen)] of the loop of [schedule]: [seen]
    holds the outputs of [ret], which are distinct bases older than
    [self], and [ret] is closed under dependencies. *)
Definition loop_inv (s : State) (self : Ref) (acc : list ScheduleItem * list Ref) : Prop :=
  (forall x, x ∈ acc.2 <-> x ∈ outputs acc.1) /\
  NoDup (outputs acc.1) /\
  closed_from s [] acc.1 /\
  units_below s self acc.1.

(** The operation that [schedule] works on for a base whose operation
    is [o]: the late rewrite of line 170. *)
Definition late_contiguous (o : LazyOp) : LazyOp :=
  if decide (op o = LoadOps.CONTIGUOUS)
  then mkLazyOp UnaryOps.NOOP (src o) ArgNone else o.

(** [u] is the unit of the base [out]: what lines 170 to 175 and 184
    build from the operation of [out], in a state [si] that [s] has grown
    to on the way to [s'].  A load operation gives the operation itself
    with [(out,)]; any other operation goes through the absorption
    rewrites, and the unit is the slot-resolved tree with [out] followed by
    the leaves after absorption. *)
Definition unit_of_base (s s' : State) (out : Ref) (u : ScheduleItem) : Prop :=
  exists n o si sj,
    grows s si /\ grows si sj /\ grows sj s' /\
    bufs si !! out = Some n /\ base n = out /\ _op n = Some o /\
    if in_LoadOps (op (late_contiguous o)) then u = (o, [out])
    else exists op2,
           absorption (late_contiguous o) (shape n) si = Ok op2 sj /\
           _ast_bufferops op2 sj = Ok u.1 sj /\
           u.2 = out :: buffers op2.

(** [s'] has the nodes of [s], up to consumer sets, and beyond them
    views only: nodes on another node as base, with no operation and no
    materialized result of their own. *)
Definition adds_views (s s' : State) : Prop :=
  grows s s' /\
  forall i b', (length (bufs s) <= i)%nat -> bufs s' !! i = Some b' ->
    base b' <> i /\ _realized b' = None /\ _op b' = None.

(** A computation that does not exhaust the recursion budget. *)
Definition no_rec {A} (m : M A) : Prop :=
  forall s, m s <> Raise RecursionError.

(** What a returned schedule of [self] satisfies: the arena has grown
    and is ordered, every unit produces a base no younger than the base of
    [self], outputs are distinct, dependencies are closed, and the last
    unit produces the base of [self]. *)
Definition schedule_result (s : State) (self : Ref) (units : list ScheduleItem)
    (s' : State) : Prop :=
  grows s s' /\ arena_ordered s' /\
  exists b, bufs s !! self = Some b /\
    units_wf s' (base b) units /\
    NoDup (outputs units) /\
    closed_from s' [] units /\
    exists init lastu, units = init ++ [lastu] /\ output lastu = Some (base b).

(** *** Realization *)

(** [s'] has every node of [s], with the same base. *)
Definition keeps_bases (s s' : State) : Prop :=
  forall i b, bufs s !! i = Some b -> exists b', bufs s' !! i = Some b' /\ base b' = base b.

(** A computation that keeps every node and its base. *)
Definition evolving {A} (m : M A) : Prop :=
  forall s a s', m s = Ok a s' -> keeps_bases s s'.

(** A computation that, when it returns, has kept nodes and bases and
    left a materialized result in the slot of the base [x]. *)
Definition materializes {A} (x : Ref) (m : M A) : Prop :=
  forall s a s', m s = Ok a s' ->
    keeps_bases s s' /\
    exists n rb, bufs s' !! x = Some n /\ base n = x /\ _realized n = Some rb.

End Lazy.

Arguments Ok {VA A} a s.
Arguments Raise {VA A} e.

Notation "x <- m ;; k" := (bind m (fun x => k))
  (at level 100, m at next level, right associativity).
Notation "m ;;; k" := (bind m (fun _ => k))
  (at level 100, right associativity).

(** ** A small view algebra *)

(** Modelled from the spec: the view-algebra contract of spec section 6,
    for single strided views: a shape, a stride per dimension (undefined
    when it cannot be told) and an offset.  Used to run the definitions on
    concrete graphs. *)
Module SimpleView.

Record t := mk {
    v_shape : Shape;
    v_strides : list (option Z);
    v_offset : Z
  }.

#[global] Instance t_eq_dec : EqDecision t.
Proof. solve_decision. Defined.

  (** Row-major strides; a dimension of size one does not move. *)
Fixpoint strides_for_shape (sh : list Z) : list Z :=
    match sh with
    | [] => []
    | d :: sh' => (if d =? 1 then 0 else prod sh') :: strides_for_shape sh'
    end.

Definition of_shape (sh : Shape) : t :=
    match ints sh with
    | Some l => mk sh (map Some (strides_for_shape l)) 0
    | None => mk sh (map (fun _ => None) sh) 0
    end.

Definition is_contiguous (v : t) : bool := bool_decide (v = of_shape (v_shape v)).

Definition size (v : t) : Z :=
    match ints (v_shape v) with Some l => prod l | None => 0 end.

Definition permuted {A} (axes : list Z) (l : list A) : option (list A) :=
    mapM (fun a => l !! Z.to_nat a) axes.

Definition movement (v : t) (a : MovementArg) : option t :=
    match a with
    | ReshapeArg new_shape =>
        if decide (v_shape v = new_shape) then Some v
        else if is_contiguous v && (size v =? size (of_shape new_shape))
        then Some (of_shape new_shape) else None
    | PermuteArg axes =>
        sh ← permuted axes (v_shape v);
        strides ← permuted axes (v_strides v);
        Some (mk sh strides (v_offset v))
    | ExpandArg new_shape =>
        Some (mk new_shape
                (zip_with (fun old stride0 => if decide (old = SInt 1) then Some 0 else stride0)
                   (v_shape v) (v_strides v))
                (v_offset v))
    | _ => None
    end.

#[global] Instance view_algebra : ViewAlgebra := {|
    ShapeTracker := t;
    st_eqb := fun a b => bool_decide (a = b);
    st_shape := v_shape;
    st_contiguous := is_contiguous;
    st_size := size;
    st_real_strides := v_strides;
    st_simplify := fun v => v;
    from_shape := of_shape;
    st_movement := movement
  |}.

End SimpleView.

Definition float32 : DType := mkDType 4 4 "float" (Some "float32").

Definition empty_state : State := mkState [] [].

(** A backend that computes nothing: every result is a new object of
    the size and dtype asked for, whose identity is one more than the
    largest identity that a node of the arena holds. *)
Module TestBackend.

Record host := mk_host { h_shape : Shape; h_dtype : option string }.

Definition elements (sh : Shape) : Z := prod (default [] (ints sh)).

Definition object_id (o : option RawBuffer) : nat :=
    match o with Some (RawObject i _ _) => i | _ => 0%nat end.

Definition fresh (s : State) : nat :=
    S (foldr (fun b m => Nat.max (object_id (_realized b)) m) 0%nat (bufs s)).

Definition new_object (s : State) (size : Z) (dt : DType) : RawBuffer :=
    RawObject (fresh s) size dt.

#[global] Instance backend : Backend := {|
    ndarray := host;
    exec_ast := fun s _ _ out _ _ => Some (new_object s (elements (shape out)) (dtype out));
    buffer_fromCPU := fun s _ x _ => Some (new_object s (elements (h_shape x)) float32);
    buffer_new := fun s _ n dt _ => Some (new_object s n dt);
    is_Compiled := fun d => bool_decide (d = "GPU");
    raw_toCPU := fun rb => Some (mk_host [] (np (rb_dtype rb)));
    raw_fromCPU := fun s x => new_object s (elements (h_shape x)) float32;
    np_shape := h_shape;
    np_dtype := h_dtype;
    np_reshape := fun x sh => Some (mk_host sh (h_dtype x));
    np_random := fun _ sh dt => Some (mk_host sh (np dt));
    np_array := fun _ dt => Some (mk_host [] (np dt));
    from_np := fun o => match o with Some _ => Some float32 | None => None end;
    call_custom := fun _ s _ _ => Some (new_object s 0 float32)
  |}.

End TestBackend.

(** ** Example graphs *)

(** The state a construction leaves behind. *)
Definition state_after {A} (m : M A) (s : State) : State :=
  match m s with Ok _ s' => s' | Raise _ => s end.

(** One random buffer of four elements, at address 0. *)
Definition ex_one : State :=
  state_after (loadop LoadOps.RAND [SInt 4] float32 "CPU" (ArgNum (PyInt 0)) None) empty_state.

(** The buffer of [ex_one] and, at address 1, a view of it of shape (2, 2). *)
Definition ex_view : State :=
  state_after (reshape 0 [SInt 2; SInt 2]) ex_one.

(** The buffer of [ex_one] and, at address 1, its negation, which nothing
    consumes yet. *)
Definition ex_neg : State :=
  state_after (e 2 0 UnaryOps.NEG [] ArgNone) ex_one.

(** A random buffer of 1048576 elements, at address 0. *)
Definition ex_big : State :=
  state_after (loadop LoadOps.RAND [SInt 1048576] float32 "CPU" (ArgNum (PyInt 0)) None)
    empty_state.

(** An empty buffer with a zero dimension, at address 0. *)
Definition ex_zero : State :=
  state_after (loadop LoadOps.EMPTY [SInt 0] float32 "CPU" ArgNone None) empty_state.

(** [a] (0) random, [x = -a] (1), [y = x.sum()] (2). *)
Definition ex_reduce : State :=
  state_after (_reduce_op 1 ReduceOps.SUM [SInt 1]) ex_neg.

(** A diamond: [a] (0) random, [x = -a] (1), [y = x.sum()] (2),
    [y2 = x.max()] (3), [z = y + y2] (4). *)
Definition ex_diamond : State :=
  state_after (y2 <- _reduce_op 1 ReduceOps.MAX [SInt 1] ;;
               e 2 2 BinaryOps.ADD [y2] ArgNone) ex_reduce.

(** The buffer and the view of [ex_view] and, at address 2, the
    transposed view, which is not contiguous. *)
Definition ex_permuted : State :=
  state_after (permute 1 [1; 0]) ex_view.

(** [a] (0) random, [b] (1) a copy of [a] made by a [FROM] load,
    [z = b + a] (2). *)
Definition ex_from : State :=
  state_after (b <- loadop LoadOps.FROM [SInt 4] float32 "CPU" ArgNone (Some (inr 0%nat)) ;;
               e 2 b BinaryOps.ADD [0%nat] ArgNone) ex_one.

(** The graph of [ex_permuted] and, at address 3, the contiguous copy of
    the transposed view. *)
Definition ex_contiguous : State :=
  state_after (contiguous 2) ex_permuted.

(** One constant 3 on the compiled device, at address 0. *)
Definition ex_const_gpu : State :=
  state_after (loadop LoadOps.CONST [] float32 "GPU" (ArgNum (PyInt 3)) None) empty_state.

(** One random buffer on the second accelerator, at address 0. *)
Definition ex_gpu1 : State :=
  state_after (loadop LoadOps.RAND [SInt 4] float32 "GPU:1" (ArgNum (PyInt 0)) None)
    empty_state.

(** The graph of [ex_neg] with [a] (0) realized. *)
Definition ex_neg_realized : State :=
  state_after (realize 2 10 0) ex_neg.

(** * Properties *)

Section Theory.

Context {VA : ViewAlgebra}.
Variable OPT : Z.

(** ** Reasoning in the monad *)

Lemma bind_Ok {A B} (m : M A) (k : A -> M B) s b s2 :
  bind m k s = Ok b s2 <-> exists a s1, m s = Ok a s1 /\ k a s1 = Ok b s2.
Proof.
  unfold bind. destruct (m s) as [a s1|e]; split.
  - eauto.
  - intros (a' & s1' & Heq & Hk). by inversion Heq; subst.
  - discriminate.
  - intros (a' & s1' & Heq & _). discriminate.
Qed.

Lemma bind_ret_l {A B} (a : A) (k : A -> M B) s : bind (ret a) k s = k a s.
Proof. reflexivity. Qed.

Lemma get_Ok x s b s' : get x s = Ok b s' <-> bufs s !! x = Some b /\ s' = s.
Proof.
  unfold get. destruct (bufs s !! x); split; intros H.
  - by inversion H.
  - destruct H as [H ->]. by inversion H.
  - discriminate.
  - by destruct H.
Qed.

Lemma get_lookup x s b : bufs s !! x = Some b -> get x s = Ok b s.
Proof. intros H. by apply get_Ok. Qed.

Lemma py_assert_Ok c msg s u s' : py_assert c msg s = Ok u s' <-> c = true /\ s' = s.
Proof.
  unfold py_assert. destruct c; simpl; split; intros H.
  - by inversion H.
  - destruct H as [_ ->]. by destruct u.
  - discriminate.
  - by destruct H.
Qed.

Lemma external_Ok {A} (o : option A) s a s' :
  external o s = Ok a s' <-> o = Some a /\ s' = s.
Proof.
  unfold external. destruct o; simpl; split; intros H.
  - by inversion H.
  - destruct H as [H ->]. by inversion H.
  - discriminate.
  - by destruct H.
Qed.

(** Decompose a successful run along its binds. *)
Ltac inv_M :=
  repeat match goal with
  | H : bind _ _ _ = Ok _ _ |- _ =>
      apply bind_Ok in H; destruct H as (? & ? & ? & H)
  | H : get _ _ = Ok _ _ |- _ => apply get_Ok in H; destruct H as [H ->]
  | H : py_assert _ _ _ = Ok _ _ |- _ => apply py_assert_Ok in H; destruct H as [H ->]
  | H : external _ _ = Ok _ _ |- _ => apply external_Ok in H; destruct H as [H ->]
  | H : ret _ _ = Ok _ _ |- _ => unfold ret in H; inversion H; subst; clear H
  | H : raise _ _ = Ok _ _ |- _ => discriminate H
  | H : Raise _ = Ok _ _ |- _ => discriminate H
  | H : Ok _ _ = Ok _ _ |- _ => inversion H; subst; clear H
  end.

(** ** Movement operations *)

Lemma movement_same_view s t b a st' :
  bufs s !! t = Some b ->
  st_movement (st b) a = Some st' ->
  st_eqb (st b) st' = true ->
  movement t a s = Ok t s.
Proof.
  intros Hb Hmv Heq. unfold movement, _movement_op, bind.
  rewrite (get_lookup _ _ _ Hb), Hmv. simpl.
  by rewrite (get_lookup _ _ _ Hb), Heq.
Qed.

(** C6: a movement operation whose resulting view equals the current view
    of [t] returns [t] itself and leaves the arena untouched, for each of
    reshape, permute, expand, shrink, stride and pad; in particular
    [t.reshape(t.shape)] is [t] as soon as the view algebra answers a
    reshape to the current shape with an equal view. *)
Theorem movement_identity_short_circuit s t b :
  bufs s !! t = Some b ->
  (forall a st', st_movement (st b) (ReshapeArg a) = Some st' ->
     st_eqb (st b) st' = true -> reshape t a s = Ok t s) /\
  (forall a st', st_movement (st b) (PermuteArg a) = Some st' ->
     st_eqb (st b) st' = true -> permute t a s = Ok t s) /\
  (forall a st', st_movement (st b) (ExpandArg a) = Some st' ->
     st_eqb (st b) st' = true -> expand t a s = Ok t s) /\
  (forall a st', st_movement (st b) (ShrinkArg a) = Some st' ->
     st_eqb (st b) st' = true -> shrink t a s = Ok t s) /\
  (forall a st', st_movement (st b) (StrideArg a) = Some st' ->
     st_eqb (st b) st' = true -> stride t a s = Ok t s) /\
  (forall a st', st_movement (st b) (PadArg a) = Some st' ->
     st_eqb (st b) st' = true -> pad t a s = Ok t s) /\
  (forall st', st_movement (st b) (ReshapeArg (shape b)) = Some st' ->
     st_eqb (st b) st' = true -> reshape t (shape b) s = Ok t s).
Proof.
  intros Hb. repeat split; intros; eapply movement_same_view; eauto.
Qed.

(** ** How construction changes the arena *)

Lemma same_node_refl b : same_node b b.
Proof. by repeat split. Qed.

Lemma same_node_trans b1 b2 b3 : same_node b1 b2 -> same_node b2 b3 -> same_node b1 b3.
Proof. unfold same_node. intuition congruence. Qed.

Lemma grows_refl s : grows s s.
Proof.
  split; [done|]. split; [done|].
  intros i b Hb. exists b. auto using same_node_refl.
Qed.

Lemma grows_trans s1 s2 s3 : grows s1 s2 -> grows s2 s3 -> grows s1 s3.
Proof.
  intros (Hc1 & Hl1 & H1) (Hc2 & Hl2 & H2).
  split; [congruence|]. split; [lia|].
  - intros i b Hb. destruct (H1 i b Hb) as (b' & Hb' & Hs).
    destruct (H2 i b' Hb') as (b'' & Hb'' & Hs').
    exists b''. eauto using same_node_trans.
Qed.

Lemma base_attrs_Ok x s bb s' :
  base_attrs x s = Ok bb s' <->
  s' = s /\ exists b, bufs s !! x = Some b /\ bufs s !! base b = Some bb /\ base bb = base b.
Proof.
  unfold base_attrs. split.
  - intros H.
    apply bind_Ok in H as (b & s1 & Hg & H). apply get_Ok in Hg as [Hb ->].
    apply bind_Ok in H as (bb' & s2 & Hg & H). apply get_Ok in Hg as [Hbb ->].
    destruct (Nat.eqb (base bb') (base b)) eqn:E; [|discriminate].
    inversion H; subst. apply Nat.eqb_eq in E. eauto.
  - intros (-> & b & Hb & Hbb & Hbase).
    unfold bind. rewrite (get_lookup _ _ _ Hb), (get_lookup _ _ _ Hbb).
    by rewrite (proj2 (Nat.eqb_eq _ _) Hbase).
Qed.

Lemma realized_Ok x s rz s' :
  realized x s = Ok rz s' <->
  s' = s /\ exists b bb, bufs s !! x = Some b /\ bufs s !! base b = Some bb /\
                         base bb = base b /\ rz = _realized bb.
Proof.
  unfold realized. rewrite bind_Ok. split.
  - intros (bb & s1 & Hb & H). apply base_attrs_Ok in Hb as (-> & b & ? & ? & ?).
    inversion H; subst. eauto 10.
  - intros (-> & b & bb & ? & ? & ? & ->). exists bb, s. split; [|done].
    apply base_attrs_Ok. eauto.
Qed.

Lemma children_Ok x s ch s' :
  children x s = Ok ch s' <->
  s' = s /\ exists b bb, bufs s !! x = Some b /\ bufs s !! base b = Some bb /\
                         base bb = base b /\ ch = _children bb.
Proof.
  unfold children. rewrite bind_Ok. split.
  - intros (bb & s1 & Hb & H). apply base_attrs_Ok in Hb as (-> & b & ? & ? & ?).
    inversion H; subst. eauto 10.
  - intros (-> & b & bb & ? & ? & ? & ->). exists bb, s. split; [|done].
    apply base_attrs_Ok. eauto.
Qed.

Lemma lb_op_Ok x s o s' :
  lb_op x s = Ok o s' <->
  s' = s /\ exists b bb, bufs s !! x = Some b /\ bufs s !! base b = Some bb /\
                         base bb = base b /\ _op bb = Some o.
Proof.
  unfold lb_op. rewrite bind_Ok. split.
  - intros (bb & s1 & Hb & H). apply base_attrs_Ok in Hb as (-> & b & ? & ? & ?).
    destruct (_op bb) eqn:E; [|discriminate]. inversion H; subst. eauto 10.
  - intros (-> & b & bb & ? & ? & ? & Ho). exists bb, s. split.
    + apply base_attrs_Ok. eauto.
    + by rewrite Ho.
Qed.

Lemma is_contiguous_Ok x s c s' :
  is_contiguous x s = Ok c s' <->
  s' = s /\ exists b, bufs s !! x = Some b /\
    if st_contiguous (st b)
    then exists bb, bufs s !! base b = Some bb /\ c = (st_size (st bb) =? st_size (st b))
    else c = false.
Proof.
  unfold is_contiguous. rewrite bind_Ok. split.
  - intros (b & s1 & Hb & H). apply get_Ok in Hb as [Hb ->].
    destruct (st_contiguous (st b)) eqn:E.
    + apply bind_Ok in H as (bb & s2 & Hbb & H). apply get_Ok in Hbb as [Hbb ->].
      inversion H; subst. split; [done|]. exists b. rewrite E. eauto.
    + inversion H; subst. split; [done|]. exists b. by rewrite E.
  - intros (-> & b & Hb & H). exists b, s. split; [by apply get_lookup|].
    destruct (st_contiguous (st b)).
    + destruct H as (bb & Hbb & ->). unfold bind. by rewrite (get_lookup _ _ _ Hbb).
    + by subst.
Qed.

(** *** Allocation and consumer registration *)

Lemma children_add_Ok x self s u s' :
  children_add x self s = Ok u s' ->
  exists b bb, bufs s !! x = Some b /\ bufs s !! base b = Some bb /\ base bb = base b /\
    s' = mkState (<[base b :=
            mkLazyBuffer (st bb) (dtype bb) (device bb) (base bb) (_realized bb)
              (set_add self (_children bb)) (_op bb)]> (bufs s)) (calls s).
Proof.
  unfold children_add. intros H.
  apply bind_Ok in H as (b & s1 & Hg & H). apply get_Ok in Hg as [Hb ->].
  apply bind_Ok in H as (bb & s1 & Hg & H).
  apply base_attrs_Ok in Hg as (-> & b' & Hb' & Hbb & Hbase).
  assert (b' = b) as -> by (rewrite Hb in Hb'; by inversion Hb').
  unfold set_buf in H. inversion H; subst. eauto 10.
Qed.

Lemma children_add_grows x self s u s' :
  children_add x self s = Ok u s' ->
  grows s s' /\ length (bufs s') = length (bufs s).
Proof.
  intros H. apply children_add_Ok in H as (b & bb & Hb & Hbb & Hbase & ->).
  split; [|simpl; by rewrite length_insert].
  split; [done|]. split; [simpl; by rewrite length_insert|].
  intros i n Hn. simpl. destruct (decide (i = base b)) as [->|Hne].
  - rewrite list_lookup_insert_eq by (by eapply lookup_lt_Some).
    eexists. split; [done|]. assert (n = bb) as -> by (rewrite Hbb in Hn; by inversion Hn).
    by repeat split.
  - rewrite list_lookup_insert_ne by done. eauto using same_node_refl.
Qed.

Lemma for_each_children_add_grows self l s u s' :
  for_each l (fun x => children_add x self) s = Ok u s' ->
  grows s s' /\ length (bufs s') = length (bufs s).
Proof.
  revert s. induction l as [|x l IH]; intros s H; simpl in H.
  - inversion H; subst. auto using grows_refl.
  - apply bind_Ok in H as (? & s1 & H1 & H).
    apply children_add_grows in H1 as [Hg1 Hl1].
    apply IH in H as [Hg2 Hl2]. split; [eauto using grows_trans|congruence].
Qed.

Lemma alloc_Ok mk s r s' :
  alloc mk s = Ok r s' <->
  r = length (bufs s) /\ s' = mkState (bufs s ++ [mk (length (bufs s))]) (calls s).
Proof. unfold alloc. split; [intros H; by inversion H|intros [-> ->]; done]. Qed.

Lemma alloc_grows mk s :
  grows s (mkState (bufs s ++ [mk (length (bufs s))]) (calls s)).
Proof.
  split; [done|]. split; [simpl; rewrite length_app; lia|].
  intros i b Hb. exists b. split; [|apply same_node_refl].
  simpl. by apply lookup_app_l_Some.
Qed.

(** What the constructor returns and leaves behind. *)
Lemma LazyBuffer_init_Ok op0 st0 dt dev src0 base0 s r s' :
  LazyBuffer_init op0 st0 dt dev src0 base0 s = Ok r s' ->
  r = length (bufs s) /\
  length (bufs s') = S (length (bufs s)) /\
  grows s s' /\
  exists n, bufs s' !! r = Some n /\
    same_node (mkLazyBuffer st0 dt dev (default r base0)
                 (match base0 with None => src0 | Some _ => None end) []
                 (match base0 with None => op0 | Some _ => None end)) n.
Proof.
  unfold LazyBuffer_init. intros H. destruct base0 as [base1|].
  - apply bind_Ok in H as (bb & s1 & Hg & H). apply get_Ok in Hg as [Hbb ->].
    apply bind_Ok in H as (? & s1 & Ha & H). apply py_assert_Ok in Ha as [Hc ->].
    apply bind_Ok in H as (self & s1 & Ha & H). apply alloc_Ok in Ha as [-> ->].
    apply bind_Ok in H as (? & s2 & Hc2 & H). inversion H; subst. clear H.
    pose proof (alloc_grows (fun _ => mkLazyBuffer st0 dt dev base1 None [] None) s) as Hg0.
    apply children_add_grows in Hc2 as [Hg Hl]. simpl in Hl.
    rewrite length_app in Hl. simpl in Hl.
    split; [done|]. split; [lia|]. split; [eauto using grows_trans|].
    destruct Hg as (_ & _ & Hg). apply (Hg (length (bufs s))). simpl.
    by rewrite lookup_app_r, Nat.sub_diag.
  - apply bind_Ok in H as (self & s1 & Ha & H). apply alloc_Ok in Ha as [-> ->].
    apply bind_Ok in H as (? & s2 & Hc2 & H). inversion H; subst. clear H.
    pose proof (alloc_grows (fun self => mkLazyBuffer st0 dt dev self src0 [] op0) s) as Hg0.
    assert (grows (mkState (bufs s ++ [mkLazyBuffer st0 dt dev (length (bufs s)) src0 [] op0]) (calls s)) s'
            /\ length (bufs s') = length (bufs s ++ [mkLazyBuffer st0 dt dev (length (bufs s)) src0 [] op0]))
      as [Hg Hl].
    { destruct op0; [by eapply for_each_children_add_grows|].
      inversion Hc2; subst. auto using grows_refl. }
    rewrite length_app in Hl. simpl in Hl.
    split; [done|]. split; [lia|]. split; [eauto using grows_trans|].
    destruct Hg as (_ & _ & Hg). apply (Hg (length (bufs s))). simpl.
    by rewrite lookup_app_r, Nat.sub_diag.
Qed.

(** ** The materialized slot *)

(** C10: on a view (a node whose base is another node) assigning
    [realized] fails with the assertion error and writes nothing, while
    reading [realized] gives the slot of the base; on a base the
    assignment writes the slot of that very node. *)
Theorem realized_is_assigned_on_bases_only s self b val :
  bufs s !! self = Some b ->
  (base b <> self ->
     set_realized self val s = Raise (AssertionError "must be a base") /\
     forall bb, bufs s !! base b = Some bb -> base bb = base b ->
       realized self s = Ok (_realized bb) s) /\
  (base b = self ->
     set_realized self val s =
       Ok tt (mkState
                (<[self := mkLazyBuffer (st b) (dtype b) (device b) (base b) val
                             (_children b) (_op b)]> (bufs s))
                (calls s))).
Proof.
  intros Hb. split.
  - intros Hne. split.
    + unfold set_realized, bind. rewrite (get_lookup _ _ _ Hb).
      by rewrite (proj2 (Nat.eqb_neq _ _) Hne).
    + intros bb Hbb Hbase. apply realized_Ok. split; [done|]. eauto 10.
  - intros Heq. unfold set_realized, bind. rewrite (get_lookup _ _ _ Hb).
    by rewrite (proj2 (Nat.eqb_eq _ _) Heq).
Qed.

(** ** Elementwise construction *)

Lemma map_M_read_only {A B} (f : A -> M B) l :
  (forall x, read_only (f x)) -> read_only (map_M f l).
Proof.
  intros Hf. induction l as [|x l IH]; intros s ys s' H; simpl in H.
  - by inversion H.
  - apply bind_Ok in H as (y & s1 & Hy & H). apply Hf in Hy as ->.
    apply bind_Ok in H as (ys' & s2 & Hys & H). apply IH in Hys as ->.
    by inversion H.
Qed.

Lemma map_M_Forall2 {A B} (f : A -> M B) l s ys s' :
  (forall x, read_only (f x)) ->
  map_M f l s = Ok ys s' ->
  Forall2 (fun x y => f x s = Ok y s) l ys.
Proof.
  intros Hf. revert ys. induction l as [|x l IH]; intros ys H; simpl in H.
  - inversion H. constructor.
  - apply bind_Ok in H as (y & s1 & Hy & H). pose proof (Hf _ _ _ _ Hy) as ->.
    apply bind_Ok in H as (ys' & s2 & Hys & H).
    pose proof (map_M_read_only f l Hf _ _ _ Hys) as ->.
    inversion H; subst. constructor; auto.
Qed.

Lemma e_inlines_Ok x s c s' :
  e_inlines x s = Ok c s' -> s' = s /\ (c = true <-> inline_conditions s x).
Proof.
  unfold e_inlines. intros H.
  apply bind_Ok in H as (rz & s1 & Hrz & H).
  apply realized_Ok in Hrz as (-> & b & bb & Hb & Hbb & Hbase & ->).
  destruct (_realized bb) as [rb|] eqn:Erz; simpl in H.
  { inversion H; subst. split; [done|]. split; [done|].
    intros (b' & bb' & o & Hb' & Hbb' & Hrz' & _).
    rewrite Hb in Hb'. inversion Hb'; subst b'.
    rewrite Hbb in Hbb'. inversion Hbb'; subst bb'. congruence. }
  apply bind_Ok in H as (c1 & s1 & Hc & H).
  apply is_contiguous_Ok in Hc as (-> & b' & Hb' & Hc).
  rewrite Hb in Hb'. inversion Hb'; subst b'. clear Hb'.
  assert (Hcont : c1 = true <->
            st_contiguous (st b) = true /\ st_size (st bb) = st_size (st b)).
  { destruct (st_contiguous (st b)).
    - destruct Hc as (bb' & Hbb' & ->). rewrite Hbb in Hbb'. inversion Hbb'; subst bb'.
      rewrite Z.eqb_eq. tauto.
    - subst. split; [done|]. by intros [? _]. }
  destruct c1; simpl in H.
  2:{ inversion H; subst. split; [done|]. split; [done|].
      intros (b' & bb' & o & Hb' & Hbb' & _ & Hcc & _).
      rewrite Hb in Hb'. inversion Hb'; subst b'.
      rewrite Hbb in Hbb'. inversion Hbb'; subst bb'.
      apply Hcont in Hcc. discriminate. }
  apply bind_Ok in H as (o & s1 & Ho & H).
  apply lb_op_Ok in Ho as (-> & b' & bb' & Hb' & Hbb' & _ & Ho).
  rewrite Hb in Hb'. inversion Hb'; subst b'.
  rewrite Hbb in Hbb'. inversion Hbb'; subst bb'. clear Hb' Hbb'.
  destruct (in_ElementwiseOps (op o)) eqn:Eel; simpl in H.
  2:{ inversion H; subst. split; [done|]. split; [done|].
      intros (b' & bb' & o' & Hb' & Hbb' & _ & _ & [Ho' Hel] & _).
      rewrite Hb in Hb'. inversion Hb'; subst b'.
      rewrite Hbb in Hbb'. inversion Hbb'; subst bb'.
      rewrite Ho in Ho'. inversion Ho'; subst o'. congruence. }
  apply bind_Ok in H as (ch & s1 & Hch & H).
  apply children_Ok in Hch as (-> & b' & bb' & Hb' & Hbb' & _ & ->).
  rewrite Hb in Hb'. inversion Hb'; subst b'.
  rewrite Hbb in Hbb'. inversion Hbb'; subst bb'. clear Hb' Hbb'.
  inversion H; subst. split; [done|]. split.
  - intros Hemp. exists b, bb, o. repeat split; auto; try tauto.
    by destruct (_children bb).
  - intros (b' & bb' & o' & Hb' & Hbb' & _ & _ & _ & Hch).
    rewrite Hb in Hb'. inversion Hb'; subst b'.
    rewrite Hbb in Hbb'. inversion Hbb'; subst bb'. by rewrite Hch.
Qed.

Lemma Forall2_map_diag {A B} (P : A -> B -> Prop) (f : A -> B) l :
  (forall x, P x (f x)) -> Forall2 P l (map f l).
Proof. intros HP. induction l; constructor; auto. Qed.

Lemma get_base_read_only x : read_only (b <- get x ;; ret (base b)).
Proof.
  intros s a s' H. apply bind_Ok in H as (b & s1 & Hb & H).
  apply get_Ok in Hb as [_ ->]. by inversion H.
Qed.

Lemma get_dtype_read_only x : read_only (bx <- get x ;; ret (dtype bx)).
Proof.
  intros s a s' H. apply bind_Ok in H as (b & s1 & Hb & H).
  apply get_Ok in Hb as [_ ->]. by inversion H.
Qed.

Lemma e_source_read_only x :
  read_only (c <- e_inlines x ;;
             if c then o <- lb_op x ;; ret (inl o : Src) else ret (inr x : Src)).
Proof.
  intros s a s' H. apply bind_Ok in H as (c & s1 & Hc & H).
  apply e_inlines_Ok in Hc as [-> _]. destruct c.
  - apply bind_Ok in H as (o & s1 & Ho & H). apply lb_op_Ok in Ho as [-> _].
    by inversion H.
  - by inversion H.
Qed.

(** C9 (as amended): when elementwise merging is on ([OPT >= 1], the
    default) the node built by [e] has one source per argument
    ([self] first), and an argument is replaced by the operation tree of
    its base exactly when it is (a) not materialized, (b) contiguous
    relative to its base, (c) the result of an elementwise operation and
    (d) without consumer; every other argument is kept as a buffer leaf.
    With [OPT < 1] every argument is kept as a buffer leaf. *)
Theorem e_inlines_exactly_the_eligible_sources s self op0 srcs arg0 r s' :
  e OPT self op0 srcs arg0 s = Ok r s' ->
  exists n srcs',
    bufs s' !! r = Some n /\
    _op n = Some (mkLazyOp op0 srcs' arg0) /\
    Forall2 (fun x (y : Src) =>
               (1 <= OPT -> inline_conditions s x ->
                  exists o, op_of s x = Some o /\ y = inl o) /\
               (1 <= OPT -> ~ inline_conditions s x -> y = inr x) /\
               (OPT < 1 -> y = inr x))
      (self :: srcs) srcs'.
Proof.
  unfold e. intros H.
  apply bind_Ok in H as (b & s1 & Hb & H). apply get_Ok in Hb as [Hb ->].
  apply bind_Ok in H as (dts & s1 & Hd & H).
  apply (map_M_read_only _ _ get_dtype_read_only) in Hd as ->.
  apply bind_Ok in H as (out_dtype & s1 & Ho & H).
  assert (s1 = s) as ->.
  { destruct (decide (op0 = UnaryOps.CAST)).
    - destruct arg0; try discriminate. by inversion Ho.
    - by inversion Ho. }
  apply bind_Ok in H as (srcs' & s1 & Hs & H).
  assert (s1 = s /\
          Forall2 (fun x (y : Src) =>
               (1 <= OPT -> inline_conditions s x ->
                  exists o, op_of s x = Some o /\ y = inl o) /\
               (1 <= OPT -> ~ inline_conditions s x -> y = inr x) /\
               (OPT < 1 -> y = inr x))
            (self :: srcs) srcs') as [-> HF].
  { unfold MERGE_ELEMENTWISE_OPS in Hs. destruct (1 <=? OPT) eqn:EOPT.
    - apply Z.leb_le in EOPT.
      pose proof (map_M_read_only _ _ e_source_read_only _ _ _ Hs) as ->.
      split; [done|].
      apply (map_M_Forall2 _ _ _ _ _ e_source_read_only) in Hs.
      eapply Forall2_impl; [exact Hs|]. intros x y Hxy. simpl in Hxy.
      apply bind_Ok in Hxy as (c & s1 & Hc & Hxy).
      apply e_inlines_Ok in Hc as [-> Hc]. destruct c.
      + apply bind_Ok in Hxy as (o & s1 & Hop & Hxy).
        apply lb_op_Ok in Hop as (-> & bx & bbx & Hbx & Hbbx & _ & Hop).
        inversion Hxy; subst. split; [|split].
        * intros _ _. exists o. split; [|done]. unfold op_of. by rewrite Hbx, Hbbx.
        * intros _ Hn. destruct Hn. by apply Hc.
        * lia.
      + inversion Hxy; subst. split; [|split].
        * intros _ Hi. apply Hc in Hi. discriminate.
        * done.
        * done.
    - apply Z.leb_gt in EOPT. unfold ret in Hs. injection Hs as <- <-.
      split; [done|].
      constructor; [|apply Forall2_map_diag; intros x];
        (split; [|split]; intros; solve [lia | done]). }
  apply LazyBuffer_init_Ok in H as (-> & _ & _ & n & Hn & Hsame).
  exists n, srcs'. split; [done|]. split; [|done].
  destruct Hsame as (_ & _ & _ & _ & _ & Hop). simpl in Hop. by rewrite <- Hop.
Qed.

(** ** Reduce operations *)

Lemma py_max_elem {A} (gtb : A -> A -> bool) x l : py_max gtb x l ∈ x :: l.
Proof.
  unfold py_max. revert x. induction l as [|y l IH]; intros x; simpl.
  - apply list_elem_of_here.
  - destruct (gtb y x).
    + apply list_elem_of_further, IH.
    + specialize (IH x). apply elem_of_cons in IH as [->|IH].
      * apply list_elem_of_here.
      * by do 2 apply list_elem_of_further.
Qed.

Lemma candidates_elem k sh new_sh strides h d i :
  (h, d, i) ∈ candidates k sh new_sh strides ->
  (k <= i)%nat /\
  exists old new stride0,
    sh !! (i - k)%nat = Some old /\ new_sh !! (i - k)%nat = Some new /\
    strides !! (i - k)%nat = Some stride0 /\
    old <> new /\ d = Z.gcd 256 old /\ h = heuristic_of d stride0.
Proof.
  revert k new_sh strides.
  induction sh as [|old sh IH]; intros k new_sh strides H; simpl in H.
  { by apply elem_of_nil in H. }
  destruct new_sh as [|new new_sh]; [by apply elem_of_nil in H|].
  destruct strides as [|stride0 strides]; [by apply elem_of_nil in H|].
  assert (Hrest : (h, d, i) ∈ candidates (S k) sh new_sh strides ->
            (k <= i)%nat /\
            exists old' new' stride',
              (old :: sh) !! (i - k)%nat = Some old' /\
              (new :: new_sh) !! (i - k)%nat = Some new' /\
              (stride0 :: strides) !! (i - k)%nat = Some stride' /\
              old' <> new' /\ d = Z.gcd 256 old' /\ h = heuristic_of d stride').
  { intros Hin. apply IH in Hin as (Hle & old' & new' & stride' & ? & ? & ? & ?).
    split; [lia|]. exists old', new', stride'.
    replace (i - k)%nat with (S (i - S k)) by lia. simpl. auto. }
  destruct (old =? new) eqn:E; [by apply Hrest|].
  apply elem_of_cons in H as [Heq|H]; [|by apply Hrest].
  inversion Heq; subst. split; [lia|]. exists old, new, stride0.
  rewrite Nat.sub_diag. simpl. apply Z.eqb_neq in E. auto 10.
Qed.

(** What a split plan tells: the quotient is defined and large, the
    chosen dimension changes, its divisor is [gcd(256, size)], at least
    16, and its score at least 0.1. *)
Lemma reduce_plan_Split sh new_sh strides divisor dim :
  reduce_plan sh new_sh strides = inr (Split divisor dim) ->
  prod new_sh <> 0 /\ 32768 <= prod sh / prod new_sh /\
  exists old new stride0,
    sh !! dim = Some old /\ new_sh !! dim = Some new /\ strides !! dim = Some stride0 /\
    old <> new /\ divisor = Z.gcd 256 old /\ 16 <= divisor /\
    (1 # 10 <= heuristic_of divisor stride0)%Q /\
    (heuristic_of divisor stride0, divisor, dim) ∈ candidates 0 sh new_sh strides.
Proof.
  unfold reduce_plan. intros H.
  destruct (prod new_sh =? 0) eqn:E0; [discriminate|]. apply Z.eqb_neq in E0.
  destruct (prod sh / prod new_sh <? 32768) eqn:E1; [discriminate|].
  apply Z.ltb_ge in E1.
  destruct (candidates 0 sh new_sh strides) as [|c cs] eqn:Ec; [discriminate|].
  pose proof (py_max_elem cand_gtb c cs) as Hin.
  destruct (py_max cand_gtb c cs) as [[h d] i].
  destruct ((d <? 16) || Qltb h (1 # 10)) eqn:E2; [discriminate|].
  inversion H; subst. clear H.
  apply orb_false_iff in E2 as [Ed Eh]. apply Z.ltb_ge in Ed.
  unfold Qltb in Eh. apply negb_false_iff, Qle_bool_iff in Eh.
  rewrite <- Ec in Hin.
  pose proof (candidates_elem _ _ _ _ _ _ _ Hin) as (_ & old & new & stride0 & H).
  rewrite Nat.sub_0_r in H. destruct H as (? & ? & ? & ? & ? & ->).
  split; [done|]. split; [done|]. exists old, new, stride0.
  split_and!; try done. by rewrite <- Ec.
Qed.

Lemma prod_fold l a : fold_left Z.mul l a = a * prod l.
Proof.
  unfold prod. revert a. induction l as [|x l IH]; intros a; simpl.
  - lia.
  - rewrite IH, (IH (1 * x)). lia.
Qed.

Lemma prod_cons x l : prod (x :: l) = x * prod l.
Proof. unfold prod at 1. simpl. rewrite prod_fold. lia. Qed.

Lemma prod_app l1 l2 : prod (l1 ++ l2) = prod l1 * prod l2.
Proof.
  induction l1 as [|x l1 IH]; simpl.
  - unfold prod at 2. simpl. lia.
  - rewrite !prod_cons, IH. lia.
Qed.

Lemma ints_map_SInt l : ints (map SInt l) = Some l.
Proof. induction l as [|x l IH]; simpl; [done|]. by rewrite IH. Qed.

Lemma ints_Some sh l : ints sh = Some l -> sh = map SInt l.
Proof.
  revert l. induction sh as [|d sh IH]; intros l H; simpl in H.
  - by inversion H.
  - destruct d; [|discriminate]. destruct (ints sh) as [l'|]; [|discriminate].
    inversion H; subst. simpl. by rewrite (IH l').
Qed.

Lemma ints_length sh l : ints sh = Some l -> length l = length sh.
Proof. intros H. apply ints_Some in H as ->. by rewrite length_map. Qed.

(** The split shapes: dimension [dim] of size [q * divisor] becomes the
    pair [(q, divisor)], then [(q, 1)], then [q]. *)
Lemma splitted_shape_spec sh divisor dim old rest :
  sh !! dim = Some old -> 0 < divisor -> (divisor | old) ->
  splitted_shape sh divisor dim rest =
    map SInt (take dim sh ++ [old / divisor] ++ rest ++ drop (S dim) sh) /\
  length (splitted_shape sh divisor dim rest) = (length sh + length rest)%nat /\
  prod (take dim sh ++ [old / divisor] ++ rest ++ drop (S dim) sh) * divisor =
    prod sh * prod rest.
Proof.
  intros Hd Hpos Hdiv. unfold splitted_shape.
  rewrite (nth_lookup_Some _ _ _ _ Hd). split; [done|]. split.
  - rewrite length_map, !length_app, length_take, length_drop. simpl.
    apply lookup_lt_Some in Hd. rewrite Nat.min_l by lia. lia.
  - rewrite <- (take_drop_middle _ _ _ Hd) at 3.
    simpl. rewrite !prod_app, !prod_cons, !prod_app.
    destruct Hdiv as [q ->]. rewrite Z.div_mul by lia. ring.
Qed.

Lemma reshape_new_view s x b a v s' :
  ViewLaws ->
  bufs s !! x = Some b -> shape b <> a ->
  reshape x a s = Ok v s' ->
  v = length (bufs s) /\ length (bufs s') = S (length (bufs s)) /\ grows s s' /\
  exists n, bufs s' !! v = Some n /\ shape n = a /\ base n = base b /\
            dtype n = dtype b /\ device n = device b.
Proof.
  intros HL Hb Hne H. unfold reshape, movement in H.
  apply bind_Ok in H as (b' & s1 & Hg & H). apply get_Ok in Hg as [Hb' ->].
  rewrite Hb in Hb'. inversion Hb'; subst b'. clear Hb'.
  apply bind_Ok in H as (st0 & s1 & He & H). apply external_Ok in He as [Hmv ->].
  unfold _movement_op in H.
  apply bind_Ok in H as (b' & s1 & Hg & H). apply get_Ok in Hg as [Hb' ->].
  rewrite Hb in Hb'. inversion Hb'; subst b'. clear Hb'.
  pose proof (st_shape_reshape HL _ _ _ Hmv) as Hsh.
  destruct (st_eqb (st b) st0) eqn:E.
  { apply (st_eqb_eq HL) in E. destruct Hne. unfold shape. by rewrite E. }
  apply LazyBuffer_init_Ok in H as (-> & Hlen & Hg & n & Hn & Hsame).
  split; [done|]. split; [done|]. split; [done|]. exists n. split; [done|].
  destruct Hsame as (Hst & Hdt & Hdev & Hbase & _). simpl in *.
  unfold shape. rewrite <- Hst. auto.
Qed.

Lemma _reduce_op_new s x b op0 a r0 s' :
  bufs s !! x = Some b -> shape b <> a ->
  _reduce_op x op0 a s = Ok r0 s' ->
  r0 = length (bufs s) /\ length (bufs s') = S (length (bufs s)) /\ grows s s' /\
  exists n, bufs s' !! r0 = Some n /\ st n = from_shape a /\ base n = r0 /\
            _op n = Some (mkLazyOp op0 [inr x] (ArgShape a)) /\ _realized n = None.
Proof.
  intros Hb Hne H. unfold _reduce_op in H.
  apply bind_Ok in H as (b' & s1 & Hg & H). apply get_Ok in Hg as [Hb' ->].
  rewrite Hb in Hb'. inversion Hb'; subst b'. clear Hb'.
  destruct (decide (shape b = a)) as [?|_]; [done|].
  apply LazyBuffer_init_Ok in H as (-> & Hlen & Hg & n & Hn & Hsame).
  split; [done|]. split; [done|]. split; [done|]. exists n. split; [done|].
  destruct Hsame as (Hst & _ & _ & Hbase & Hrz & Hop). simpl in *. auto.
Qed.

Lemma grows_lookup s s' i b :
  grows s s' -> bufs s !! i = Some b ->
  exists b', bufs s' !! i = Some b' /\ same_node b b'.
Proof. intros (_ & _ & H). apply H. Qed.

Lemma gcd_256_le x : Z.gcd 256 x <= 256.
Proof. apply Z.divide_pos_le; [lia|apply Z.gcd_divide_l]. Qed.

(** C3 (as amended): on the split path the chosen dimension, of size
    [q * divisor], is split into the pair [(q, divisor)] (quotient outside,
    divisor inside); [r] is the reshape to that shape, a first reduce that
    collapses only the inner axis of size [divisor], the reshape that
    drops the resulting singleton, and a second reduce to [new_shape].
    When [r] returns, these are four new nodes: a view of the input's
    base, the first reduce over it, a view of the first reduce, and the
    second reduce over that view, which is the result. *)
Theorem r_split_path s self b sh new_sh op0 new_shape divisor dim :
  ViewLaws ->
  bufs s !! self = Some b ->
  ints (shape b) = Some sh -> ints new_shape = Some new_sh ->
  reduce_plan sh new_sh (st_real_strides (st b)) = inr (Split divisor dim) ->
  exists q pre post,
    sh = pre ++ [q * divisor] ++ post /\ length pre = dim /\
    let S1 := map SInt (pre ++ [q; divisor] ++ post) in
    let S2 := map SInt (pre ++ [q; 1] ++ post) in
    let S3 := map SInt (pre ++ [q] ++ post) in
    r self op0 new_shape s =
      (v1 <- reshape self S1 ;; r1 <- _reduce_op v1 op0 S2 ;;
       v2 <- reshape r1 S3 ;; _reduce_op v2 op0 new_shape) s /\
    forall res s', r self op0 new_shape s = Ok res s' ->
      let L := length (bufs s) in
      res = (L + 3)%nat /\ length (bufs s') = (L + 4)%nat /\ grows s s' /\
      exists n1 n2 n3 n4,
        bufs s' !! L = Some n1 /\ bufs s' !! (L + 1)%nat = Some n2 /\
        bufs s' !! (L + 2)%nat = Some n3 /\ bufs s' !! (L + 3)%nat = Some n4 /\
        (base n1 = base b /\ shape n1 = S1) /\
        (base n2 = (L + 1)%nat /\ shape n2 = S2 /\
         _op n2 = Some (mkLazyOp op0 [inr L] (ArgShape S2))) /\
        (base n3 = (L + 1)%nat /\ shape n3 = S3) /\
        (base n4 = (L + 3)%nat /\ shape n4 = new_shape /\
         _op n4 = Some (mkLazyOp op0 [inr (L + 2)%nat] (ArgShape new_shape))).
Proof.
  intros HL Hb Hsh Hnew Hplan.
  pose proof (reduce_plan_Split _ _ _ _ _ Hplan)
    as (Hnz & Hratio & old & new & stride0 & Hold & _ & _ & _ & Hdiv & H16 & _).
  assert (Hdvd : (divisor | old)) by (subst divisor; apply Z.gcd_divide_r).
  destruct Hdvd as [q Hq].
  pose proof (take_drop_middle _ _ _ Hold) as Hdecomp.
  set (pre := take dim sh) in *. set (post := drop (S dim) sh) in *.
  assert (Hpre : length pre = dim).
  { unfold pre. rewrite length_take. apply lookup_lt_Some in Hold.
    rewrite Nat.min_l by lia. done. }
  assert (Hsplit : forall rest, splitted_shape sh divisor dim rest
                     = map SInt (pre ++ [q] ++ rest ++ post)).
  { intros rest. unfold splitted_shape. rewrite (nth_lookup_Some _ _ _ _ Hold).
    rewrite Hq, Z.div_mul by lia. done. }
  exists q, pre, post. split; [by rewrite <- Hq|]. split; [done|].
  assert (Hr : r self op0 new_shape s =
      (v1 <- reshape self (map SInt (pre ++ [q; divisor] ++ post)) ;;
       r1 <- _reduce_op v1 op0 (map SInt (pre ++ [q; 1] ++ post)) ;;
       v2 <- reshape r1 (map SInt (pre ++ [q] ++ post)) ;;
       _reduce_op v2 op0 new_shape) s).
  { unfold r, bind at 1. rewrite (get_lookup _ _ _ Hb), Hsh, Hnew, Hplan.
    unfold r_split. by rewrite !Hsplit. }
  simpl. split; [exact Hr|]. intros res s' Hres. rewrite Hr in Hres. clear Hr.
  pose proof (ints_Some _ _ Hsh) as Hshape.
  apply bind_Ok in Hres as (v1 & s1 & H1 & Hres).
  eapply reshape_new_view in H1 as (-> & Hl1 & Hg1 & n1 & Hn1 & Hs1 & Hb1 & _); [|done|done|].
  2:{ rewrite Hshape. intros Heq. apply (f_equal length) in Heq.
      rewrite !length_map, <- Hdecomp, !length_app in Heq. simpl in Heq. lia. }
  apply bind_Ok in Hres as (r1 & s2 & H2 & Hres).
  eapply _reduce_op_new in H2 as (-> & Hl2 & Hg2 & n2 & Hn2 & Hst2 & Hb2 & Hop2 & _); [|done|].
  2:{ rewrite Hs1. intros Heq. apply (f_equal ints) in Heq.
      rewrite !ints_map_SInt in Heq. injection Heq as Heq.
      apply app_inv_head in Heq. inversion Heq. lia. }
  apply bind_Ok in Hres as (v2 & s3 & H3 & Hres).
  eapply reshape_new_view in H3 as (-> & Hl3 & Hg3 & n3 & Hn3 & Hs3 & Hb3 & _); [|done|done|].
  2:{ unfold shape. rewrite Hst2, (st_shape_from_shape HL). intros Heq.
      apply (f_equal length) in Heq. rewrite !length_map, !length_app in Heq.
      simpl in Heq. lia. }
  eapply _reduce_op_new in Hres as (-> & Hl4 & Hg4 & n4 & Hn4 & Hst4 & Hb4 & Hop4 & _); [|done|].
  2:{ rewrite Hs3. intros Heq. rewrite <- Heq, ints_map_SInt in Hnew.
      inversion Hnew; subst new_sh. clear Hnew.
      assert (Hp : prod sh = prod (pre ++ [q] ++ post) * divisor).
      { rewrite <- Hdecomp, Hq. simpl. rewrite !prod_app, !prod_cons. ring. }
      rewrite Hp, Z.mul_comm, Z.div_mul in Hratio by done.
      pose proof (gcd_256_le old). lia. }
  rewrite Hl1 in *. rewrite Hl2 in *. rewrite Hl3 in *.
  replace (S (length (bufs s))) with (length (bufs s) + 1)%nat in * by lia.
  replace (S (length (bufs s) + 1)) with (length (bufs s) + 2)%nat in * by lia.
  replace (S (length (bufs s) + 2)) with (length (bufs s) + 3)%nat in * by lia.
  split; [done|]. split; [lia|].
  split; [eauto using grows_trans|].
  pose proof (grows_trans _ _ _ Hg3 Hg4) as Hg34.
  pose proof (grows_trans _ _ _ Hg2 Hg34) as Hg24.
  destruct (grows_lookup _ _ _ _ Hg24 Hn1) as (n1' & Hn1' & Hsame1).
  destruct (grows_lookup _ _ _ _ Hg34 Hn2) as (n2' & Hn2' & Hsame2).
  destruct (grows_lookup _ _ _ _ Hg4 Hn3) as (n3' & Hn3' & Hsame3).
  exists n1', n2', n3', n4.
  destruct Hsame1 as (Hst1' & _ & _ & Hbase1' & _).
  destruct Hsame2 as (Hst2' & _ & _ & Hbase2' & _ & Hop2').
  destruct Hsame3 as (Hst3' & _ & _ & Hbase3' & _).
  unfold shape in *.
  split_and!; try done.
  - by rewrite <- Hbase1'.
  - by rewrite <- Hst1'.
  - by rewrite <- Hbase2'.
  - by rewrite <- Hst2', Hst2, (st_shape_from_shape HL).
  - by rewrite <- Hop2'.
  - by rewrite <- Hbase3', Hb3.
  - by rewrite <- Hst3'.
  - by rewrite Hst4, (st_shape_from_shape HL).
Qed.

(** ** Buffer-slot resolution *)

Lemma dict_get_set_eq {V} k (v : V) d : dict_get k (dict_set k v d) = Some v.
Proof.
  induction d as [|[k' v'] d IH]; simpl.
  - by rewrite Nat.eqb_refl.
  - destruct (Nat.eqb k k') eqn:E; simpl; [by rewrite Nat.eqb_refl|by rewrite E].
Qed.

Lemma dict_get_set_ne {V} k k' (v : V) d :
  k <> k' -> dict_get k' (dict_set k v d) = dict_get k' d.
Proof.
  intros Hne. induction d as [|[k0 v0] d IH]; simpl.
  - by rewrite (proj2 (Nat.eqb_neq k' k)).
  - destruct (Nat.eqb k k0) eqn:E; simpl.
    + apply Nat.eqb_eq in E as <-. by rewrite !(proj2 (Nat.eqb_neq k' k)).
    + by rewrite IH.
Qed.

Lemma dedup_acc {A} `{EqDecision A} (l acc : list A) :
  NoDup acc ->
  let res := fold_left (fun acc x => if decide (x ∈ acc) then acc else acc ++ [x]) l acc in
  NoDup res /\ forall x, x ∈ res <-> x ∈ acc \/ x ∈ l.
Proof.
  revert acc. induction l as [|y l IH]; intros acc Hnd; simpl.
  - split; [done|]. intros x. rewrite elem_of_nil. tauto.
  - destruct (decide (y ∈ acc)) as [Hin|Hnin].
    + destruct (IH acc Hnd) as [Hnd' Hel]. split; [done|].
      intros x. rewrite Hel, elem_of_cons. split; [tauto|].
      intros [?|[->|?]]; auto.
    + assert (Hnd1 : NoDup (acc ++ [y])).
      { apply NoDup_app. split; [done|]. split; [|apply NoDup_singleton].
        intros x Hx Hy. apply list_elem_of_singleton in Hy as ->. done. }
      destruct (IH _ Hnd1) as [Hnd' Hel]. split; [done|].
      intros x. rewrite Hel, elem_of_app, list_elem_of_singleton, elem_of_cons. tauto.
Qed.

Lemma dedup_NoDup {A} `{EqDecision A} (l : list A) : NoDup (dedup l).
Proof. apply (dedup_acc l []). constructor. Qed.

Lemma elem_of_dedup {A} `{EqDecision A} (l : list A) x : x ∈ dedup l <-> x ∈ l.
Proof.
  destruct (dedup_acc l [] (NoDup_nil_2)) as [_ H]. unfold dedup. rewrite H.
  rewrite elem_of_nil. tauto.
Qed.

Lemma index_lookup {A} `{EqDecision A} (x : A) l :
  x ∈ l -> 0 <= index x l /\ l !! Z.to_nat (index x l) = Some x.
Proof.
  induction l as [|y l IH]; intros Hin; [by apply elem_of_nil in Hin|].
  simpl. destruct (decide (x = y)) as [->|Hne]; [done|].
  apply elem_of_cons in Hin as [?|Hin]; [done|].
  destruct (IH Hin) as [H0 Hl]. split; [lia|].
  replace (Z.to_nat (1 + index x l)) with (S (Z.to_nat (index x l))) by lia. done.
Qed.

Lemma filter_M_spec {A} (f : A -> M bool) l s ys s' :
  (forall x, read_only (f x)) ->
  filter_M f l s = Ok ys s' ->
  s' = s /\ forall x, x ∈ ys <-> x ∈ l /\ f x s = Ok true s.
Proof.
  intros Hf. revert ys s'. induction l as [|y l IH]; intros ys s' H; simpl in H.
  - inversion H; subst. split; [done|]. intros x. rewrite elem_of_nil. tauto.
  - apply bind_Ok in H as (c & s1 & Hc & H). pose proof (Hf _ _ _ _ Hc) as ->.
    apply bind_Ok in H as (ys' & s1 & Hys & H). apply IH in Hys as [-> Hel].
    inversion H; subst. split; [done|]. intros x. destruct c.
    + rewrite !elem_of_cons, Hel. split.
      * intros [->|?]; tauto.
      * intros [[->|?] ?]; tauto.
    + rewrite elem_of_cons, Hel. split; [tauto|].
      intros [[->|?] Hx]; [|tauto]. rewrite Hc in Hx. discriminate.
Qed.

Lemma base_is_const_Ok x s c s' :
  base_is_const x s = Ok c s' <->
  s' = s /\ exists b o, bufs s !! x = Some b /\ lb_op (base b) s = Ok o s /\
                        c = bool_decide (op o = LoadOps.CONST).
Proof.
  unfold base_is_const. split.
  - intros H. apply bind_Ok in H as (b & s1 & Hb & H). apply get_Ok in Hb as [Hb ->].
    apply bind_Ok in H as (o & s1 & Ho & H). pose proof Ho as Ho'.
    apply lb_op_Ok in Ho' as [-> _]. inversion H; subst. eauto 10.
  - intros (-> & b & o & Hb & Ho & ->). unfold bind.
    by rewrite (get_lookup _ _ _ Hb), Ho.
Qed.

Lemma lb_op_read_only x : read_only (lb_op x).
Proof. intros s o s' H. by apply lb_op_Ok in H as [-> _]. Qed.

Lemma float_of_arg_Ok a s x s' :
  float_of_arg a s = Ok x s' <-> s' = s /\ exists v, a = ArgNum v /\ py_float v = inr x.
Proof.
  unfold float_of_arg. split.
  - intros H. destruct a as [| |v| | | |]; try discriminate H.
    destruct (py_float v) as [exn|y] eqn:E; [discriminate H|].
    unfold ret in H. injection H as <- <-. eauto.
  - intros (-> & v & -> & Hv). by rewrite Hv.
Qed.

(** What the loop body gives for one leaf. *)
Lemma bufferop_of_Ok base_bufs x s o' s' :
  bufferop_of base_bufs x s = Ok o' s' ->
  s' = s /\
  exists b o, bufs s !! x = Some b /\ lb_op (base b) s = Ok o s /\
    ((op o = LoadOps.CONST /\
      exists v y, arg o = ArgNum v /\ py_float v = inr y /\ o' = const_descriptor y b)
     \/ (op o <> LoadOps.CONST /\ base b ∈ base_bufs /\
         o' = mem_descriptor (index (base b) base_bufs + 1) b)).
Proof.
  unfold bufferop_of. intros H.
  apply bind_Ok in H as (b & s1 & Hb & H). apply get_Ok in Hb as [Hb ->].
  apply bind_Ok in H as (c & s1 & Hc & H).
  apply base_is_const_Ok in Hc as (-> & b' & o & Hb' & Ho & ->).
  rewrite Hb in Hb'. inversion Hb'; subst b'. clear Hb'.
  destruct (bool_decide (op o = LoadOps.CONST)) eqn:E.
  - apply bool_decide_eq_true in E.
    apply bind_Ok in H as (o1 & s1 & Ho1 & H). rewrite Ho in Ho1.
    inversion Ho1; subst. clear Ho1.
    apply bind_Ok in H as (y & s2 & Hv & H).
    apply float_of_arg_Ok in Hv as (-> & v & Ea & Hv).
    inversion H; subst. split; [done|]. exists b, o1. eauto 10.
  - apply bool_decide_eq_false in E.
    destruct (bool_decide (base b ∈ base_bufs)) eqn:Ein; [|discriminate].
    apply bool_decide_eq_true in Ein. inversion H; subst.
    split; [done|]. exists b, o. eauto 10.
Qed.

Lemma bufferop_of_read_only base_bufs x : read_only (bufferop_of base_bufs x).
Proof. intros s o s' H. by apply bufferop_of_Ok in H as [-> _]. Qed.

(** The dictionary after the loop: every leaf has the value the loop body
    computes for it. *)
Lemma fold_replacements base_bufs l d s d' s' :
  fold_M (fun d x => o <- bufferop_of base_bufs x ;; ret (dict_set x (inl o : Src) d))
    l d s = Ok d' s' ->
  s' = s /\
  (forall x, x ∈ l -> exists o, bufferop_of base_bufs x s = Ok o s /\
                               dict_get x d' = Some (inl o)) /\
  (forall x, x ∉ l -> dict_get x d' = dict_get x d).
Proof.
  revert d. induction l as [|y l IH]; intros d H; simpl in H.
  - inversion H; subst. split; [done|]. split; [|done].
    intros x Hx. by apply elem_of_nil in Hx.
  - apply bind_Ok in H as (d1 & s1 & H1 & H).
    apply bind_Ok in H1 as (o & s2 & Ho & H1).
    pose proof (bufferop_of_read_only _ _ _ _ _ Ho) as ->.
    inversion H1; subst. clear H1.
    apply IH in H as (-> & Hin & Hout). split; [done|]. split.
    + intros x Hx. destruct (decide (x ∈ l)) as [Hl|Hl]; [by apply Hin|].
      apply elem_of_cons in Hx as [->|Hx]; [|done].
      exists o. split; [done|]. by rewrite (Hout _ Hl), dict_get_set_eq.
    + intros x Hx. apply not_elem_of_cons in Hx as [Hne Hl].
      rewrite (Hout _ Hl). by apply dict_get_set_ne.
Qed.

Lemma base_bufs_of_Ok t s bb s' :
  base_bufs_of t s = Ok bb s' ->
  s' = s /\ NoDup bb /\
  forall x b o, x ∈ buffers t -> bufs s !! x = Some b -> lb_op (base b) s = Ok o s ->
                op o <> LoadOps.CONST -> base b ∈ bb.
Proof.
  unfold base_bufs_of. intros H.
  apply bind_Ok in H as (keep & s1 & Hk & H).
  assert (Hro : forall x, read_only (c <- base_is_const x ;; ret (negb c))).
  { intros x s0 a s0' H0. apply bind_Ok in H0 as (c & s2 & Hc & H0).
    apply base_is_const_Ok in Hc as [-> _]. by inversion H0. }
  apply (filter_M_spec _ _ _ _ _ Hro) in Hk as [-> Hkeep].
  apply bind_Ok in H as (bases & s1 & Hb & H).
  pose proof (map_M_read_only _ keep get_base_read_only _ _ _ Hb) as ->.
  apply (map_M_Forall2 _ _ _ _ _ get_base_read_only) in Hb.
  unfold ret in H. injection H as <- <-. split; [done|]. split; [apply dedup_NoDup|].
  intros x b o Hx Hbx Ho Hnc. apply elem_of_dedup.
  assert (Hxk : x ∈ keep).
  { apply Hkeep. split; [done|]. unfold bind.
    assert (Hc : base_is_const x s = Ok (bool_decide (op o = LoadOps.CONST)) s).
    { apply base_is_const_Ok. eauto 10. }
    rewrite Hc. by rewrite bool_decide_eq_false_2. }
  apply list_elem_of_lookup in Hxk as [i Hi].
  destruct (Forall2_lookup_l _ _ _ _ _ Hb Hi) as (y & Hy & Hxy).
  apply bind_Ok in Hxy as (b' & s1 & Hg & Hxy). apply get_Ok in Hg as [Hb' ->].
  rewrite Hbx in Hb'. inversion Hb'; subst b'. inversion Hxy; subst.
  apply list_elem_of_lookup. eauto.
Qed.

Lemma filter_M_total {A} (f : A -> M bool) l s :
  (forall x, x ∈ l -> exists c, f x s = Ok c s) ->
  exists ys, filter_M f l s = Ok ys s.
Proof.
  induction l as [|y l IH]; intros Hf; simpl.
  - by eexists.
  - destruct (Hf y) as [c Hc]; [apply list_elem_of_here|].
    destruct IH as [ys Hys]; [intros x Hx; apply Hf; by apply list_elem_of_further|].
    unfold bind. rewrite Hc, Hys. by eexists.
Qed.

Lemma map_M_total {A B} (f : A -> M B) l s :
  (forall x, x ∈ l -> exists y, f x s = Ok y s) ->
  exists ys, map_M f l s = Ok ys s.
Proof.
  induction l as [|y l IH]; intros Hf; simpl.
  - by eexists.
  - destruct (Hf y) as [c Hc]; [apply list_elem_of_here|].
    destruct IH as [ys Hys]; [intros x Hx; apply Hf; by apply list_elem_of_further|].
    unfold bind. rewrite Hc, Hys. by eexists.
Qed.

Lemma fold_M_total {A B} (f : B -> A -> M B) l acc s :
  (forall a x, x ∈ l -> exists a', f a x s = Ok a' s) ->
  exists acc', fold_M f l acc s = Ok acc' s.
Proof.
  revert acc. induction l as [|y l IH]; intros acc Hf; simpl.
  - by eexists.
  - destruct (Hf acc y) as [a' Ha]; [apply list_elem_of_here|].
    destruct (IH a') as [acc' Hacc]; [intros a x Hx; apply Hf; by apply list_elem_of_further|].
    unfold bind. rewrite Ha, Hacc. by eexists.
Qed.

Lemma base_is_const_resolvable s x :
  resolvable s x -> exists c, base_is_const x s = Ok c s.
Proof.
  intros (b & o & Hb & Ho & _). eexists. apply base_is_const_Ok. eauto 10.
Qed.

Lemma base_bufs_of_total t s :
  (forall x, x ∈ buffers t -> resolvable s x) ->
  exists bb, base_bufs_of t s = Ok bb s.
Proof.
  intros Hres. unfold base_bufs_of.
  destruct (filter_M_total (fun x => c <- base_is_const x ;; ret (negb c)) (buffers t) s)
    as [keep Hkeep].
  { intros x Hx. destruct (base_is_const_resolvable _ _ (Hres x Hx)) as [c Hc].
    exists (negb c). unfold bind. by rewrite Hc. }
  assert (Hro : forall x, read_only (c <- base_is_const x ;; ret (negb c))).
  { intros x s0 a s0' H0. apply bind_Ok in H0 as (c & s2 & Hc & H0).
    apply base_is_const_Ok in Hc as [-> _]. by inversion H0. }
  pose proof (filter_M_spec _ _ _ _ _ Hro Hkeep) as [_ Hel].
  destruct (map_M_total (fun x => b <- get x ;; ret (base b)) keep s) as [bases Hbases].
  { intros x Hx. apply Hel in Hx as [Hx _].
    destruct (Hres x Hx) as (b & _ & Hb & _). exists (base b).
    unfold bind. by rewrite (get_lookup _ _ _ Hb). }
  eexists. apply bind_Ok. do 2 eexists. split; [exact Hkeep|].
  apply bind_Ok. do 2 eexists. split; [exact Hbases|]. reflexivity.
Qed.

(** The list of bases of line 59 is [slot_bases]. *)
Lemma base_bufs_list s l : forall keep s1 bases s2,
  filter_M (fun x => c <- base_is_const x ;; ret (negb c)) l s = Ok keep s1 ->
  map_M (fun x => b <- get x ;; ret (base b)) keep s1 = Ok bases s2 ->
  s2 = s /\ bases = omap (mem_base s) l.
Proof.
  induction l as [|x l IH]; intros keep s1 bases s2 Hk Hb; simpl in Hk.
  - unfold ret in Hk. injection Hk as <- <-. simpl in Hb. unfold ret in Hb.
    by injection Hb as <- <-.
  - apply bind_Ok in Hk as (c & s3 & Hc & Hk).
    apply bind_Ok in Hc as (c0 & s4 & Hc0 & Hc).
    apply base_is_const_Ok in Hc0 as (-> & b & o & Hbx & Ho & ->).
    unfold ret in Hc. injection Hc as <- <-.
    apply bind_Ok in Hk as (ys & s5 & Hys & Hk). unfold ret in Hk. injection Hk as <- <-.
    assert (Hm : mem_base s x
                 = if decide (op o = LoadOps.CONST) then None else Some (base b)).
    { unfold mem_base. by rewrite Hbx, Ho. }
    simpl. rewrite Hm.
    destruct (decide (op o = LoadOps.CONST)) as [Hconst|Hnc].
    + rewrite bool_decide_eq_true_2 in Hb by done. simpl in Hb. by eapply IH.
    + rewrite bool_decide_eq_false_2 in Hb by done. simpl in Hb.
      apply bind_Ok in Hb as (y & s6 & Hy & Hb).
      apply bind_Ok in Hy as (b' & s7 & Hg & Hy).
      assert (Hro : forall x0, read_only (c <- base_is_const x0 ;; ret (negb c))).
      { intros x0 s0 a s0' H0. apply bind_Ok in H0 as (c & s9 & Hc & H0).
        apply base_is_const_Ok in Hc as [-> _]. by inversion H0. }
      pose proof (filter_M_spec _ _ _ _ _ Hro Hys) as [-> _].
      apply get_Ok in Hg as [Hb' ->]. rewrite Hbx in Hb'. injection Hb' as <-.
      unfold ret in Hy. injection Hy as <- <-.
      apply bind_Ok in Hb as (bases' & s8 & Hbs & Hb). unfold ret in Hb.
      injection Hb as <- <-.
      destruct (IH _ _ _ _ Hys Hbs) as [-> ->]. done.
Qed.

Lemma base_bufs_of_eq t s bb s' :
  base_bufs_of t s = Ok bb s' -> s' = s /\ bb = slot_bases s t.
Proof.
  unfold base_bufs_of. intros H.
  apply bind_Ok in H as (keep & s1 & Hk & H).
  apply bind_Ok in H as (bases & s2 & Hb & H).
  unfold ret in H. injection H as <- <-.
  destruct (base_bufs_list _ _ _ _ _ _ Hk Hb) as [-> ->]. done.
Qed.

Lemma dedup_acc_prefix {A} `{EqDecision A} (l acc : list A) :
  exists rest,
    fold_left (fun acc x => if decide (x ∈ acc) then acc else acc ++ [x]) l acc
    = acc ++ rest.
Proof.
  revert acc. induction l as [|x l IH]; intros acc; simpl.
  - exists []. by rewrite app_nil_r.
  - destruct (decide (x ∈ acc)); [apply IH|].
    destruct (IH (acc ++ [x])) as [rest ->]. exists (x :: rest).
    by rewrite <- app_assoc.
Qed.

Lemma dedup_head {A} `{EqDecision A} (x : A) (l : list A) : dedup (x :: l) !! 0%nat = Some x.
Proof.
  unfold dedup. simpl. destruct (decide (x ∈ [])) as [Hx|_]; [by apply elem_of_nil in Hx|].
  simpl. by destruct (dedup_acc_prefix l [x]) as [rest ->].
Qed.

(** C7: when buffer-slot resolution returns, it has read the state only,
    and the tree it returns is the input with every leaf replaced.  A leaf
    whose base is a [CONST] load is replaced by a [CONST] descriptor, which
    carries [float] of the value of the load and no memory slot.  Any other
    leaf is replaced by a [MEM] descriptor whose slot is one more than the
    position of its base in [slot_bases], the bases of the memory leaves in
    leaf order without repetition.  So the slots are the numbers from 1 to
    the number of distinct bases, each used by some leaf, the first leaf
    has slot 1 when it stands for memory (slot 0 is the output), and two
    leaves receive the same slot exactly when they have the same base.
    The loop body raises [NotImplementedError] on a leaf that is not a
    constant and whose base is not in the list of bases it is given.
    Resolution returns whenever every leaf is resolvable. *)
Theorem buffer_slot_resolution s t :
  (forall t' s', _ast_bufferops t s = Ok t' s' ->
     s' = s /\
     exists replacements,
       t' = map_buffers replacements t /\ NoDup (slot_bases s t) /\
       (forall x, x ∈ buffers t ->
          exists b o, bufs s !! x = Some b /\ lb_op (base b) s = Ok o s /\
            ((op o = LoadOps.CONST /\
              mem_slot replacements x = None /\
              exists v y, arg o = ArgNum v /\ py_float v = inr y /\
                dict_get x replacements = Some (inl (const_descriptor y b)))
             \/
             (op o <> LoadOps.CONST /\
              exists k, slot_bases s t !! k = Some (base b) /\
                dict_get x replacements
                = Some (inl (mem_descriptor (Z.of_nat k + 1) b))))) /\
       (forall k bx, slot_bases s t !! k = Some bx ->
          exists x, x ∈ buffers t /\ base_of s x = Some bx /\
                    mem_slot replacements x = Some (Z.of_nat k + 1)) /\
       (forall x rest i, buffers t = x :: rest ->
          mem_slot replacements x = Some i -> i = 1) /\
       (forall x y i j, x ∈ buffers t -> y ∈ buffers t ->
          mem_slot replacements x = Some i -> mem_slot replacements y = Some j ->
          1 <= i <= Z.of_nat (length (slot_bases s t)) /\
          (i = j <-> base_of s x = base_of s y))) /\
  (forall base_bufs x b o,
     bufs s !! x = Some b -> lb_op (base b) s = Ok o s ->
     op o <> LoadOps.CONST -> base b ∉ base_bufs ->
     bufferop_of base_bufs x s = Raise NotImplementedError) /\
  ((forall x, x ∈ buffers t -> resolvable s x) ->
   exists t', _ast_bufferops t s = Ok t' s).
Proof.
  split; [|split].
  - intros t' s' H. unfold _ast_bufferops, replacements_of in H.
    apply bind_Ok in H as (repl & s1 & Hrepl & H).
    apply bind_Ok in Hrepl as (bb & s2 & Hbb & Hrepl).
    apply base_bufs_of_eq in Hbb as (-> & ->).
    apply fold_replacements in Hrepl as (-> & Hin & _).
    unfold ret in H. injection H as <- <-. split; [done|].
    pose proof (dedup_NoDup (omap (mem_base s) (buffers t))) as Hnd.
    fold (slot_bases s t) in Hnd.
    assert (Hleaf : forall x, x ∈ buffers t ->
          exists b o, bufs s !! x = Some b /\ lb_op (base b) s = Ok o s /\
            ((op o = LoadOps.CONST /\
              mem_slot repl x = None /\
              exists v y, arg o = ArgNum v /\ py_float v = inr y /\
                dict_get x repl = Some (inl (const_descriptor y b)))
             \/
             (op o <> LoadOps.CONST /\
              exists k, slot_bases s t !! k = Some (base b) /\
                dict_get x repl = Some (inl (mem_descriptor (Z.of_nat k + 1) b))))).
    { intros x Hx. destruct (Hin x Hx) as (o' & Ho' & Hget).
      apply bufferop_of_Ok in Ho' as (_ & b & o & Hb & Ho & Hcase).
      exists b, o. split; [done|]. split; [done|].
      destruct Hcase as [(Hc & v & y & Hv & Hy & ->)|(Hnc & Hmem & ->)].
      - left. split; [done|]. split; [unfold mem_slot; by rewrite Hget|]. eauto 10.
      - right. split; [done|]. destruct (index_lookup _ _ Hmem) as [H0 Hk].
        exists (Z.to_nat (index (base b) (slot_bases s t))). split; [done|].
        by rewrite Z2Nat.id. }
    assert (Hslot : forall x i, x ∈ buffers t -> mem_slot repl x = Some i ->
              exists b k, bufs s !! x = Some b /\ slot_bases s t !! k = Some (base b) /\
                          i = Z.of_nat k + 1).
    { intros x i Hx Hi.
      destruct (Hleaf x Hx) as (b & o & Hb & _ & [(_ & Hnone & _)|(_ & k & Hk & Hg)]);
        [congruence|].
      unfold mem_slot in Hi. rewrite Hg in Hi. simpl in Hi. injection Hi as <-. eauto. }
    exists repl. split; [done|]. split; [done|]. split; [done|]. split; [|split].
    + intros k bx Hk.
      assert (Hel : bx ∈ omap (mem_base s) (buffers t)).
      { apply elem_of_dedup, list_elem_of_lookup. eauto. }
      apply list_elem_of_omap in Hel as (x & Hx & Hmb).
      destruct (Hleaf x Hx) as (b & o & Hb & Ho & Hcase).
      unfold mem_base in Hmb. rewrite Hb, Ho in Hmb.
      destruct (decide (op o = LoadOps.CONST)) as [|Hnc]; [discriminate|].
      injection Hmb as <-.
      destruct Hcase as [(Hc & _)|(_ & k' & Hk' & Hg)]; [done|].
      rewrite (NoDup_lookup _ _ _ _ Hnd Hk Hk').
      exists x. split; [done|]. split; [unfold base_of; by rewrite Hb|].
      unfold mem_slot. by rewrite Hg.
    + intros x rest i Hbuf Hi.
      assert (Hx : x ∈ buffers t) by (rewrite Hbuf; apply list_elem_of_here).
      destruct (Hleaf x Hx) as (b & o & Hb & Ho & [(_ & Hnone & _)|(Hnc & k & Hk & Hg)]);
        [congruence|].
      unfold mem_slot in Hi. rewrite Hg in Hi. simpl in Hi. injection Hi as <-.
      assert (H0 : slot_bases s t !! 0%nat = Some (base b)).
      { unfold slot_bases. rewrite Hbuf. simpl.
        assert (Hm : mem_base s x = Some (base b)).
        { unfold mem_base. rewrite Hb, Ho. by destruct (decide (op o = LoadOps.CONST)). }
        rewrite Hm. apply dedup_head. }
      by rewrite (NoDup_lookup _ _ _ _ Hnd Hk H0).
    + intros x y i j Hx Hy Hi Hj.
      destruct (Hslot x i Hx Hi) as (bx & kx & Hbx & Hkx & ->).
      destruct (Hslot y j Hy Hj) as (by0 & ky & Hby & Hky & ->).
      pose proof (lookup_lt_Some _ _ _ Hkx) as Hlt.
      split; [lia|]. unfold base_of. rewrite Hbx, Hby. simpl. split.
      * intros Heq. assert (kx = ky) as -> by lia. congruence.
      * intros Heq. injection Heq as Heq. rewrite Heq in Hkx.
        by rewrite (NoDup_lookup _ _ _ _ Hnd Hkx Hky).
  - intros base_bufs x b o Hb Ho Hnc Hnin. unfold bufferop_of, bind.
    rewrite (get_lookup _ _ _ Hb).
    assert (Hc : base_is_const x s = Ok (bool_decide (op o = LoadOps.CONST)) s).
    { apply base_is_const_Ok. eauto 10. }
    rewrite Hc, bool_decide_eq_false_2 by done. simpl.
    by rewrite bool_decide_eq_false_2.
  - intros Hres. unfold _ast_bufferops, replacements_of.
    destruct (base_bufs_of_total _ _ Hres) as [bb Hbb].
    pose proof (base_bufs_of_Ok _ _ _ _ Hbb) as (_ & _ & Hmem).
    destruct (fold_M_total
      (fun d x => o <- bufferop_of bb x ;; ret (dict_set x (inl o : Src) d))
      (buffers t) [] s) as [repl Hrepl].
    { intros d x Hx. destruct (Hres x Hx) as (b & o & Hb & Ho & Hnum).
      assert (Hc : base_is_const x s = Ok (bool_decide (op o = LoadOps.CONST)) s).
      { apply base_is_const_Ok. eauto 10. }
      unfold bufferop_of, bind. rewrite (get_lookup _ _ _ Hb), Hc.
      destruct (decide (op o = LoadOps.CONST)) as [Hconst|Hnc].
      - rewrite bool_decide_eq_true_2 by done. rewrite Ho.
        destruct (Hnum Hconst) as (v & y & Hv & Hy). rewrite Hv. simpl.
        rewrite Hy. by eexists.
      - rewrite bool_decide_eq_false_2 by done.
        rewrite bool_decide_eq_true_2 by eauto. by eexists. }
    eexists. apply bind_Ok. do 2 eexists. split; [|reflexivity].
    apply bind_Ok. do 2 eexists. split; [exact Hbb|exact Hrepl].
Qed.

(** ** The scheduler *)

(** *** What survives when the arena grows *)

Lemma grows_valid s s' x : grows s s' -> valid s x -> valid s' x.
Proof. intros (_ & Hl & _) Hx. unfold valid in *. lia. Qed.

Lemma valid_lookup s x : valid s x -> exists b, bufs s !! x = Some b.
Proof. intros Hx. by apply lookup_lt_is_Some_2. Qed.

Lemma lookup_valid s x b : bufs s !! x = Some b -> valid s x.
Proof. intros Hx. by eapply lookup_lt_Some. Qed.

Lemma grows_lookup_inv s s' i b' :
  grows s s' -> valid s i -> bufs s' !! i = Some b' ->
  exists b, bufs s !! i = Some b /\ same_node b b'.
Proof.
  intros Hg Hv Hb'. destruct (valid_lookup _ _ Hv) as [b Hb].
  destruct (grows_lookup _ _ _ _ Hg Hb) as (b'' & Hb'' & Hsame).
  rewrite Hb' in Hb''. inversion Hb''; subst. eauto.
Qed.

Lemma grows_below s s' self x : grows s s' -> below s self x -> below s' self x.
Proof.
  intros Hg (bx & Hbx & Hlt). destruct (grows_lookup _ _ _ _ Hg Hbx) as (b' & Hb' & Hsame).
  exists b'. split; [done|]. destruct Hsame as (_ & _ & _ & <- & _). done.
Qed.

Lemma below_mono s self self' x : (self <= self')%nat -> below s self x -> below s self' x.
Proof. intros Hle (bx & Hbx & Hlt). exists bx. split; [done|lia]. Qed.

Lemma below_valid s self x : below s self x -> valid s x.
Proof. intros (bx & Hbx & _). by eapply lookup_valid. Qed.

Lemma grows_is_base s s' x : grows s s' -> is_base s x -> is_base s' x.
Proof.
  intros Hg (b & Hb & Hbase). destruct (grows_lookup _ _ _ _ Hg Hb) as (b' & Hb' & Hsame).
  exists b'. split; [done|]. destruct Hsame as (_ & _ & _ & <- & _). done.
Qed.

Lemma grows_base_of s s' x : grows s s' -> valid s x -> base_of s' x = base_of s x.
Proof.
  intros Hg Hv. destruct (valid_lookup _ _ Hv) as [b Hb].
  destruct (grows_lookup _ _ _ _ Hg Hb) as (b' & Hb' & Hsame).
  unfold base_of. rewrite Hb, Hb'. simpl. destruct Hsame as (_ & _ & _ & <- & _). done.
Qed.

Lemma grows_unrealized s s' x :
  grows s s' -> arena_ordered s -> valid s x -> unrealized s' x -> unrealized s x.
Proof.
  intros Hg Hord Hv (b' & bb' & Hb' & Hbb' & Hrz).
  destruct (grows_lookup_inv _ _ _ _ Hg Hv Hb') as (b & Hb & Hsame).
  destruct (Hord _ _ Hb) as (_ & (bb & Hbb & _) & _).
  destruct (grows_lookup _ _ _ _ Hg Hbb) as (bb'' & Hbb'' & Hsame').
  destruct Hsame as (_ & _ & _ & Hbase & _). rewrite <- Hbase in Hbb'.
  rewrite Hbb' in Hbb''. inversion Hbb''; subst bb''.
  exists b, bb. split; [done|]. split; [done|].
  destruct Hsame' as (_ & _ & _ & _ & -> & _). done.
Qed.

(** *** The constructors keep the arena ordered *)

Lemma arena_orderedb_sound s : arena_orderedb s = true -> arena_ordered s.
Proof.
  unfold arena_orderedb. rewrite forallb_forall. intros H i b Hb.
  assert (Hin : In (i, b) (imap pair (bufs s))).
  { apply list_elem_of_In, list_elem_of_lookup. exists i.
    by rewrite list_lookup_imap, Hb. }
  apply H in Hin. unfold node_orderedb in Hin. simpl in Hin.
  apply andb_true_iff in Hin as [Hin H3]. apply andb_true_iff in Hin as [H1 H2].
  apply Nat.leb_le in H1. split; [done|]. split.
  - destruct (bufs s !! base b) as [bb|]; [|discriminate].
    apply Nat.eqb_eq in H2. eauto.
  - intros o x Heq Ho Hx. rewrite (proj2 (Nat.eqb_eq _ _) Heq), Ho in H3.
    rewrite forallb_forall in H3. apply Nat.ltb_lt, H3. by apply list_elem_of_In.
Qed.

Lemma LazyBuffer_init_ordered op0 st0 dt dev src0 base0 s r0 s' :
  arena_ordered s ->
  match base0 with
  | Some b1 => is_base s b1
  | None => forall o x, op0 = Some o -> x ∈ buffers o -> valid s x
  end ->
  LazyBuffer_init op0 st0 dt dev src0 base0 s = Ok r0 s' ->
  arena_ordered s'.
Proof.
  intros Hord Hargs H.
  apply LazyBuffer_init_Ok in H as (-> & Hlen & Hg & n & Hn & Hsame).
  intros i b' Hb'.
  destruct (decide (i < length (bufs s))%nat) as [Hlt|Hge].
  - destruct (grows_lookup_inv _ _ _ _ Hg Hlt Hb') as (b & Hb & Hs).
    destruct (Hord _ _ Hb) as (H1 & (bb & Hbb & Hbbase) & H3).
    destruct Hs as (_ & _ & _ & Hbase & _ & Hop). rewrite <- Hbase, <- Hop.
    split; [done|]. split; [|done].
    destruct (grows_lookup _ _ _ _ Hg Hbb) as (bb' & Hbb' & Hs').
    exists bb'. split; [done|]. destruct Hs' as (_ & _ & _ & <- & _). done.
  - assert (i = length (bufs s)) as ->.
    { apply lookup_lt_Some in Hb'. lia. }
    rewrite Hn in Hb'. inversion Hb'; subst b'. clear Hb'.
    destruct Hsame as (_ & _ & _ & Hbase & _ & Hop). simpl in Hbase, Hop.
    rewrite <- Hbase, <- Hop. destruct base0 as [b1|]; simpl.
    + destruct Hargs as (bb & Hbb & Hbbase).
      pose proof (lookup_lt_Some _ _ _ Hbb) as Hb1.
      split; [lia|]. split.
      * destruct (grows_lookup _ _ _ _ Hg Hbb) as (bb' & Hbb' & Hs').
        exists bb'. split; [done|]. destruct Hs' as (_ & _ & _ & <- & _). done.
      * intros o x Heq. lia.
    + split; [done|]. split.
      * exists n. split; [done|]. done.
      * intros o x _ Ho Hx. eapply Hargs; eauto.
Qed.

(** A movement returns the node itself or a new view on the same base. *)
Lemma movement_ordered s x a v s' :
  arena_ordered s ->
  movement x a s = Ok v s' ->
  grows s s' /\ arena_ordered s' /\
  exists bx bv, bufs s !! x = Some bx /\ bufs s' !! v = Some bv /\ base bv = base bx.
Proof.
  intros Hord H. unfold movement in H.
  apply bind_Ok in H as (b & s1 & Hg & H). apply get_Ok in Hg as [Hb ->].
  apply bind_Ok in H as (st0 & s1 & He & H). apply external_Ok in He as [Hmv ->].
  unfold _movement_op in H.
  apply bind_Ok in H as (b' & s1 & Hg & H). apply get_Ok in Hg as [Hb' ->].
  rewrite Hb in Hb'. inversion Hb'; subst b'. clear Hb'.
  destruct (st_eqb (st b) st0).
  - unfold ret in H. injection H as <- <-.
    split; [apply grows_refl|]. split; [done|]. eauto.
  - pose proof H as Hinit.
    apply LazyBuffer_init_Ok in H as (-> & Hlen & Hg & n & Hn & Hsame).
    split; [done|]. split.
    + eapply LazyBuffer_init_ordered; [exact Hord| |exact Hinit].
      destruct (Hord _ _ Hb) as (_ & (bb & Hbb & Hbbase) & _). by exists bb.
    + exists b, n. split; [done|]. split; [done|].
      destruct Hsame as (_ & _ & _ & <- & _). done.
Qed.

(** *** Leaves after substitution *)

Lemma dict_get_Some_elem {V} k (v : V) d : dict_get k d = Some v -> (k, v) ∈ d.
Proof.
  induction d as [|[k' v'] d IH]; simpl; [discriminate|].
  destruct (Nat.eqb k k') eqn:E.
  - apply Nat.eqb_eq in E as ->. intros H. inversion H. apply list_elem_of_here.
  - intros H. apply list_elem_of_further. auto.
Qed.

Lemma elem_of_dict_set {V} k (v : V) d kv :
  kv ∈ dict_set k v d -> kv = (k, v) \/ kv ∈ d.
Proof.
  induction d as [|[k' v'] d IH]; simpl.
  - intros H. apply list_elem_of_singleton in H. auto.
  - destruct (Nat.eqb k k').
    + intros H. apply elem_of_cons in H as [?|?]; [auto|].
      right. by apply list_elem_of_further.
    + intros H. apply elem_of_cons in H as [->|H].
      * right. apply list_elem_of_here.
      * destruct (IH H); [auto|]. right. by apply list_elem_of_further.
Qed.

Lemma elem_of_dict_fold {V} (f : Ref -> V) l d kv :
  kv ∈ fold_left (fun d x => dict_set x (f x) d) l d ->
  kv ∈ d \/ (kv.1 ∈ l /\ kv.2 = f kv.1).
Proof.
  revert d. induction l as [|x l IH]; intros d H; simpl in H; [auto|].
  apply IH in H as [H|[H1 H2]].
  - apply elem_of_dict_set in H as [->|H]; [|auto].
    right. split; [apply list_elem_of_here|done].
  - right. split; [by apply list_elem_of_further|done].
Qed.

Lemma elem_of_dict_of {V} (f : Ref -> V) l kv :
  kv ∈ dict_of f l -> kv.1 ∈ l /\ kv.2 = f kv.1.
Proof.
  intros H. apply elem_of_dict_fold in H as [H|H]; [|done]. by apply elem_of_nil in H.
Qed.

Lemma elem_of_dict_update {V} (d d' : PyDict V) kv :
  kv ∈ dict_update d d' -> kv ∈ d \/ kv ∈ d'.
Proof.
  unfold dict_update. revert d. induction d' as [|[k v] d' IH]; intros d H; simpl in H.
  - auto.
  - apply IH in H as [H|H].
    + apply elem_of_dict_set in H as [->|H]; [|auto].
      right. apply list_elem_of_here.
    + right. by apply list_elem_of_further.
Qed.

Lemma buffers_mkLazyOp o srcs a x :
  x ∈ buffers (mkLazyOp o srcs a) <-> exists y, y ∈ srcs /\ x ∈ src_buffers y.
Proof.
  simpl. rewrite list_elem_of_In, in_flat_map. split.
  - intros (y & Hy & Hx). exists y. split; [by apply list_elem_of_In|].
    destruct y; apply list_elem_of_In; exact Hx.
  - intros (y & Hy & Hx). exists y. split; [by apply list_elem_of_In|].
    destruct y; apply list_elem_of_In; exact Hx.
Qed.

(** A leaf of the substituted tree is a leaf of the image of a leaf, or a
    leaf that the mapping does not mention. *)
Lemma buffers_map_buffers d t x' :
  x' ∈ buffers (map_buffers d t) ->
  exists x, x ∈ buffers t /\
    match dict_get x d with
    | Some y => x' ∈ src_buffers y
    | None => x' = x
    end.
Proof.
  induction t as [o srcs a IH] using LazyOp_ind'.
  simpl map_buffers. rewrite buffers_mkLazyOp.
  intros (y' & Hy' & Hx'). apply list_elem_of_fmap in Hy' as (y & -> & Hy).
  rewrite Forall_forall in IH. specialize (IH y Hy).
  destruct y as [o'|x]; simpl in *.
  - destruct (IH Hx') as (x & Hx & Hm). exists x. split; [|done].
    apply (buffers_mkLazyOp o srcs a). exists (inl o'). done.
  - exists x. split.
    + apply (buffers_mkLazyOp o srcs a). exists (inr x). split; [done|].
      simpl. apply list_elem_of_here.
    + destruct (dict_get x d); simpl in Hx'; [done|].
      by apply list_elem_of_singleton in Hx'.
Qed.

(** *** The absorption rewrites *)

Lemma ordered_below s self x :
  arena_ordered s -> valid s x -> (x < self)%nat -> below s self x.
Proof.
  intros Hord Hv Hlt. destruct (valid_lookup _ _ Hv) as [b Hb].
  destruct (Hord _ _ Hb) as (Hle & _). exists b. split; [done|lia].
Qed.

(** The leaves of the operation of the base of [x] are below that base. *)
Lemma lb_op_leaves s x bx o :
  arena_ordered s -> bufs s !! x = Some bx -> lb_op x s = Ok o s ->
  forall y, y ∈ buffers o -> (y < base bx)%nat /\ valid s y.
Proof.
  intros Hord Hbx Ho y Hy.
  apply lb_op_Ok in Ho as (_ & b & bb & Hb & Hbb & Hbase & Hop).
  rewrite Hbx in Hb. inversion Hb; subst b. clear Hb.
  destruct (Hord _ _ Hbb) as (_ & _ & H3).
  specialize (H3 o y Hbase Hop Hy). split; [done|].
  apply lookup_lt_Some in Hbb. unfold valid. lia.
Qed.

Lemma _ast_reduceops_spec s self t t' s' :
  arena_ordered s -> valid s self ->
  (forall x, x ∈ buffers t -> (x < self)%nat) ->
  _ast_reduceops OPT t s = Ok t' s' ->
  s' = s /\ forall x, x ∈ buffers t' -> below s self x.
Proof.
  intros Hord Hself Hleaves H. unfold _ast_reduceops in H.
  destruct t as [o srcs a]. simpl in H.
  destruct srcs as [|[o'|x] srcs]; try discriminate.
  assert (Hx : (x < self)%nat).
  { apply Hleaves. apply buffers_mkLazyOp. exists (inr x).
    split; [apply list_elem_of_here|]. simpl. apply list_elem_of_here. }
  assert (Hxb : below s self x).
  { apply ordered_below; [done| |done]. unfold valid in *. lia. }
  assert (Hkeep : forall y, y ∈ buffers (mkLazyOp o [inr x] a) -> below s self y).
  { intros y Hy. apply buffers_mkLazyOp in Hy as (y0 & Hy0 & Hy).
    apply list_elem_of_singleton in Hy0 as ->. simpl in Hy.
    by apply list_elem_of_singleton in Hy as ->. }
  apply bind_Ok in H as (rz & s1 & Hrz & H). apply realized_Ok in Hrz as (-> & _).
  destruct (truthy rz).
  { unfold ret in H. injection H as <- <-. done. }
  apply bind_Ok in H as (ox & s1 & Hox & H). pose proof Hox as Hox'.
  apply lb_op_Ok in Hox' as (-> & _).
  destruct (MERGE_ELEMENTWISE_INTO_REDUCE OPT && in_ElementwiseOps (op ox)).
  2:{ unfold ret in H. injection H as <- <-. done. }
  apply bind_Ok in H as (ch & s1 & Hch & H). apply children_Ok in Hch as (-> & _).
  destruct (length ch <=? 1)%nat.
  2:{ unfold ret in H. injection H as <- <-. done. }
  unfold ret in H. injection H as <- <-. split; [done|].
  intros y Hy. apply buffers_mkLazyOp in Hy as (y0 & Hy0 & Hy).
  apply list_elem_of_singleton in Hy0 as ->. simpl in Hy.
  destruct Hxb as (bx & Hbx & Hlt).
  destruct (lb_op_leaves _ _ _ _ Hord Hbx Hox y Hy) as [Hylt Hyv].
  apply ordered_below; [done|done|lia].
Qed.

Lemma read_only_bind {A B} (m : M A) (k : A -> M B) :
  read_only m -> (forall a, read_only (k a)) -> read_only (bind m k).
Proof.
  intros Hm Hk s b s' H. apply bind_Ok in H as (a & s1 & Ha & H).
  apply Hm in Ha as ->. by apply Hk in H.
Qed.

Lemma read_only_ret {A} (a : A) : read_only (ret a).
Proof. intros s b s' H. by inversion H. Qed.

Lemma read_only_raise {A} e : read_only (raise e : M A).
Proof. intros s b s' H. discriminate. Qed.

Lemma read_only_get x : read_only (get x).
Proof. intros s b s' H. by apply get_Ok in H as [_ ->]. Qed.

Lemma read_only_realized x : read_only (realized x).
Proof. intros s b s' H. by apply realized_Ok in H as [-> _]. Qed.

Lemma read_only_children x : read_only (children x).
Proof. intros s b s' H. by apply children_Ok in H as [-> _]. Qed.

Lemma read_only_is_contiguous x : read_only (is_contiguous x).
Proof. intros s b s' H. by apply is_contiguous_Ok in H as [-> _]. Qed.

Lemma read_only_py_assert c msg : read_only (py_assert c msg).
Proof. intros s b s' H. by apply py_assert_Ok in H as [_ ->]. Qed.

(** Reads compose. *)
Ltac read_only :=
  repeat first
    [ apply read_only_ret | apply read_only_raise | apply read_only_get
    | apply read_only_realized | apply read_only_children | apply lb_op_read_only
    | apply read_only_is_contiguous | apply read_only_py_assert
    | apply read_only_bind; [|intros ?]
    | match goal with
      | |- read_only (if ?c then _ else _) => destruct c
      | |- read_only (match ?c with _ => _ end) => destruct c
      end ].

Lemma psrc_filter_read_only k x : read_only (psrc_filter k x).
Proof. unfold psrc_filter. read_only. Qed.

Lemma psrc_of_read_only k x : read_only (psrc_of k x).
Proof. unfold psrc_of. read_only. Qed.

Lemma psrc_of_Ok k x s p s' :
  psrc_of k x s = Ok p s' ->
  exists bx, bufs s !! x = Some bx /\ p.1 = k /\ (p.2 = x \/ p.2 = base bx).
Proof.
  unfold psrc_of. intros H. apply bind_Ok in H as (c & s1 & Hc & H).
  apply is_contiguous_Ok in Hc as (-> & b & Hb & _). destruct c.
  - apply bind_Ok in H as (b' & s1 & Hg & H). apply get_Ok in Hg as [Hb' ->].
    rewrite Hb in Hb'. inversion Hb'; subst b'. inversion H; subst. eauto.
  - inversion H; subst. eauto.
Qed.

Lemma _ast_reduceops_read_only t : read_only (_ast_reduceops OPT t).
Proof. unfold _ast_reduceops. read_only. Qed.

(** The last loop of [_ast_binaryops] (lines 51 and 52): every image has
    its leaves below [self]. *)
Lemma reshape_entries self shape0 (entries : PyDict (option Src)) s out s' :
  arena_ordered s ->
  (forall k v, (k, v) ∈ entries ->
     match v with
     | None => (k < self)%nat /\ valid s k
     | Some y => forall x, x ∈ src_buffers y -> below s self x
     end) ->
  map_M (fun kv : Ref * option Src =>
           match kv.2 with
           | Some y => ret (kv.1, y)
           | None => v <- reshape kv.1 shape0 ;; ret (kv.1, inr v : Src)
           end) entries s = Ok out s' ->
  grows s s' /\ arena_ordered s' /\
  forall k y, (k, y) ∈ out -> forall x, x ∈ src_buffers y -> below s' self x.
Proof.
  revert s out. induction entries as [|[k v] entries IH]; intros s out Hord Hent H;
    simpl in H.
  - unfold ret in H. injection H as <- <-. split; [apply grows_refl|]. split; [done|].
    intros k y Hin. by apply elem_of_nil in Hin.
  - apply bind_Ok in H as (ky & s1 & Hky & H).
    apply bind_Ok in H as (out' & s2 & Hout & H).
    unfold ret in H. injection H as <- <-.
    assert (Hstep : grows s s1 /\ arena_ordered s1 /\
              forall x, x ∈ src_buffers ky.2 -> below s1 self x).
    { pose proof (Hent k v (list_elem_of_here _ _)) as Hkv. destruct v as [y|]; simpl in Hky.
      - unfold ret in Hky. injection Hky as <- <-. simpl.
        split; [apply grows_refl|]. done.
      - apply bind_Ok in Hky as (v & s3 & Hv & Hky). unfold ret in Hky.
        injection Hky as <- <-. simpl.
        apply movement_ordered in Hv as (Hg & Hord' & bk & bv & Hbk & Hbv & Hbase); [|done].
        split; [done|]. split; [done|]. intros x Hx.
        apply list_elem_of_singleton in Hx as ->. exists bv. split; [done|].
        destruct (Hord _ _ Hbk) as (Hle & _). destruct Hkv. lia. }
    destruct Hstep as (Hg1 & Hord1 & Hky1).
    apply IH in Hout as (Hg2 & Hord2 & Hout); [|done|].
    2:{ intros k' v' Hin. specialize (Hent k' v' (list_elem_of_further _ _ _ Hin)).
        destruct v' as [y|].
        - intros x Hx. eapply grows_below; eauto.
        - destruct Hent. split; [done|]. eapply grows_valid; eauto. }
    split; [eauto using grows_trans|]. split; [done|].
    intros k' y Hin x Hx. apply elem_of_cons in Hin as [Heq|Hin].
    + subst ky. simpl in Hky1. eapply grows_below; eauto.
    + eapply Hout; eauto.
Qed.

Lemma _ast_binaryops_spec s self t shape0 t' s' :
  arena_ordered s -> valid s self ->
  (forall x, x ∈ buffers t -> (x < self)%nat) ->
  _ast_binaryops OPT t shape0 s = Ok t' s' ->
  grows s s' /\ arena_ordered s' /\ forall x, x ∈ buffers t' -> below s' self x.
Proof.
  intros Hord Hself Hleaves H. unfold _ast_binaryops in H.
  assert (Hv : forall x, (x < self)%nat -> valid s x).
  { intros x Hx. unfold valid in *. lia. }
  apply bind_Ok in H as (keep & s1 & Hkeep & H).
  apply (filter_M_spec _ _ _ _ _ (fun x => psrc_filter_read_only x x)) in Hkeep as [-> Hkeep].
  apply bind_Ok in H as (psrcs & s1 & Hps & H).
  pose proof (map_M_read_only _ _ (fun x => psrc_of_read_only x x) _ _ _ Hps) as ->.
  apply (map_M_Forall2 _ _ _ _ _ (fun x => psrc_of_read_only x x)) in Hps.
  apply bind_Ok in H as (absorbed & s1 & Habs & H).
  assert (Hkeys : forall k (v : option Src),
            (k, v) ∈ dict_of (fun _ => None) (buffers t) -> v = None /\ k ∈ buffers t).
  { intros k v Hin. apply elem_of_dict_of in Hin as [Hk Hkv]. simpl in Hk, Hkv. done. }
  assert (Habs' : s1 = s /\
            forall k v, (k, v) ∈ absorbed.1 ->
              match v with
              | None => (k < self)%nat /\ valid s k
              | Some y => forall x, x ∈ src_buffers y -> below s self x
              end).
  { assert (H0 : forall k (v : option Src),
              (k, v) ∈ dict_of (fun _ => None) (buffers t) ->
              match v with
              | None => (k < self)%nat /\ valid s k
              | Some y => forall x, x ∈ src_buffers y -> below s self x
              end).
    { intros k v Hin. apply Hkeys in Hin as [-> Hk]. auto. }
    destruct psrcs as [|psrc psrcs].
    { unfold ret in Habs. injection Habs as <- <-. done. }
    destruct (MERGE_ONE_REDUCE_INTO_ELEMENTWISE OPT).
    2:{ unfold ret in Habs. injection Habs as <- <-. done. }
    destruct keep as [|x0 keep]; [inversion Hps|].
    apply Forall2_cons in Hps as [Hp _].
    apply psrc_of_Ok in Hp as (bx0 & Hbx0 & Hp1 & Hp2).
    assert (Hx0 : (x0 < self)%nat).
    { apply Hleaves. assert (Hk : x0 ∈ x0 :: keep) by apply list_elem_of_here.
      apply Hkeep in Hk as [Hk _]. unfold dict_keys in Hk.
      apply list_elem_of_fmap in Hk as ([k v] & -> & Hin). by apply Hkeys in Hin as [_ ?]. }
    apply bind_Ok in Habs as (o1 & s2 & Ho1 & Habs). pose proof Ho1 as Ho1'.
    apply lb_op_read_only in Ho1' as ->.
    apply bind_Ok in Habs as (top & s2 & Htop & Habs).
    destruct (in_ReduceOps (op o1)); [|discriminate].
    assert (Hbp : exists bp, bufs s !! psrc.2 = Some bp /\ (base bp <= x0)%nat).
    { destruct (Hord _ _ Hbx0) as (Hle & (bb & Hbb & Hbbase) & _).
      destruct Hp2 as [->| ->]; [eauto|]. exists bb. split; [done|lia]. }
    destruct Hbp as (bp & Hbp & Hble).
    assert (Hvb : valid s (base bp)).
    { destruct (Hord _ _ Hbp) as (_ & (bb & Hbb & _) & _). by eapply lookup_valid. }
    eapply (_ast_reduceops_spec s (base bp)) in Htop as [-> Htop]; [|done|done|].
    2:{ intros y Hy. by destruct (lb_op_leaves _ _ _ _ Hord Hbp Ho1 y Hy). }
    assert (Htop' : forall x, x ∈ buffers top -> below s self x).
    { intros x Hx. eapply below_mono; [|by apply Htop]. lia. }
    apply bind_Ok in Habs as (b0 & s2 & Hb0 & Habs). apply get_Ok in Hb0 as [_ ->].
    apply bind_Ok in Habs as (b1 & s2 & Hb1 & Habs). apply get_Ok in Hb1 as [_ ->].
    assert (Hd2 : forall k v,
              (k, v) ∈ dict_update
                         (dict_set psrc.1 (Some (inl top : Src))
                            (dict_of (fun _ => None) (buffers t)))
                         (dict_of (fun x => Some (inr x : Src)) (buffers top)) ->
              match v with
              | None => (k < self)%nat /\ valid s k
              | Some y => forall x, x ∈ src_buffers y -> below s self x
              end).
    { intros k v Hin. apply elem_of_dict_update in Hin as [Hin|Hin].
      - apply elem_of_dict_set in Hin as [Heq|Hin]; [|by apply H0].
        inversion Heq; subst. simpl. exact Htop'.
      - apply elem_of_dict_of in Hin as [Hk Hkv]. simpl in Hk, Hkv. subst v.
        intros x Hx. apply list_elem_of_singleton in Hx as ->. by apply Htop'. }
    destruct (decide (shape b0 = shape b1)).
    - unfold ret in Habs. injection Habs as <- <-. done.
    - apply bind_Ok in Habs as (? & s2 & Ha & Habs). apply py_assert_Ok in Ha as [_ ->].
      unfold ret in Habs. injection Habs as <- <-. done. }
  destruct Habs' as [-> Hent].
  apply bind_Ok in H as (real_srcs2 & s2 & Hrs & H).
  unfold ret in H. injection H as <- <-.
  apply (reshape_entries self) in Hrs as (Hg & Hord' & Hout); [|done|done].
  split; [done|]. split; [done|].
  intros x' Hx'. apply buffers_map_buffers in Hx' as (x & Hx & Hm).
  destruct (dict_get x real_srcs2) as [y|] eqn:Hget.
  - apply dict_get_Some_elem in Hget. eapply Hout; eauto.
  - subst x'. eapply grows_below; [done|]. apply ordered_below; auto.
Qed.

Lemma absorption_spec s self op1 shape0 op2 s' :
  arena_ordered s -> valid s self ->
  (forall x, x ∈ buffers op1 -> (x < self)%nat) ->
  absorption OPT op1 shape0 s = Ok op2 s' ->
  grows s s' /\ arena_ordered s' /\ forall x, x ∈ buffers op2 -> below s' self x.
Proof.
  intros Hord Hself Hleaves H. unfold absorption in H.
  destruct (in_ElementwiseOps (op op1)); [by eapply _ast_binaryops_spec|].
  destruct (in_ReduceOps (op op1)).
  - eapply _ast_reduceops_spec in H as [-> H]; eauto. split; [apply grows_refl|]. done.
  - unfold ret in H. injection H as <- <-. split; [apply grows_refl|]. split; [done|].
    intros x Hx. apply ordered_below; auto. unfold valid in *.
    specialize (Hleaves x Hx). lia.
Qed.

Lemma _ast_bufferops_read_only t : read_only (_ast_bufferops t).
Proof.
  intros s t' s' H. unfold _ast_bufferops, replacements_of in H.
  apply bind_Ok in H as (repl & s1 & Hrepl & H).
  apply bind_Ok in Hrepl as (bb & s2 & Hbb & Hrepl).
  apply base_bufs_of_Ok in Hbb as (-> & _).
  apply fold_replacements in Hrepl as (-> & _).
  by inversion H.
Qed.

(** *** Closure under dependencies *)

Lemma closed_from_weaken s avail avail' us :
  (forall x, x ∈ avail -> x ∈ avail') ->
  closed_from s avail us -> closed_from s avail' us.
Proof.
  revert avail avail'. induction us as [|u us IH]; intros avail avail' Hsub H; simpl in *.
  - done.
  - destruct H as (Hdeps & out & Hout & Hrest). split.
    + intros x Hx. destruct (Hdeps x Hx) as [Hv Hun]. split; [done|].
      intros Hu. destruct (Hun Hu) as (bx & Hbx & Hin). eauto.
    + exists out. split; [done|]. eapply IH; [|exact Hrest].
      intros x Hx. apply elem_of_cons in Hx as [->|Hx].
      * apply list_elem_of_here.
      * apply list_elem_of_further. auto.
Qed.

Lemma outputs_app us1 us2 : outputs (us1 ++ us2) = outputs us1 ++ outputs us2.
Proof. unfold outputs. apply omap_app. Qed.

Lemma outputs_cons u out us : output u = Some out -> outputs (u :: us) = out :: outputs us.
Proof. intros H. unfold outputs. simpl. by rewrite H. Qed.

Lemma closed_from_snoc s avail us u :
  closed_from s avail us ->
  (forall x, x ∈ deps u -> valid s x /\
     (unrealized s x -> exists bx, base_of s x = Some bx /\
                                   (bx ∈ avail \/ bx ∈ outputs us))) ->
  (exists out, output u = Some out) ->
  closed_from s avail (us ++ [u]).
Proof.
  revert avail. induction us as [|u0 us IH]; intros avail H Hdeps Hout; simpl in H |- *.
  - split.
    + intros x Hx. destruct (Hdeps x Hx) as [Hv Hun]. split; [done|].
      intros Hu. destruct (Hun Hu) as (bx & Hbx & [Hin|Hin]); [eauto|].
      simpl in Hin. by apply elem_of_nil in Hin.
    + destruct Hout as [out Hout]. eauto.
  - destruct H as (Hdeps0 & out0 & Hout0 & Hrest). split; [done|].
    exists out0. split; [done|]. apply IH; [done| |done].
    intros x Hx. destruct (Hdeps x Hx) as [Hv Hun]. split; [done|].
    intros Hu. destruct (Hun Hu) as (bx & Hbx & Hin). exists bx. split; [done|].
    rewrite (outputs_cons _ _ _ Hout0) in Hin. rewrite elem_of_cons in *.
    tauto.
Qed.

Lemma closed_from_grows s s' avail us :
  grows s s' -> arena_ordered s ->
  closed_from s avail us -> closed_from s' avail us.
Proof.
  intros Hg Hord. revert avail. induction us as [|u us IH]; intros avail H; simpl in *.
  - done.
  - destruct H as (Hdeps & out & Hout & Hrest). split; [|eauto].
    intros x Hx. destruct (Hdeps x Hx) as [Hv Hun]. split; [by eapply grows_valid|].
    intros Hu. apply (grows_unrealized _ _ _ Hg Hord Hv) in Hu.
    destruct (Hun Hu) as (bx & Hbx & Hin). exists bx. split; [|done].
    by rewrite (grows_base_of _ _ _ Hg Hv).
Qed.

Lemma units_below_grows s s' self us :
  grows s s' -> units_below s self us -> units_below s' self us.
Proof.
  intros Hg H. unfold units_below in *. eapply Forall_impl; [exact H|].
  intros u (out & Hout & Hb & Hlt). exists out. eauto using grows_is_base.
Qed.

Lemma units_wf_below s root self us :
  (root < self)%nat -> units_wf s root us -> units_below s self us.
Proof.
  intros Hlt H. unfold units_wf, units_below in *. eapply Forall_impl; [exact H|].
  intros u (out & Hout & Hb & Hle). exists out. split; [done|]. split; [done|lia].
Qed.

Lemma loop_inv_grows s s' self acc :
  grows s s' -> arena_ordered s -> loop_inv s self acc -> loop_inv s' self acc.
Proof.
  intros Hg Hord (H1 & H2 & H3 & H4). split; [done|]. split; [done|].
  split; [by eapply closed_from_grows|by eapply units_below_grows].
Qed.

(** Lines 180 to 183: merging a sub-schedule into [ret]. *)
Lemma schedule_add_fold s self sub : forall avail acc acc' s',
  fold_M schedule_add sub acc s = Ok acc' s' ->
  loop_inv s self acc ->
  closed_from s avail sub -> (forall x, x ∈ avail -> x ∈ outputs acc.1) ->
  units_below s self sub ->
  s' = s /\ loop_inv s self acc' /\
  (forall x, x ∈ outputs acc.1 -> x ∈ outputs acc'.1) /\
  (forall x, x ∈ outputs sub -> x ∈ outputs acc'.1) /\
  (forall u, u ∈ acc'.1 -> u ∈ acc.1 \/ u ∈ sub).
Proof.
  induction sub as [|u sub IH]; intros avail acc acc' s' H Hinv Hcl Hav Hub; simpl in H.
  - unfold ret in H. injection H as <- <-. split; [done|]. split; [done|].
    split; [done|]. split; [|auto]. intros x Hx. by apply elem_of_nil in Hx.
  - apply bind_Ok in H as (acc1 & s1 & Hadd & H).
    simpl in Hcl. destruct Hcl as (Hdeps & out & Hout & Hcl).
    apply Forall_cons in Hub as [(out' & Hout' & Hbase & Hlt) Hub].
    rewrite Hout in Hout'. injection Hout' as <-.
    unfold schedule_add in Hadd. unfold output in Hout.
    destruct (u.2) as [|b0 rest] eqn:Eu; [discriminate|]. simpl in Hout.
    injection Hout as ->.
    assert (Hout : output u = Some out) by (unfold output; by rewrite Eu).
    destruct Hinv as (Hseen & Hnd & Hclosed & Hbelow).
    destruct (bool_decide (out ∈ acc.2)) eqn:Ein.
    + apply bool_decide_eq_true in Ein. unfold ret in Hadd. injection Hadd as <- <-.
      eapply (IH (out :: avail)) in H as (-> & Hinv' & Hmono & Hsub & Hfrom);
        [|exact (conj Hseen (conj Hnd (conj Hclosed Hbelow)))|exact Hcl| |exact Hub].
      * split; [done|]. split; [done|]. split; [done|]. split.
        -- intros x Hx. rewrite (outputs_cons _ _ _ Hout) in Hx.
           apply elem_of_cons in Hx as [->|Hx]; [|auto].
           apply Hmono. by apply Hseen.
        -- intros u' Hu'. destruct (Hfrom u' Hu'); [auto|].
           right. by apply list_elem_of_further.
      * intros x Hx. apply elem_of_cons in Hx as [->|Hx]; [by apply Hseen|auto].
    + apply bool_decide_eq_false in Ein. unfold ret in Hadd. injection Hadd as <- <-.
      assert (Hnotin : out ∉ outputs acc.1) by (by rewrite <- Hseen).
      eapply IH in H as (-> & Hinv' & Hmono & Hsub & Hfrom); [| |exact Hcl| |done].
      * split; [done|]. split; [done|]. split.
        -- intros x Hx. apply Hmono. cbn [fst snd]. rewrite outputs_app.
           apply elem_of_app. by left.
        -- split.
           ++ intros x Hx. rewrite (outputs_cons _ _ _ Hout) in Hx.
              apply elem_of_cons in Hx as [->|Hx]; [|auto].
              apply Hmono. cbn [fst snd]. rewrite outputs_app, (outputs_cons _ _ _ Hout).
              apply elem_of_app. right. apply list_elem_of_here.
           ++ intros u' Hu'. destruct (Hfrom u' Hu') as [Hin|Hin].
              ** cbn [fst snd] in Hin. apply elem_of_app in Hin as [?|Hin]; [auto|].
                 apply list_elem_of_singleton in Hin as ->. right. apply list_elem_of_here.
              ** right. by apply list_elem_of_further.
      * unfold loop_inv. cbn [fst snd]. split; [|split; [|split]].
        -- intros x. rewrite outputs_app, (outputs_cons _ _ _ Hout).
           rewrite elem_of_cons, elem_of_app, list_elem_of_singleton, Hseen.
           tauto.
        -- rewrite outputs_app, (outputs_cons _ _ _ Hout).
           apply NoDup_app. split; [done|]. split; [|apply NoDup_singleton].
           intros x Hx Hx'. apply list_elem_of_singleton in Hx' as ->. done.
        -- apply closed_from_snoc; [done| |eauto].
           intros x Hx. destruct (Hdeps x Hx) as [Hv Hun]. split; [done|].
           intros Hu. destruct (Hun Hu) as (bx & Hbx & Hin). eauto.
        -- apply Forall_app. split; [done|]. apply Forall_singleton. eauto.
      * intros x Hx. cbn [fst snd]. rewrite outputs_app, (outputs_cons _ _ _ Hout).
        apply elem_of_app. apply elem_of_cons in Hx as [->|Hx].
        -- right. apply list_elem_of_here.
        -- left. auto.
Qed.

Lemma units_below_output s self us x :
  units_below s self us -> x ∈ outputs us -> is_base s x /\ (x < self)%nat.
Proof.
  intros Hub Hx. unfold outputs in Hx. apply list_elem_of_omap in Hx as (u & Hu & Hout).
  unfold units_below in Hub. rewrite Forall_forall in Hub.
  destruct (Hub u Hu) as (out & Hout' & Hb & Hlt).
  rewrite Hout in Hout'. injection Hout' as <-. done.
Qed.

Lemma realized_unrealized s x rz :
  realized x s = Ok rz s -> unrealized s x -> rz = None.
Proof.
  intros Hrz (b & bb & Hb & Hbb & Hn).
  apply realized_Ok in Hrz as (_ & b' & bb' & Hb' & Hbb' & _ & ->).
  rewrite Hb in Hb'. inversion Hb'; subst b'.
  rewrite Hbb in Hbb'. inversion Hbb'; subst bb'. done.
Qed.

Section ScheduleStep.

Variable fuel' : nat.
Hypothesis IHfuel : forall self s units s',
  arena_ordered s -> schedule OPT fuel' self s = Ok units s' ->
  schedule_result s self units s'.

(** The loop of lines 178 to 183 over the leaves [l]. *)
Lemma schedule_leaves self l : forall s acc acc' s',
  fold_M (schedule_leaf (schedule OPT fuel')) l acc s = Ok acc' s' ->
  arena_ordered s -> (forall x, x ∈ l -> below s self x) -> loop_inv s self acc ->
  grows s s' /\ arena_ordered s' /\ loop_inv s' self acc' /\
  (forall x, x ∈ outputs acc.1 -> x ∈ outputs acc'.1) /\
  (forall x, x ∈ l -> unrealized s' x ->
     exists bx, base_of s' x = Some bx /\ bx ∈ outputs acc'.1) /\
  (forall u, u ∈ acc'.1 -> u ∈ acc.1 \/
     exists x si sub sj, x ∈ l /\ grows s si /\ unrealized si x /\
       schedule OPT fuel' x si = Ok sub sj /\ u ∈ sub).
Proof.
  induction l as [|x l IH]; intros s acc acc' s' H Hord Hl Hinv; simpl in H.
  - unfold ret in H. injection H as <- <-. split; [apply grows_refl|].
    split; [done|]. split; [done|]. split; [done|]. split; [|auto].
    intros x Hx. by apply elem_of_nil in Hx.
  - apply bind_Ok in H as (acc1 & s1 & Hleaf & H).
    assert (Hstep : grows s s1 /\ arena_ordered s1 /\ loop_inv s1 self acc1 /\
              (forall y, y ∈ outputs acc.1 -> y ∈ outputs acc1.1) /\
              (unrealized s1 x -> exists bx, base_of s1 x = Some bx /\ bx ∈ outputs acc1.1) /\
              (forall u, u ∈ acc1.1 -> u ∈ acc.1 \/
                 exists sub sj, unrealized s x /\
                   schedule OPT fuel' x s = Ok sub sj /\ u ∈ sub)).
    { unfold schedule_leaf in Hleaf.
      apply bind_Ok in Hleaf as (rz & s2 & Hrz & Hleaf). pose proof Hrz as Hrz'.
      apply read_only_realized in Hrz' as ->.
      destruct (Hl x (list_elem_of_here _ _)) as (bx & Hbx & Hlt).
      destruct (negb (truthy rz) && negb (bool_decide (x ∈ acc.2))) eqn:Ec.
      - apply andb_true_iff in Ec as [Ez Es].
        assert (Hun : unrealized s x).
        { apply realized_Ok in Hrz as (_ & b & bb & Hb & Hbb & _ & ->).
          exists b, bb. split; [done|]. split; [done|]. by destruct (_realized bb). }
        apply bind_Ok in Hleaf as (sub & s2 & Hsub & Hleaf). pose proof Hsub as Hsched.
        apply IHfuel in Hsub as (Hg & Hord2 & b & Hb & Hwf & Hnd & Hcl & init & lastu & Hlast & Hout);
          [|done].
        rewrite Hbx in Hb. inversion Hb; subst b. clear Hb.
        eapply (schedule_add_fold s2 self sub []) in Hleaf
          as (-> & Hinv1 & Hmono & Hsubout & Hfrom);
          [|by eapply loop_inv_grows|done| |by eapply units_wf_below].
        2:{ intros y Hy. by apply elem_of_nil in Hy. }
        split; [done|]. split; [done|]. split; [done|]. split; [done|]. split.
        + intros _. exists (base bx). split.
          * rewrite (grows_base_of _ _ _ Hg (lookup_valid _ _ _ Hbx)).
            unfold base_of. by rewrite Hbx.
          * apply Hsubout. rewrite Hlast, outputs_app, (outputs_cons _ _ _ Hout).
            apply elem_of_app. right. apply list_elem_of_here.
        + intros u Hu. destruct (Hfrom u Hu); [auto|]. right. eauto 10.
      - unfold ret in Hleaf. injection Hleaf as <- <-.
        split; [apply grows_refl|]. split; [done|]. split; [done|]. split; [done|].
        split; [|auto]. intros Hun.
        rewrite (realized_unrealized _ _ _ Hrz Hun) in Ec. simpl in Ec.
        apply negb_false_iff, bool_decide_eq_true in Ec.
        destruct Hinv as (Hseen & _ & _ & Hub). apply Hseen in Ec.
        destruct (units_below_output _ _ _ _ Hub Ec) as [(b & Hb & Hbase) _].
        exists x. split; [|done]. unfold base_of. rewrite Hb. simpl. by rewrite Hbase. }
    destruct Hstep as (Hg1 & Hord1 & Hinv1 & Hmono1 & Hx1 & Hfrom1).
    apply IH in H as (Hg2 & Hord2 & Hinv2 & Hmono2 & Hl2 & Hfrom2); [|done| |done].
    2:{ intros y Hy. eapply grows_below; [done|]. apply Hl. by apply list_elem_of_further. }
    split; [eauto using grows_trans|]. split; [done|]. split; [done|].
    split; [auto|]. split.
    + intros y Hy Hun. apply elem_of_cons in Hy as [->|Hy]; [|auto].
      assert (Hv : valid s1 x).
      { eapply grows_valid; [done|]. eapply below_valid. apply Hl, list_elem_of_here. }
      apply (grows_unrealized _ _ _ Hg2 Hord1 Hv) in Hun.
      destruct (Hx1 Hun) as (bx & Hbx & Hin). exists bx.
      rewrite (grows_base_of _ _ _ Hg2 Hv). auto.
    + intros u Hu. destruct (Hfrom2 u Hu) as [Hin|(y & si & sub & sj & Hy & Hgi & Hrest)].
      * destruct (Hfrom1 u Hin) as [?|(sub & sj & Hun & Hs & Hin')]; [auto|].
        right. exists x, s, sub, sj. split; [apply list_elem_of_here|].
        split; [apply grows_refl|]. done.
      * right. exists y, si, sub, sj. split; [by apply list_elem_of_further|].
        split; [eauto using grows_trans|]. done.
Qed.

End ScheduleStep.

Lemma loop_inv_nil s self : loop_inv s self ([], []).
Proof.
  split; [done|]. split; [apply NoDup_nil_2|]. split; [done|]. apply Forall_nil_2.
Qed.

(** What [schedule] returns, whatever the budget it was given. *)
Lemma schedule_spec fuel : forall self s units s',
  arena_ordered s -> schedule OPT fuel self s = Ok units s' ->
  schedule_result s self units s'.
Proof.
  induction fuel as [|fuel' IH]; intros self s units s' Hord H; simpl in H; [discriminate|].
  apply bind_Ok in H as (b & s1 & Hb & H). apply get_Ok in Hb as [Hb ->].
  destruct (Hord _ _ Hb) as (Hle & (bb & Hbb & Hbbase) & Hleaves).
  destruct (negb (Nat.eqb (base b) self)) eqn:E.
  { apply IH in H as (Hg & Hord' & b' & Hb' & Hrest); [|done].
    rewrite Hbb in Hb'. inversion Hb'; subst b'. rewrite Hbbase in Hrest.
    split; [done|]. split; [done|]. eauto. }
  apply negb_false_iff, Nat.eqb_eq in E.
  assert (bb = b) as -> by (rewrite E, Hb in Hbb; by inversion Hbb).
  assert (Hself : is_base s self) by (by exists b).
  apply bind_Ok in H as (o & s1 & Ho & H).
  apply lb_op_Ok in Ho as (-> & b' & bb' & Hb' & Hbb' & _ & Hop).
  rewrite Hb in Hb'. inversion Hb'; subst b'. clear Hb'.
  rewrite Hbb in Hbb'. inversion Hbb'; subst bb'. clear Hbb'.
  set (op1 := if decide (op o = LoadOps.CONTIGUOUS)
              then mkLazyOp UnaryOps.NOOP (src o) ArgNone else o) in H.
  assert (Hop1 : buffers op1 = buffers o).
  { unfold op1. destruct (decide (op o = LoadOps.CONTIGUOUS)); [|done]. by destruct o. }
  destruct (in_LoadOps (op op1)).
  { unfold ret in H. injection H as <- <-.
    split; [apply grows_refl|]. split; [done|]. exists b. split; [done|]. rewrite E.
    split; [|split; [|split]].
    - apply Forall_singleton. exists self. split; [done|]. split; [done|lia].
    - apply NoDup_singleton.
    - simpl. split; [|eauto]. intros x Hx. by apply elem_of_nil in Hx.
    - by exists [], (o, [self]). }
  apply bind_Ok in H as (op2 & s1 & Habs & H).
  apply (absorption_spec s self) in Habs as (Hg1 & Hord1 & Hbelow);
    [|done|by eapply lookup_valid|].
  2:{ intros x Hx. rewrite Hop1 in Hx. eauto. }
  apply bind_Ok in H as (op3 & s2 & Hbo & H).
  apply _ast_bufferops_read_only in Hbo as ->.
  apply bind_Ok in H as (acc & s2 & Hloop & H).
  unfold ret in H. injection H as <- <-.
  eapply (schedule_leaves fuel' IH self) in Hloop
    as (Hg2 & Hord2 & Hinv & _ & Hdeps & _); [|done|done|apply loop_inv_nil].
  destruct Hinv as (_ & Hnd & Hcl & Hub).
  assert (Hg : grows s s2) by eauto using grows_trans.
  split; [done|]. split; [done|]. exists b. split; [done|]. rewrite E.
  assert (Hout : output (op3, self :: buffers op2) = Some self) by done.
  split; [|split; [|split]].
  - apply Forall_app. split.
    + eapply Forall_impl; [exact Hub|]. intros u (out & ? & ? & ?).
      exists out. split; [done|]. split; [done|lia].
    + apply Forall_singleton. exists self. split; [done|].
      split; [by eapply grows_is_base|lia].
  - rewrite outputs_app, (outputs_cons _ _ _ Hout). apply NoDup_app.
    split; [done|]. split; [|apply NoDup_singleton].
    intros x Hx Hx'. apply list_elem_of_singleton in Hx' as ->.
    destruct (units_below_output _ _ _ _ Hub Hx). lia.
  - apply closed_from_snoc; [done| |eauto].
    intros x Hx. unfold deps in Hx. simpl in Hx. split.
    + eapply grows_valid; [exact Hg2|]. eapply below_valid. eauto.
    + intros Hun. destruct (Hdeps x Hx Hun) as (bx & Hbx & Hin). eauto.
  - eauto.
Qed.

(** Closure, by positions. *)
Lemma closed_from_lookup s : forall us avail i u x,
  closed_from s avail us -> us !! i = Some u -> x ∈ deps u -> unrealized s x ->
  exists bx, base_of s x = Some bx /\
    (bx ∈ avail \/ exists j u', (j < i)%nat /\ us !! j = Some u' /\ output u' = Some bx).
Proof.
  induction us as [|u0 us IH]; intros avail i u x Hcl Hi Hx Hun; [done|].
  simpl in Hcl. destruct Hcl as (Hdeps & out & Hout & Hcl). destruct i as [|i]; simpl in Hi.
  - injection Hi as ->. destruct (Hdeps x Hx) as [_ H]. destruct (H Hun) as (bx & ? & ?).
    eauto.
  - destruct (IH _ _ _ _ Hcl Hi Hx Hun) as (bx & Hbx & [Hin|(j & u' & Hj & Hu' & Hout')]).
    + exists bx. split; [done|]. apply elem_of_cons in Hin as [->|Hin]; [|auto].
      right. exists 0%nat, u0. split; [lia|]. done.
    + exists bx. split; [done|]. right. exists (S j), u'. split; [lia|]. done.
Qed.

(** *** The recursion budget *)

Lemma bind_no_rec_at {A B} (m : M A) (k : A -> M B) s :
  m s <> Raise RecursionError ->
  (forall a s1, m s = Ok a s1 -> k a s1 <> Raise RecursionError) ->
  bind m k s <> Raise RecursionError.
Proof.
  unfold bind. intros Hm Hk. destruct (m s) as [a s1|e]; [by apply Hk|].
  intros H. inversion H; subst. by apply Hm.
Qed.

Lemma no_rec_bind {A B} (m : M A) (k : A -> M B) :
  no_rec m -> (forall a, no_rec (k a)) -> no_rec (bind m k).
Proof. intros Hm Hk s. apply bind_no_rec_at; [apply Hm|]. intros a s1 _. apply Hk. Qed.

Lemma no_rec_ret {A} (a : A) : no_rec (ret a).
Proof. intros s. discriminate. Qed.

Lemma no_rec_raise {A} e : e <> RecursionError -> no_rec (raise e : M A).
Proof. intros He s H. by inversion H. Qed.

Lemma no_rec_get x : no_rec (get x).
Proof. intros s. unfold get. by destruct (bufs s !! x). Qed.

Lemma no_rec_py_assert c msg : no_rec (py_assert c msg).
Proof. intros s. unfold py_assert. by destruct c. Qed.

Lemma no_rec_external {A} (o : option A) : no_rec (external o).
Proof. intros s. unfold external. by destruct o. Qed.

Lemma no_rec_set_buf i b : no_rec (set_buf i b).
Proof. intros s. discriminate. Qed.

Lemma no_rec_alloc mk : no_rec (alloc mk).
Proof. intros s. discriminate. Qed.

Lemma no_rec_map_M {A B} (f : A -> M B) l : (forall x, no_rec (f x)) -> no_rec (map_M f l).
Proof.
  intros Hf. induction l as [|x l IH]; simpl; [apply no_rec_ret|].
  apply no_rec_bind; [done|]. intros y. apply no_rec_bind; [done|].
  intros ys. apply no_rec_ret.
Qed.

Lemma no_rec_filter_M {A} (f : A -> M bool) l :
  (forall x, no_rec (f x)) -> no_rec (filter_M f l).
Proof.
  intros Hf. induction l as [|x l IH]; simpl; [apply no_rec_ret|].
  apply no_rec_bind; [done|]. intros y. apply no_rec_bind; [done|].
  intros ys. apply no_rec_ret.
Qed.

Lemma no_rec_fold_M {A B} (f : B -> A -> M B) l :
  (forall a x, no_rec (f a x)) -> forall acc, no_rec (fold_M f l acc).
Proof.
  intros Hf. induction l as [|x l IH]; intros acc; simpl; [apply no_rec_ret|].
  apply no_rec_bind; [done|]. intros y. apply IH.
Qed.

Lemma no_rec_for_each {A} (f : A -> M unit) l :
  (forall x, no_rec (f x)) -> no_rec (for_each l f).
Proof.
  intros Hf. induction l as [|x l IH]; simpl; [apply no_rec_ret|].
  apply no_rec_bind; [done|]. intros _. apply IH.
Qed.

Create HintDb norec.
#[local] Hint Resolve no_rec_ret no_rec_get no_rec_py_assert no_rec_external
  no_rec_set_buf no_rec_alloc : norec.
#[local] Hint Extern 1 (no_rec (raise _)) => (apply no_rec_raise; discriminate) : norec.

(** Compositions of operations that never exhaust the budget. *)
Ltac no_rec :=
  repeat first
    [ solve [auto with norec]
    | apply no_rec_bind; [|intros ?]
    | apply no_rec_map_M; intros ?
    | apply no_rec_filter_M; intros ?
    | apply no_rec_fold_M; intros ? ?
    | apply no_rec_for_each; intros ?
    | match goal with
      | |- no_rec (if ?c then _ else _) => destruct c
      | |- no_rec (match ?c with _ => _ end) => destruct c
      | |- no_rec (let _ := _ in _) => cbv zeta
      end ].

Lemma no_rec_base_attrs x : no_rec (base_attrs x).
Proof. unfold base_attrs. no_rec. Qed.
#[local] Hint Resolve no_rec_base_attrs : norec.

Lemma no_rec_lb_op x : no_rec (lb_op x).
Proof. unfold lb_op. no_rec. Qed.

Lemma no_rec_realized x : no_rec (realized x).
Proof. unfold realized. no_rec. Qed.

Lemma no_rec_children x : no_rec (children x).
Proof. unfold children. no_rec. Qed.

Lemma no_rec_is_contiguous x : no_rec (is_contiguous x).
Proof. unfold is_contiguous. no_rec. Qed.
#[local] Hint Resolve no_rec_lb_op no_rec_realized no_rec_children no_rec_is_contiguous : norec.

Lemma no_rec_children_add x self : no_rec (children_add x self).
Proof. unfold children_add. no_rec. Qed.
#[local] Hint Resolve no_rec_children_add : norec.

Lemma no_rec_LazyBuffer_init op0 st0 dt dev src0 base0 :
  no_rec (LazyBuffer_init op0 st0 dt dev src0 base0).
Proof. unfold LazyBuffer_init. no_rec. Qed.
#[local] Hint Resolve no_rec_LazyBuffer_init : norec.

Lemma no_rec_movement x a : no_rec (movement x a).
Proof. unfold movement, _movement_op. no_rec. Qed.

Lemma no_rec_reshape x a : no_rec (reshape x a).
Proof. apply no_rec_movement. Qed.
#[local] Hint Resolve no_rec_movement no_rec_reshape : norec.

Lemma no_rec__ast_reduceops t : no_rec (_ast_reduceops OPT t).
Proof. unfold _ast_reduceops. no_rec. Qed.
#[local] Hint Resolve no_rec__ast_reduceops : norec.

Lemma no_rec__ast_binaryops t shape0 : no_rec (_ast_binaryops OPT t shape0).
Proof. unfold _ast_binaryops, psrc_filter, psrc_of. no_rec. Qed.

Lemma no_rec_float_of_arg a : no_rec (float_of_arg a).
Proof.
  intros s. unfold float_of_arg, py_float.
  destruct a as [| |[n|x]| | | |]; try discriminate.
  by destruct (binary_normalize 53 1024 n 0 false).
Qed.
#[local] Hint Resolve no_rec_float_of_arg : norec.

Lemma no_rec__ast_bufferops t : no_rec (_ast_bufferops t).
Proof.
  unfold _ast_bufferops, replacements_of, base_bufs_of, bufferop_of, base_is_const.
  no_rec.
Qed.

Lemma no_rec_absorption t shape0 : no_rec (absorption OPT t shape0).
Proof. unfold absorption. pose proof (no_rec__ast_binaryops t shape0). no_rec. Qed.

Lemma no_rec_schedule_add acc item : no_rec (schedule_add acc item).
Proof. unfold schedule_add. no_rec. Qed.

Lemma fold_M_read_only {A B} (f : B -> A -> M B) l :
  (forall a x, read_only (f a x)) -> forall acc, read_only (fold_M f l acc).
Proof.
  intros Hf. induction l as [|x l IH]; intros acc; simpl; [apply read_only_ret|].
  apply read_only_bind; [done|]. intros y. apply IH.
Qed.

Lemma schedule_add_read_only acc item : read_only (schedule_add acc item).
Proof. unfold schedule_add. read_only. Qed.

Lemma schedule_leaf_grows fuel' acc x s acc1 s1 :
  arena_ordered s ->
  schedule_leaf (schedule OPT fuel') acc x s = Ok acc1 s1 ->
  grows s s1 /\ arena_ordered s1.
Proof.
  intros Hord H. unfold schedule_leaf in H.
  apply bind_Ok in H as (rz & s2 & Hrz & H). apply read_only_realized in Hrz as ->.
  destruct (negb (truthy rz) && negb (bool_decide (x ∈ acc.2))).
  - apply bind_Ok in H as (sub & s2 & Hsub & H).
    apply schedule_spec in Hsub as (Hg & Hord' & _); [|done].
    apply (fold_M_read_only _ _ schedule_add_read_only) in H as ->. done.
  - unfold ret in H. injection H as <- <-. split; [apply grows_refl|done].
Qed.

Section Budget.

Variable fuel' : nat.
Hypothesis IHfuel : forall self s b,
  arena_ordered s -> bufs s !! self = Some b ->
  (2 * base b + (if Nat.eqb (base b) self then 1 else 2) <= fuel')%nat ->
  schedule OPT fuel' self s <> Raise RecursionError.

Lemma schedule_leaves_no_rec self l : forall s acc,
  arena_ordered s -> (forall x, x ∈ l -> below s self x) -> (2 * self <= fuel')%nat ->
  fold_M (schedule_leaf (schedule OPT fuel')) l acc s <> Raise RecursionError.
Proof.
  induction l as [|x l IH]; intros s acc Hord Hl Hfuel; simpl; [discriminate|].
  apply bind_no_rec_at.
  - unfold schedule_leaf. apply bind_no_rec_at; [apply no_rec_realized|].
    intros rz s1 Hrz. apply read_only_realized in Hrz as ->.
    destruct (negb (truthy rz) && negb (bool_decide (x ∈ acc.2))); [|discriminate].
    apply bind_no_rec_at.
    + destruct (Hl x (list_elem_of_here _ _)) as (bx & Hbx & Hlt).
      eapply IHfuel; [done|done|]. destruct (Nat.eqb (base bx) x); lia.
    + intros sub s1 _. apply no_rec_fold_M. apply no_rec_schedule_add.
  - intros acc1 s1 Hleaf. apply schedule_leaf_grows in Hleaf as [Hg Hord1]; [|done].
    apply IH; [done| |done].
    intros y Hy. eapply grows_below; [done|]. apply Hl. by apply list_elem_of_further.
Qed.

End Budget.

(** A budget of twice the address of the base, and two more, is enough. *)
Lemma schedule_no_rec fuel : forall self s b,
  arena_ordered s -> bufs s !! self = Some b ->
  (2 * base b + (if Nat.eqb (base b) self then 1 else 2) <= fuel)%nat ->
  schedule OPT fuel self s <> Raise RecursionError.
Proof.
  induction fuel as [|fuel' IH]; intros self s b Hord Hb Hfuel.
  { destruct (Nat.eqb (base b) self); lia. }
  simpl. unfold bind at 1. rewrite (get_lookup _ _ _ Hb).
  destruct (Hord _ _ Hb) as (Hle & (bb & Hbb & Hbbase) & Hleaves).
  destruct (Nat.eqb (base b) self) eqn:E; simpl.
  2:{ eapply IH; [done|done|]. rewrite Hbbase, Nat.eqb_refl. lia. }
  apply Nat.eqb_eq in E.
  apply bind_no_rec_at; [apply no_rec_lb_op|]. intros o s1 Ho.
  apply lb_op_Ok in Ho as (-> & b' & bb' & Hb' & Hbb' & _ & Hop).
  rewrite Hb in Hb'. inversion Hb'; subst b'. clear Hb'.
  rewrite Hbb in Hbb'. inversion Hbb'; subst bb'. clear Hbb'.
  assert (bb = b) as -> by (rewrite E, Hb in Hbb; by inversion Hbb).
  set (op1 := if decide (op o = LoadOps.CONTIGUOUS)
              then mkLazyOp UnaryOps.NOOP (src o) ArgNone else o).
  assert (Hop1 : buffers op1 = buffers o).
  { unfold op1. destruct (decide (op o = LoadOps.CONTIGUOUS)); [|done]. by destruct o. }
  destruct (in_LoadOps (op op1)); [discriminate|].
  apply bind_no_rec_at; [apply no_rec_absorption|]. intros op2 s1 Habs.
  apply (absorption_spec s self) in Habs as (Hg1 & Hord1 & Hbelow);
    [|done|by eapply lookup_valid|].
  2:{ intros x Hx. rewrite Hop1 in Hx. eauto. }
  apply bind_no_rec_at; [apply no_rec__ast_bufferops|]. intros op3 s2 Hbo.
  apply _ast_bufferops_read_only in Hbo as ->.
  apply bind_no_rec_at; [|discriminate].
  apply (schedule_leaves_no_rec fuel' IH self); [done|done|lia].
Qed.

(** *** Every unit is the unit of its output *)

Lemma unit_of_base_grows s0 s s' s3 out u :
  grows s0 s -> grows s' s3 -> unit_of_base OPT s s' out u -> unit_of_base OPT s0 s3 out u.
Proof.
  intros H0 H3 (n & o & si & sj & Hg1 & Hg2 & Hg3 & Hrest).
  exists n, o, si, sj. split; [eauto using grows_trans|]. split; [done|].
  split; [eauto using grows_trans|]. done.
Qed.

Lemma schedule_add_Forall (P : ScheduleItem -> Prop) sub : forall acc s acc' s',
  fold_M schedule_add sub acc s = Ok acc' s' ->
  Forall P acc.1 -> Forall P sub -> s' = s /\ Forall P acc'.1.
Proof.
  induction sub as [|u sub IH]; intros acc s acc' s' H Hacc Hsub; simpl in H.
  - unfold ret in H. by injection H as <- <-.
  - apply bind_Ok in H as (acc1 & s1 & Ha & H).
    apply Forall_cons in Hsub as [Hu Hsub].
    unfold schedule_add in Ha. destruct (u.2) as [|b0 ?]; [discriminate|].
    destruct (bool_decide (b0 ∈ acc.2)); unfold ret in Ha; injection Ha as <- <-.
    + by eapply IH.
    + eapply IH; [exact H| |done]. simpl. apply Forall_app. auto.
Qed.

Lemma schedule_leaves_built fuel' l :
  (forall x si sub sj, arena_ordered si -> schedule OPT fuel' x si = Ok sub sj ->
     Forall (fun u => exists out, output u = Some out /\ unit_of_base OPT si sj out u) sub) ->
  forall s0 acc s acc' s',
    fold_M (schedule_leaf (schedule OPT fuel')) l acc s = Ok acc' s' ->
    arena_ordered s -> grows s0 s ->
    Forall (fun u => exists out, output u = Some out /\ unit_of_base OPT s0 s out u) acc.1 ->
    grows s s' /\
    Forall (fun u => exists out, output u = Some out /\ unit_of_base OPT s0 s' out u) acc'.1.
Proof.
  intros Hrec. induction l as [|x l IH]; intros s0 acc s acc' s' H Hord Hg0 Hacc; simpl in H.
  - unfold ret in H. injection H as <- <-. split; [apply grows_refl|done].
  - apply bind_Ok in H as (acc1 & s1 & Hl & H).
    pose proof (schedule_leaf_grows _ _ _ _ _ _ Hord Hl) as [Hg1 Hord1].
    assert (Hacc1 : Forall (fun u => exists out, output u = Some out /\
                                       unit_of_base OPT s0 s1 out u) acc1.1).
    { unfold schedule_leaf in Hl.
      apply bind_Ok in Hl as (rz & s2 & Hrz & Hl). apply read_only_realized in Hrz as ->.
      destruct (negb (truthy rz) && negb (bool_decide (x ∈ acc.2))).
      - apply bind_Ok in Hl as (sub & s3 & Hsub & Hl).
        pose proof (schedule_spec _ _ _ _ _ Hord Hsub) as (Hgs & _).
        pose proof (Hrec _ _ _ _ Hord Hsub) as Hbuilt.
        eapply schedule_add_Forall in Hl as [-> Hl]; [exact Hl| |].
        + eapply Forall_impl; [exact Hacc|]. intros u (out & Hout & Hu).
          exists out. split; [done|].
          eapply unit_of_base_grows; [apply grows_refl|exact Hgs|exact Hu].
        + eapply Forall_impl; [exact Hbuilt|]. intros u (out & Hout & Hu).
          exists out. split; [done|].
          eapply unit_of_base_grows; [exact Hg0|apply grows_refl|exact Hu].
      - unfold ret in Hl. by injection Hl as <- <-. }
    destruct (IH s0 _ _ _ _ H Hord1 (grows_trans _ _ _ Hg0 Hg1) Hacc1) as [Hg2 Hres].
    split; [eauto using grows_trans|done].
Qed.

Lemma schedule_units_built fuel : forall self s units s',
  arena_ordered s -> schedule OPT fuel self s = Ok units s' ->
  Forall (fun u => exists out, output u = Some out /\ unit_of_base OPT s s' out u) units.
Proof.
  induction fuel as [|fuel' IH]; intros self s units s' Hord H; simpl in H; [discriminate|].
  apply bind_Ok in H as (b & s1 & Hb & H). apply get_Ok in Hb as [Hb ->].
  destruct (Hord _ _ Hb) as (Hle & (bb & Hbb & Hbbase) & Hleaves).
  destruct (negb (Nat.eqb (base b) self)) eqn:E; [by eapply IH|].
  apply negb_false_iff, Nat.eqb_eq in E.
  assert (bb = b) as -> by (rewrite E, Hb in Hbb; by inversion Hbb).
  apply bind_Ok in H as (o & s1 & Ho & H).
  apply lb_op_Ok in Ho as (-> & b' & bb' & Hb' & Hbb' & _ & Hop).
  rewrite Hb in Hb'. inversion Hb'; subst b'. clear Hb'.
  rewrite Hbb in Hbb'. inversion Hbb'; subst bb'. clear Hbb'.
  fold (late_contiguous o) in H.
  assert (Hop1 : buffers (late_contiguous o) = buffers o).
  { unfold late_contiguous. destruct (decide (op o = LoadOps.CONTIGUOUS)); [|done].
    by destruct o. }
  destruct (in_LoadOps (op (late_contiguous o))) eqn:Eload.
  { unfold ret in H. injection H as <- <-. apply Forall_singleton.
    exists self. split; [done|]. exists b, o, s, s.
    split_and!; try done; try apply grows_refl. by rewrite Eload. }
  apply bind_Ok in H as (op2 & s1 & Habs & H).
  pose proof Habs as Habs0.
  apply (absorption_spec s self) in Habs as (Hg1 & Hord1 & Hbelow);
    [|done|by eapply lookup_valid|].
  2:{ intros x Hx. rewrite Hop1 in Hx. eauto. }
  apply bind_Ok in H as (op3 & s2 & Hbo & H).
  pose proof Hbo as Hbo0.
  apply _ast_bufferops_read_only in Hbo as ->.
  apply bind_Ok in H as (acc & s2 & Hloop & H).
  unfold ret in H. injection H as <- <-.
  eapply (schedule_leaves_built fuel' _ IH s) in Hloop as [Hg2 Hbuilt];
    [|done|done|by apply Forall_nil].
  apply Forall_app. split; [done|].
  apply Forall_singleton. exists self. split; [done|].
  exists b, o, s, s1. split_and!; try done; try apply grows_refl.
  rewrite Eload. exists op2. done.
Qed.


(** C4 (as amended): for a base whose operation is elementwise or a
    reduce, [schedule] applies the absorption rewrites and takes the leaf
    buffers of the tree they return (the leaves after absorption): the
    appended unit is the slot-resolved tree with [(root,)] followed by
    those leaves; each of those leaves that is unrealized has its base
    produced by an earlier unit, and every earlier unit comes from the
    schedule of one of those leaves that was unrealized. *)
Theorem schedule_unit_has_leaves_after_absorption fuel s root b o units s' :
  arena_ordered s ->
  bufs s !! root = Some b -> base b = root -> _op b = Some o ->
  in_ElementwiseOps (op o) || in_ReduceOps (op o) = true ->
  schedule OPT (S fuel) root s = Ok units s' ->
  exists op2 s1 op3 earlier,
    absorption OPT o (shape b) s = Ok op2 s1 /\
    _ast_bufferops op2 s1 = Ok op3 s1 /\
    units = earlier ++ [(op3, root :: buffers op2)] /\
    (forall x, x ∈ buffers op2 -> unrealized s' x ->
       exists bx u, base_of s' x = Some bx /\ u ∈ earlier /\ output u = Some bx) /\
    (forall u, u ∈ earlier ->
       exists x si sub sj, x ∈ buffers op2 /\ grows s1 si /\ unrealized si x /\
         schedule OPT fuel x si = Ok sub sj /\ u ∈ sub).
Proof.
  intros Hord Hb Hbase Hop Hcat H. simpl in H.
  unfold bind at 1 in H. rewrite (get_lookup _ _ _ Hb) in H.
  rewrite Hbase, Nat.eqb_refl in H. simpl in H.
  apply bind_Ok in H as (o' & s1 & Ho & H).
  apply lb_op_Ok in Ho as (-> & b' & bb' & Hb' & Hbb' & _ & Hop').
  rewrite Hb in Hb'. inversion Hb'; subst b'. clear Hb'.
  rewrite Hbase, Hb in Hbb'. inversion Hbb'; subst bb'. clear Hbb'.
  rewrite Hop in Hop'. inversion Hop'; subst o'. clear Hop'.
  destruct (decide (op o = LoadOps.CONTIGUOUS)) as [Hc|_].
  { rewrite Hc in Hcat. discriminate. }
  destruct (in_LoadOps (op o)) eqn:El.
  { destruct (op o); discriminate. }
  apply bind_Ok in H as (op2 & s1 & Habs & H). pose proof Habs as Habs'.
  apply (absorption_spec s root) in Habs' as (Hg1 & Hord1 & Hbelow);
    [|done|by eapply lookup_valid|].
  2:{ intros x Hx. destruct (Hord _ _ Hb) as (_ & _ & H3). eauto. }
  apply bind_Ok in H as (op3 & s2 & Hbo & H). pose proof Hbo as Hbo'.
  apply _ast_bufferops_read_only in Hbo' as ->.
  apply bind_Ok in H as (acc & s2 & Hloop & H).
  unfold ret in H. injection H as <- <-.
  eapply (schedule_leaves fuel (schedule_spec fuel) root) in Hloop
    as (_ & _ & _ & _ & Hdeps & Hfrom); [|done|done|apply loop_inv_nil].
  exists op2, s1, op3, acc.1. split; [done|]. split; [done|]. split; [done|]. split.
  - intros x Hx Hun. destruct (Hdeps x Hx Hun) as (bx & Hbx & Hin).
    unfold outputs in Hin. apply list_elem_of_omap in Hin as (u & Hu & Hout). eauto.
  - intros u Hu. destruct (Hfrom u Hu) as [Hin|?]; [|done].
    by apply elem_of_nil in Hin.
Qed.

(** ** The realizer *)

Context {BE : Backend}.

Lemma keeps_bases_refl s : keeps_bases s s.
Proof. intros i b Hb. eauto. Qed.

Lemma keeps_bases_trans s1 s2 s3 :
  keeps_bases s1 s2 -> keeps_bases s2 s3 -> keeps_bases s1 s3.
Proof.
  intros H1 H2 i b Hb. destruct (H1 i b Hb) as (b' & Hb' & Hbase).
  destruct (H2 i b' Hb') as (b'' & Hb'' & Hbase'). exists b''. split; [done|congruence].
Qed.

Lemma grows_keeps_bases s s' : grows s s' -> keeps_bases s s'.
Proof.
  intros (_ & _ & H) i b Hb. destruct (H i b Hb) as (b' & Hb' & Hsame).
  exists b'. split; [done|]. by destruct Hsame as (_ & _ & _ & <- & _).
Qed.

Lemma evolving_read_only {A} (m : M A) : read_only m -> evolving m.
Proof. intros Hm s a s' H. apply Hm in H as ->. apply keeps_bases_refl. Qed.

Lemma evolving_bind {A B} (m : M A) (k : A -> M B) :
  evolving m -> (forall a, evolving (k a)) -> evolving (bind m k).
Proof.
  intros Hm Hk s b s' H. apply bind_Ok in H as (a & s1 & Ha & H).
  eapply keeps_bases_trans; [by eapply Hm|by eapply Hk].
Qed.

Lemma evolving_ret {A} (a : A) : evolving (ret a).
Proof. apply evolving_read_only, read_only_ret. Qed.

Lemma evolving_raise {A} e : evolving (raise e : M A).
Proof. apply evolving_read_only, read_only_raise. Qed.

Lemma evolving_external {A} (o : option A) : evolving (external o).
Proof. intros s a s' H. apply external_Ok in H as [_ ->]. apply keeps_bases_refl. Qed.

Lemma evolving_get_state : evolving get_state.
Proof. intros s a s' H. inversion H. apply keeps_bases_refl. Qed.

Lemma evolving_log c : evolving (log c).
Proof. intros s a s' H. inversion H. intros i b Hb. eauto. Qed.

Lemma evolving_LazyBuffer_init op0 st0 dt dev src0 base0 :
  evolving (LazyBuffer_init op0 st0 dt dev src0 base0).
Proof.
  intros s a s' H. apply LazyBuffer_init_Ok in H as (_ & _ & Hg & _).
  by apply grows_keeps_bases.
Qed.

Lemma set_realized_Ok x val s u s' :
  set_realized x val s = Ok u s' ->
  exists b, bufs s !! x = Some b /\ base b = x /\
    s' = mkState (<[x := mkLazyBuffer (st b) (dtype b) (device b) (base b) val
                            (_children b) (_op b)]> (bufs s)) (calls s).
Proof.
  unfold set_realized. intros H.
  apply bind_Ok in H as (b & s1 & Hb & H). apply get_Ok in Hb as [Hb ->].
  apply bind_Ok in H as (? & s1 & Ha & H). apply py_assert_Ok in Ha as [Ha ->].
  apply Nat.eqb_eq in Ha. inversion H. eauto.
Qed.

Lemma evolving_set_realized x val : evolving (set_realized x val).
Proof.
  intros s u s' H. apply set_realized_Ok in H as (b & Hb & Hbase & ->).
  intros i n Hn. simpl. destruct (decide (i = x)) as [->|Hne].
  - rewrite list_lookup_insert_eq by (by eapply lookup_lt_Some).
    eexists. split; [done|]. rewrite Hb in Hn. by inversion Hn.
  - rewrite list_lookup_insert_ne by done. eauto.
Qed.

Lemma evolving_map_M {A B} (f : A -> M B) l : (forall x, evolving (f x)) -> evolving (map_M f l).
Proof.
  intros Hf. induction l as [|x l IH]; simpl; [apply evolving_ret|].
  apply evolving_bind; [done|]. intros y. apply evolving_bind; [done|].
  intros ys. apply evolving_ret.
Qed.

Lemma evolving_filter_M {A} (f : A -> M bool) l :
  (forall x, evolving (f x)) -> evolving (filter_M f l).
Proof.
  intros Hf. induction l as [|x l IH]; simpl; [apply evolving_ret|].
  apply evolving_bind; [done|]. intros y. apply evolving_bind; [done|].
  intros ys. apply evolving_ret.
Qed.

Lemma evolving_fold_M {A B} (f : B -> A -> M B) l :
  (forall a x, evolving (f a x)) -> forall acc, evolving (fold_M f l acc).
Proof.
  intros Hf. induction l as [|x l IH]; intros acc; simpl; [apply evolving_ret|].
  apply evolving_bind; [done|]. intros y. apply IH.
Qed.

Lemma evolving_for_each {A} (f : A -> M unit) l :
  (forall x, evolving (f x)) -> evolving (for_each l f).
Proof.
  intros Hf. induction l as [|x l IH]; simpl; [apply evolving_ret|].
  apply evolving_bind; [done|]. intros _. apply IH.
Qed.

Create HintDb evolving.
#[local] Hint Resolve evolving_ret evolving_raise evolving_external evolving_get_state
  evolving_log evolving_LazyBuffer_init evolving_set_realized : evolving.
#[local] Hint Extern 2 (evolving _) =>
  (apply evolving_read_only; solve [read_only]) : evolving.

(** Compositions of operations that keep nodes and bases. *)
Ltac evolving :=
  repeat first
    [ solve [auto with evolving]
    | apply evolving_bind; [|intros ?]
    | apply evolving_map_M; intros ?
    | apply evolving_filter_M; intros ?
    | apply evolving_fold_M; intros ? ?
    | apply evolving_for_each; intros ?
    | match goal with
      | |- evolving (if ?c then _ else _) => destruct c
      | |- evolving (match ?c with _ => _ end) => destruct c
      | |- evolving (let _ := _ in _) => cbv zeta
      end ].

Lemma evolving_movement x a : evolving (movement x a).
Proof. unfold movement, _movement_op. evolving. Qed.

Lemma evolving_reshape x a : evolving (reshape x a).
Proof. apply evolving_movement. Qed.
#[local] Hint Resolve evolving_movement evolving_reshape : evolving.

Lemma evolving_e x op0 srcs arg0 : evolving (e OPT x op0 srcs arg0).
Proof. unfold e, e_inlines. evolving. Qed.

Lemma evolving_contiguous x : evolving (contiguous x).
Proof. unfold contiguous. evolving. Qed.
#[local] Hint Resolve evolving_e evolving_contiguous : evolving.

Lemma evolving__ast_binaryops t shape0 : evolving (_ast_binaryops OPT t shape0).
Proof.
  unfold _ast_binaryops.
  pose proof (fun t => evolving_read_only _ (_ast_reduceops_read_only t)).
  pose proof (fun k x => evolving_read_only _ (psrc_filter_read_only k x)).
  pose proof (fun k x => evolving_read_only _ (psrc_of_read_only k x)).
  evolving.
Qed.

Lemma evolving_absorption t shape0 : evolving (absorption OPT t shape0).
Proof.
  unfold absorption. pose proof (evolving__ast_binaryops t shape0).
  pose proof (evolving_read_only _ (_ast_reduceops_read_only t)). evolving.
Qed.

Lemma evolving_schedule fuel : forall x, evolving (schedule OPT fuel x).
Proof.
  induction fuel as [|fuel' IH]; intros x; simpl; [apply evolving_raise|].
  pose proof (fun t => evolving_read_only _ (_ast_bufferops_read_only t)).
  pose proof evolving_absorption.
  pose proof (fun acc item => evolving_read_only _ (schedule_add_read_only acc item)).
  unfold schedule_leaf. evolving.
Qed.

Lemma materializes_set_realized x rb : materializes x (set_realized x (Some rb)).
Proof.
  intros s u s' H. split; [by eapply evolving_set_realized|].
  apply set_realized_Ok in H as (b & Hb & Hbase & ->). simpl.
  eexists _, rb. rewrite list_lookup_insert_eq by (by eapply lookup_lt_Some). done.
Qed.

Lemma materializes_bind {A B} x (m : M A) (k : A -> M B) :
  evolving m -> (forall a, materializes x (k a)) -> materializes x (bind m k).
Proof.
  intros Hm Hk s b s' H. apply bind_Ok in H as (a & s1 & Ha & H).
  destruct (Hk a _ _ _ H) as [Hkb Hrest]. split; [|done].
  eapply keeps_bases_trans; [by eapply Hm|done].
Qed.

Lemma materializes_raise {A} x e : materializes x (raise e : M A).
Proof. intros s a s' H. discriminate. Qed.

Section Handlers.

Variable realize_rec : Ref -> M Ref.
Hypothesis realize_rec_evolving : forall x, evolving (realize_rec x).

Lemma evolving_toCPU x : evolving (toCPU OPT realize_rec x).
Proof. unfold toCPU. evolving. Qed.

Lemma evolving__device_extra_args x : evolving (_device_extra_args x).
Proof. unfold _device_extra_args. evolving. Qed.

(** The handlers end with an assignment to the slot of their buffer. *)
Ltac materializes :=
  repeat first
    [ apply materializes_set_realized
    | apply materializes_raise
    | apply materializes_bind;
        [first [ apply evolving_toCPU | apply evolving__device_extra_args
               | solve [evolving] ]
        |intros ?]
    | match goal with
      | |- materializes _ (if ?c then _ else _) => destruct c
      | |- materializes _ (match ?c with _ => _ end) => destruct c
      end ].

Lemma materializes_LOAD_OPS_DISPATCHER kind buffer :
  materializes buffer (LOAD_OPS_DISPATCHER OPT realize_rec kind buffer).
Proof.
  unfold LOAD_OPS_DISPATCHER, _realize_custom, _realize_from, _realize_empty,
    _realize_const, _realize_rand, float_of_arg.
  destruct kind; materializes.
Qed.

(** Executing a unit materializes its output. *)
Lemma realize_unit_materializes self item s u s' :
  realize_unit OPT realize_rec self item s = Ok u s' ->
  keeps_bases s s' /\
  exists out n rb, output item = Some out /\ bufs s' !! out = Some n /\
                   base n = out /\ _realized n = Some rb.
Proof.
  unfold realize_unit, output. intros H.
  assert (Hload : forall kind,
            match item.2 with
            | [] => raise IndexError
            | b0 :: _ => log (LoadCall kind b0) ;;;
                         LOAD_OPS_DISPATCHER OPT realize_rec kind b0
            end s = Ok u s' ->
            keeps_bases s s' /\
            exists out n rb, head item.2 = Some out /\ bufs s' !! out = Some n /\
                             base n = out /\ _realized n = Some rb).
  { intros kind Hk. destruct (item.2) as [|b0 rest]; [discriminate|].
    assert (Hm : materializes b0 (log (LoadCall kind b0) ;;;
                                  LOAD_OPS_DISPATCHER OPT realize_rec kind b0)).
    { apply materializes_bind; [apply evolving_log|]. intros _.
      apply materializes_LOAD_OPS_DISPATCHER. }
    destruct (Hm _ _ _ Hk) as (Hkb & n & rb & Hn). split; [done|]. exists b0, n, rb. done. }
  assert (Hexec :
            (args <- filter_M buf_is_kernel_arg (tail item.2) ;;
             rzs <- map_M realized args ;;
             let realized_bufs := dedup (omap id rzs) in
             match item.2 with
             | [] => raise IndexError
             | b0 :: _ =>
                 out <- get b0 ;;
                 extra <- _device_extra_args self ;;
                 log (ExecAst item.1 b0 realized_bufs) ;;;
                 s0 <- get_state ;;
                 rb <- external (exec_ast s0 (device out) item.1 out realized_bufs extra) ;;
                 set_realized b0 (Some rb)
             end) s = Ok u s' ->
            keeps_bases s s' /\
            exists out n rb, head item.2 = Some out /\ bufs s' !! out = Some n /\
                             base n = out /\ _realized n = Some rb).
  { intros Hk. destruct (item.2) as [|b0 rest]; simpl in Hk.
    - apply bind_Ok in Hk as (? & ? & _ & Hk). apply bind_Ok in Hk as (? & ? & _ & Hk).
      discriminate.
    - assert (Hm : materializes b0
          (args <- filter_M buf_is_kernel_arg rest ;;
           rzs <- map_M realized args ;;
           out <- get b0 ;;
           extra <- _device_extra_args self ;;
           log (ExecAst item.1 b0 (dedup (omap id rzs))) ;;;
           s0 <- get_state ;;
           rb <- external (exec_ast s0 (device out) item.1 out (dedup (omap id rzs)) extra) ;;
           set_realized b0 (Some rb))).
      { unfold buf_is_kernel_arg. materializes. }
      destruct (Hm _ _ _ Hk) as (Hkb & n & rb & Hn). split; [done|].
      exists b0, n, rb. done. }
  destruct (op item.1) as [kind| | | | |]; [by apply (Hload kind)|by apply Hexec..].
Qed.

Lemma evolving_realize_unit self item : evolving (realize_unit OPT realize_rec self item).
Proof. intros s u s' H. by apply realize_unit_materializes in H as [? _]. Qed.

End Handlers.

Lemma realize_S fuel' self :
  realize OPT (S fuel') self =
    (rz <- realized self ;;
     if truthy rz then ret self else
     units <- schedule OPT (S fuel') self ;;
     for_each units (realize_unit OPT (realize OPT fuel') self) ;;;
     ret self).
Proof. reflexivity. Qed.

Lemma evolving_realize fuel : forall x, evolving (realize OPT fuel x).
Proof.
  induction fuel as [|fuel' IH]; intros x; [apply evolving_raise|].
  rewrite realize_S.
  pose proof (evolving_schedule (S fuel')).
  pose proof (evolving_realize_unit _ IH). evolving.
Qed.

Lemma for_each_app {A} (f : A -> M unit) l1 l2 s u s' :
  for_each (l1 ++ l2) f s = Ok u s' ->
  exists s1, for_each l1 f s = Ok tt s1 /\ for_each l2 f s1 = Ok u s'.
Proof.
  revert s. induction l1 as [|x l1 IH]; intros s H; simpl in *.
  - by exists s.
  - apply bind_Ok in H as (? & s0 & Hx & H). apply IH in H as (s1 & H1 & H2).
    exists s1. split; [|done]. unfold bind. by rewrite Hx.
Qed.

(** The last unit of a schedule produces the base. *)
Lemma schedule_last_output fuel : forall self s units s' b bb,
  bufs s !! self = Some b -> bufs s !! base b = Some bb -> base bb = base b ->
  schedule OPT fuel self s = Ok units s' ->
  exists init lastu, units = init ++ [lastu] /\ output lastu = Some (base b).
Proof.
  induction fuel as [|fuel' IH]; intros self s units s' b bb Hb Hbb Hbase H; simpl in H;
    [discriminate|].
  unfold bind at 1 in H. rewrite (get_lookup _ _ _ Hb) in H.
  destruct (Nat.eqb (base b) self) eqn:E; simpl in H.
  2:{ rewrite <- Hbase. eapply (IH (base b) s units s' bb bb); eauto.
      by rewrite Hbase. }
  apply Nat.eqb_eq in E.
  apply bind_Ok in H as (o & s1 & _ & H).
  match type of H with
  | (if ?c then _ else _) _ = _ => destruct c
  end.
  - unfold ret in H. injection H as <- <-. exists [], (o, [self]). by rewrite E.
  - apply bind_Ok in H as (op2 & s2 & _ & H).
    apply bind_Ok in H as (op3 & s3 & _ & H).
    apply bind_Ok in H as (acc & s4 & _ & H).
    unfold ret in H. injection H as <- <-.
    exists acc.1, (op3, self :: buffers op2). by rewrite E.
Qed.

Lemma realize_materialized root s rb fuel :
  realized root s = Ok (Some rb) s -> realize OPT (S fuel) root s = Ok root s.
Proof. intros H. rewrite realize_S. unfold bind. by rewrite H. Qed.

(** X7: [realize] is a no-op on a buffer whose materialized slot is set:
    it returns the buffer and leaves the state, the log of backend calls
    included, as it is.  After a [realize] that returned, the slot of the
    buffer is set; so a second [realize], with any budget, returns the
    same buffer, performs no backend call and leaves the materialized
    result in place. *)
Theorem realize_twice_is_realize_once fuel s root r1 s1 :
  realize OPT fuel root s = Ok r1 s1 ->
  r1 = root /\
  (exists rb, realized root s1 = Ok (Some rb) s1) /\
  (forall fuel2, realize OPT (S fuel2) root s1 = Ok root s1) /\
  (forall s0 rb fuel0, realized root s0 = Ok (Some rb) s0 ->
     realize OPT (S fuel0) root s0 = Ok root s0).
Proof.
  intros H.
  assert (Hmain : r1 = root /\ exists rb, realized root s1 = Ok (Some rb) s1).
  { destruct fuel as [|fuel']; [discriminate|]. rewrite realize_S in H.
    apply bind_Ok in H as (rz & s2 & Hrz & H). pose proof Hrz as Hrz'.
    apply read_only_realized in Hrz' as ->.
    destruct (truthy rz) eqn:Et.
    { destruct rz as [rb|]; [|discriminate].
      unfold ret in H. injection H as <- <-. eauto. }
    apply bind_Ok in H as (units & sa & Hsched & H).
    apply bind_Ok in H as (? & sb & Hloop & H).
    unfold ret in H. injection H as <- <-. split; [done|].
    apply realized_Ok in Hrz as (_ & b & bb & Hb & Hbb & Hbase & _).
    destruct (schedule_last_output _ _ _ _ _ _ _ Hb Hbb Hbase Hsched)
      as (init & lastu & -> & Hout).
    apply for_each_app in Hloop as (sc & Hinit & Hlast). simpl in Hlast.
    apply bind_Ok in Hlast as (? & sd & Hunit & Hlast).
    unfold ret in Hlast. injection Hlast as _ <-.
    pose proof (evolving_schedule _ _ _ _ _ Hsched) as Hk1.
    pose proof (evolving_for_each _ _
                  (evolving_realize_unit _ (evolving_realize fuel') root) _ _ _ Hinit) as Hk2.
    apply (realize_unit_materializes _ (evolving_realize fuel')) in Hunit
      as (Hk3 & out & n & rb & Hout' & Hn & Hnb & Hnr).
    rewrite Hout in Hout'. injection Hout' as <-.
    destruct (keeps_bases_trans _ _ _ Hk1 (keeps_bases_trans _ _ _ Hk2 Hk3) _ _ Hb)
      as (b1 & Hb1 & Hbase1).
    exists rb. apply realized_Ok. split; [done|]. exists b1, n.
    rewrite Hbase1. split; [done|]. split; [done|]. split; [done|]. done. }
  destruct Hmain as (-> & rb & Hrb). split; [done|]. split; [eauto|].
  split; [intros fuel2; by eapply realize_materialized|].
  intros s0 rb0 fuel0. apply realize_materialized.
Qed.

(** ** Further properties of the rewriters *)

Lemma op_map_buffers d t : op (map_buffers d t) = op t /\ arg (map_buffers d t) = arg t.
Proof. by destruct t. Qed.

(** X1: [_ast_reduceops] only reads the state and returns the operation
    with its opcode and argument and exactly one source, whatever the
    number of sources it had: the first one.  That source, a buffer, is
    replaced by the operation of its base exactly when the base holds no
    materialized result, merging is on ([OPT >= 1]), that operation is
    elementwise and the base has at most one consumer. *)
Theorem _ast_reduceops_merges_a_single_use_elementwise_source t s t' s' :
  _ast_reduceops OPT t s = Ok t' s' ->
  s' = s /\ op t' = op t /\ arg t' = arg t /\
  exists x rest b bb,
    src t = inr x :: rest /\
    bufs s !! x = Some b /\ bufs s !! base b = Some bb /\
    match _realized bb with
    | Some _ => src t' = [inr x]
    | None =>
        exists o, _op bb = Some o /\
          src t' = [if (1 <=? OPT) && in_ElementwiseOps (op o)
                       && (length (_children bb) <=? 1)%nat
                    then inl o else inr x]
    end.
Proof.
  unfold _ast_reduceops. intros H.
  destruct (src t) as [|[o0|x] rest] eqn:Hsrc; [discriminate H|discriminate H|].
  apply bind_Ok in H as (rz & s1 & Hrz & H).
  apply realized_Ok in Hrz as (-> & b & bb & Hb & Hbb & Hbase & ->).
  destruct (_realized bb) as [rb|] eqn:Hreal; simpl in H.
  { unfold ret in H. injection H as <- <-. split_and!; try done.
    exists x, rest, b, bb. by rewrite Hreal. }
  apply bind_Ok in H as (o & s1 & Ho & H).
  apply lb_op_Ok in Ho as (-> & b1 & bb1 & Hb1 & Hbb1 & _ & Hop).
  rewrite Hb in Hb1. injection Hb1 as <-.
  rewrite Hbb in Hbb1. injection Hbb1 as <-.
  unfold MERGE_ELEMENTWISE_INTO_REDUCE in H.
  destruct ((1 <=? OPT) && in_ElementwiseOps (op o)) eqn:E.
  - apply bind_Ok in H as (ch & s1 & Hch & H).
    apply children_Ok in Hch as (-> & b1 & bb1 & Hb1 & Hbb1 & _ & ->).
    rewrite Hb in Hb1. injection Hb1 as <-.
    rewrite Hbb in Hbb1. injection Hbb1 as <-.
    destruct (length (_children bb) <=? 1)%nat eqn:E1;
      unfold ret in H; injection H as <- <-; split_and!; try done;
      exists x, rest, b, bb; rewrite Hreal; split_and!; try done;
      exists o; by rewrite E, E1.
  - unfold ret in H. injection H as <- <-. split_and!; try done.
    exists x, rest, b, bb. rewrite Hreal. split_and!; try done.
    exists o. by rewrite E.
Qed.

(** A dictionary that maps every leaf of [t] to an operation substitutes
    as [with_leaves] does. *)
Lemma map_buffers_with_leaves (repl : PyDict Src) (d : Ref -> LazyOp) t :
  (forall x, x ∈ buffers t -> dict_get x repl = Some (inl (d x))) ->
  map_buffers repl t = with_leaves d t.
Proof.
  induction t as [o srcs a IH] using LazyOp_ind'. intros Hd.
  simpl. f_equal. apply map_ext_in. intros y Hy. apply list_elem_of_In in Hy.
  rewrite Forall_forall in IH. specialize (IH y Hy).
  destruct y as [o'|x]; simpl in *.
  - f_equal. apply IH. intros x Hx. apply Hd.
    apply (buffers_mkLazyOp o srcs a). exists (inl o'). done.
  - rewrite Hd; [done|].
    apply (buffers_mkLazyOp o srcs a). exists (inr x). split; [done|].
    simpl. apply list_elem_of_here.
Qed.

(** X2: when buffer-slot resolution returns, it has only read the state,
    and the tree it returns is the given one with every leaf buffer
    replaced by a descriptor of that leaf, [CONST] or [MEM] with a slot of
    at least 1, and nothing else changed: the operations, their arguments
    and the order of their sources are kept.  No buffer is left among the
    leaves. *)
Theorem _ast_bufferops_leaves_no_buffer t s t' s' :
  _ast_bufferops t s = Ok t' s' ->
  s' = s /\ op t' = op t /\ arg t' = arg t /\ buffers t' = [] /\
  exists d, t' = with_leaves d t /\
    forall x, x ∈ buffers t ->
      exists b, bufs s !! x = Some b /\
        ((exists y, d x = const_descriptor y b) \/
         (exists k, 1 <= k /\ d x = mem_descriptor k b)).
Proof.
  unfold _ast_bufferops. intros H.
  apply bind_Ok in H as (repl & s1 & Hd & H). unfold ret in H. injection H as <- <-.
  unfold replacements_of in Hd.
  apply bind_Ok in Hd as (bb & s2 & Hbb & Hd).
  apply base_bufs_of_Ok in Hbb as (-> & _ & _).
  apply fold_replacements in Hd as (-> & Hin & _).
  split; [done|]. split; [apply op_map_buffers|]. split; [apply op_map_buffers|].
  split.
  { apply elem_of_nil_inv. intros x' Hx'.
    apply buffers_map_buffers in Hx' as (x & Hx & Hm).
    destruct (Hin x Hx) as (o & Ho & Hget). rewrite Hget in Hm. simpl in Hm.
    apply bufferop_of_Ok in Ho
      as (_ & b & o0 & _ & _ & [(_ & v & y & _ & _ & ->)|(_ & _ & ->)]);
      simpl in Hm; by apply elem_of_nil in Hm. }
  set (d := fun x => match dict_get x repl with
                     | Some (inl o) => o
                     | _ => mkLazyOp BufferOps.MEM [] ArgNone
                     end).
  exists d. split.
  - apply map_buffers_with_leaves. intros x Hx.
    destruct (Hin x Hx) as (o & _ & Hget). unfold d. by rewrite Hget.
  - intros x Hx. destruct (Hin x Hx) as (o & Ho & Hget).
    unfold d. rewrite Hget.
    apply bufferop_of_Ok in Ho
      as (_ & b & o0 & Hb & _ & [(_ & v & y & _ & _ & ->)|(_ & Hmem & ->)]).
    + exists b. split; [done|]. left. eauto.
    + exists b. split; [done|]. right. eexists. split; [|done].
      destruct (index_lookup _ _ Hmem) as [H0 _]. lia.
Qed.

(** ** Further properties of the reductions *)

Lemma candidates_nil sh : forall k new_sh strides,
  length new_sh = length sh -> length strides = length sh ->
  candidates k sh new_sh strides = [] -> sh = new_sh.
Proof.
  induction sh as [|old sh IH]; intros k [|new new_sh] [|stride0 strides] Hl1 Hl2 H;
    simpl in *; try done.
  destruct (old =? new) eqn:E; [|discriminate].
  apply Z.eqb_eq in E as ->. f_equal. eapply IH; [| |exact H]; lia.
Qed.

(** X3: when the shape, the target shape and the strides have the same
    number of dimensions, the [max] of line 144 is never taken over an
    empty generator: a ratio of at least 32768 means that some dimension
    is reduced. *)
Theorem reduce_plan_never_takes_the_max_of_nothing sh new_sh strides :
  length new_sh = length sh -> length strides = length sh ->
  reduce_plan sh new_sh strides <> inl ValueError.
Proof.
  intros Hl1 Hl2. unfold reduce_plan.
  destruct (prod new_sh =? 0) eqn:E0; [discriminate|].
  destruct (prod sh / prod new_sh <? 32768) eqn:E1; [discriminate|].
  destruct (candidates 0 sh new_sh strides) as [|c cs] eqn:Ec.
  - apply candidates_nil in Ec; [|done|done]. subst new_sh.
    apply Z.eqb_neq in E0. apply Z.ltb_ge in E1.
    rewrite Z.div_same in E1 by done. lia.
  - destruct (py_max cand_gtb c cs) as [[h d] i].
    by destruct ((d <? 16) || Qltb h (1 # 10)).
Qed.

Lemma heuristic_of_bound divisor stride0 :
  0 < divisor -> (1 # 10 <= heuristic_of divisor stride0)%Q ->
  exists k, stride0 = Some k /\ 0 < k <= 10 * divisor.
Proof.
  intros Hd H. destruct stride0 as [k|]; simpl in H; [|by compute in H].
  exists k. split; [done|].
  destruct k as [|p|p]; simpl in H.
  - by compute in H.
  - unfold Qle, Qdiv, Qmult, Qinv in H. simpl in H. lia.
  - unfold Qle, Qdiv, Qmult, Qinv in H. simpl in H. lia.
Qed.

(** X4: when [r] takes the two-pass path, the divisor is one of 16, 32,
    64, 128 and 256 and divides the dimension that is split, the stride of
    that dimension is positive and at most ten times the divisor, and the
    shape that the buffer is first reshaped to has as many elements as the
    shape it had. *)
Theorem reduce_plan_split_is_sound sh new_sh strides divisor dim :
  reduce_plan sh new_sh strides = inr (Split divisor dim) ->
  divisor ∈ [16; 32; 64; 128; 256] /\
  exists old stride0,
    sh !! dim = Some old /\ (divisor | old) /\
    strides !! dim = Some (Some stride0) /\ 0 < stride0 <= 10 * divisor /\
    exists l, ints (splitted_shape sh divisor dim [divisor]) = Some l /\
              prod l = prod sh.
Proof.
  intros H.
  apply reduce_plan_Split in H
    as (_ & _ & old & new & stride0 & Hold & _ & Hstride & _ & -> & H16 & Hh & _).
  pose proof (gcd_256_le old) as H256.
  pose proof (Z.gcd_divide_l 256 old) as [k Hk].
  pose proof (Z.gcd_divide_r 256 old) as Hdiv.
  set (d := Z.gcd 256 old) in *.
  split.
  { assert (1 <= k <= 16) as Hkr by nia.
    assert (k = 1 \/ k = 2 \/ k = 3 \/ k = 4 \/ k = 5 \/ k = 6 \/ k = 7 \/ k = 8 \/
            k = 9 \/ k = 10 \/ k = 11 \/ k = 12 \/ k = 13 \/ k = 14 \/ k = 15 \/ k = 16)
      as Hcases by lia.
    assert (d = 16 \/ d = 32 \/ d = 64 \/ d = 128 \/ d = 256) as Hd.
    { repeat (destruct Hcases as [->|Hcases]; [lia|]). subst k. lia. }
    repeat (destruct Hd as [->|Hd];
            [repeat first [apply list_elem_of_here|apply list_elem_of_further]|]).
    rewrite Hd. repeat first [apply list_elem_of_here|apply list_elem_of_further]. }
  destruct (heuristic_of_bound d stride0) as (st0 & -> & Hst0); [lia|done|].
  exists old, st0. split; [done|]. split; [done|]. split; [done|]. split; [done|].
  destruct (splitted_shape_spec sh d dim old [d] Hold) as (Heq & _ & Hprod); [lia|done|].
  rewrite Heq, ints_map_SInt. eexists. split; [done|].
  replace (prod [d]) with d in Hprod by (unfold prod; simpl; lia).
  apply (Z.mul_cancel_r _ _ d); [lia|done].
Qed.

(** X5: reducing the result of [_reduce_op] to the same shape again
    returns that very node and leaves the state alone, whatever the
    operator, provided a view made from a shape has that shape. *)
Theorem _reduce_op_twice_is_once x op0 op1 a s r0 s' :
  (forall sh, st_shape (from_shape sh) = sh) ->
  _reduce_op x op0 a s = Ok r0 s' ->
  (exists n, bufs s' !! r0 = Some n /\ shape n = a) /\
  _reduce_op r0 op1 a s' = Ok r0 s'.
Proof.
  intros Hshape H.
  assert (exists n, bufs s' !! r0 = Some n /\ shape n = a) as (n & Hn & Hsh).
  { pose proof H as H0. unfold _reduce_op in H.
    apply bind_Ok in H as (b & s1 & Hg & H). apply get_Ok in Hg as [Hb ->].
    destruct (decide (shape b = a)) as [Heq|Hne].
    - unfold ret in H. injection H as <- <-. eauto.
    - destruct (_reduce_op_new _ _ _ _ _ _ _ Hb Hne H0)
        as (_ & _ & _ & n & Hn & Hst & _).
      exists n. split; [done|]. unfold shape. by rewrite Hst. }
  split; [eauto|].
  unfold _reduce_op, bind. rewrite (get_lookup _ _ _ Hn).
  by destruct (decide (shape n = a)).
Qed.

(** ** Further properties of the constructors *)

(** X6: [contiguous] applied to its own result returns that very node and
    leaves the state alone, provided a view made from a shape is
    contiguous. *)
Theorem contiguous_twice_is_once x s c s' :
  (forall sh, st_contiguous (from_shape sh) = true) ->
  contiguous x s = Ok c s' ->
  is_contiguous c s' = Ok true s' /\ contiguous c s' = Ok c s'.
Proof.
  intros Hcont H.
  assert (is_contiguous c s' = Ok true s') as Hc.
  { unfold contiguous in H.
    apply bind_Ok in H as (c0 & s1 & Hc0 & H).
    pose proof (read_only_is_contiguous _ _ _ _ Hc0) as ->.
    destruct c0.
    - unfold ret in H. by injection H as <- <-.
    - apply bind_Ok in H as (b & s1 & Hg & H). apply get_Ok in Hg as [Hb ->].
      apply LazyBuffer_init_Ok in H as (-> & _ & _ & n & Hn & Hsame).
      destruct Hsame as (Hst & _ & _ & Hbase & _). simpl in Hst, Hbase.
      unfold is_contiguous, bind. rewrite (get_lookup _ _ _ Hn).
      rewrite <- Hst, Hcont, <- Hbase, (get_lookup _ _ _ Hn).
      unfold ret. rewrite <- Hst. by rewrite Z.eqb_refl. }
  split; [done|]. unfold contiguous, bind. by rewrite Hc.
Qed.
(** X8: the buffer that [fromCPU] makes holds its materialized result
    from the start and was given no operation: no backend call is made,
    reading [realized] gives the host data, reading [op] or scheduling the
    buffer raises [AttributeError], and [realize] returns it at once. *)
Theorem fromCPU_is_realized_and_has_no_op x s r0 s' :
  fromCPU x s = Ok r0 s' ->
  r0 = length (bufs s) /\ calls s' = calls s /\
  realized r0 s' = Ok (Some (raw_fromCPU s x)) s' /\
  lb_op r0 s' = Raise AttributeError /\
  (forall fuel, schedule OPT (S fuel) r0 s' = Raise AttributeError) /\
  (forall fuel, realize OPT (S fuel) r0 s' = Ok r0 s').
Proof.
  unfold fromCPU. intros H.
  apply bind_Ok in H as (dt & s1 & Hdt & H). apply external_Ok in Hdt as [Hdt ->].
  unfold LazyBuffer_init, alloc, get_state, bind, ret in H. injection H as <- <-.
  set (n := mkLazyBuffer (from_shape (np_shape x)) dt "CPU" (length (bufs s))
              (Some (raw_fromCPU s x)) [] None).
  set (s' := mkState (bufs s ++ [n]) (calls s)).
  assert (Hn : bufs s' !! length (bufs s) = Some n).
  { simpl. by rewrite lookup_app_r, Nat.sub_diag. }
  assert (Hreal : realized (length (bufs s)) s' = Ok (Some (raw_fromCPU s x)) s').
  { apply realized_Ok. split; [done|]. exists n, n. done. }
  assert (Hop : lb_op (length (bufs s)) s' = Raise AttributeError).
  { unfold lb_op, base_attrs, bind. rewrite (get_lookup _ _ _ Hn). simpl.
    rewrite (get_lookup _ _ _ Hn). simpl. by rewrite Nat.eqb_refl. }
  split; [done|]. split; [done|]. split; [done|]. split; [done|]. split.
  - intros fuel. simpl. unfold bind at 1. rewrite (get_lookup _ _ _ Hn). simpl.
    rewrite Nat.eqb_refl. simpl. unfold bind at 1. by rewrite Hop.
  - intros fuel. by eapply realize_materialized.
Qed.

(** A movement returns a node on the base of the one it was applied to,
    with its dtype and device. *)
Lemma movement_keeps_base x a s v s' :
  movement x a s = Ok v s' ->
  grows s s' /\
  exists bx bv, bufs s !! x = Some bx /\ bufs s' !! v = Some bv /\
    base bv = base bx /\ dtype bv = dtype bx /\ device bv = device bx.
Proof.
  intros H. unfold movement in H.
  apply bind_Ok in H as (b & s1 & Hg & H). apply get_Ok in Hg as [Hb ->].
  apply bind_Ok in H as (st0 & s1 & He & H). apply external_Ok in He as [Hmv ->].
  unfold _movement_op in H.
  apply bind_Ok in H as (b' & s1 & Hg & H). apply get_Ok in Hg as [Hb' ->].
  rewrite Hb in Hb'. injection Hb' as <-.
  destruct (st_eqb (st b) st0).
  - unfold ret in H. injection H as <- <-. split; [apply grows_refl|]. eauto 10.
  - apply LazyBuffer_init_Ok in H as (-> & _ & Hg & n & Hn & Hsame).
    split; [done|]. exists b, n.
    destruct Hsame as (_ & Hdt & Hdev & Hbase & _). simpl in *. auto.
Qed.

(** X9: the buffer that [const] returns is a view on a new base whose
    operation is the [CONST] load of the value, of the dtype that the host
    type of [self] maps to and on the device of [self]; buffer-slot
    resolution takes the buffer for a constant and writes for it the
    [CONST] descriptor of [float] of the value, never a memory slot. *)
Theorem const_is_backed_by_a_CONST_load self val s r0 s' :
  const self val s = Ok r0 s' ->
  grows s s' /\
  exists b dt n c,
    bufs s !! self = Some b /\ from_np (np (dtype b)) = Some dt /\
    bufs s' !! r0 = Some n /\ base n = length (bufs s) /\
    dtype n = dt /\ device n = device b /\
    bufs s' !! length (bufs s) = Some c /\ base c = length (bufs s) /\
    _op c = Some (mkLazyOp LoadOps.CONST [] (ArgNum val)) /\ _realized c = None /\
    base_is_const r0 s' = Ok true s' /\
    forall base_bufs y, py_float val = inr y ->
      bufferop_of base_bufs r0 s' = Ok (const_descriptor y n) s'.
Proof.
  unfold const. intros H.
  apply bind_Ok in H as (b & s0 & Hg & H). apply get_Ok in Hg as [Hb ->].
  apply bind_Ok in H as (dt & s0 & Hdt & H). apply external_Ok in Hdt as [Hdt ->].
  apply bind_Ok in H as (c0 & s1 & Hc & H). unfold loadop in Hc.
  apply LazyBuffer_init_Ok in Hc as (-> & _ & Hg1 & nc & Hnc & Hsame).
  apply bind_Ok in H as (c1 & s2 & Hr & H).
  apply movement_keeps_base in Hr
    as (Hg2 & bx & bv & Hbx & Hbv & Hbase2 & Hdt2 & Hdev2).
  rewrite Hnc in Hbx. injection Hbx as <-.
  apply movement_keeps_base in H
    as (Hg3 & bx & n & Hbx & Hn & Hbase3 & Hdt3 & Hdev3).
  rewrite Hbv in Hbx. injection Hbx as <-.
  destruct Hsame as (_ & Hdtc & Hdevc & Hbasec & Hrzc & Hopc). simpl in *.
  destruct (grows_lookup _ _ _ _ (grows_trans _ _ _ Hg2 Hg3) Hnc)
    as (c & Hcl & (_ & Hdt' & Hdev' & Hbase' & Hrz' & Hop')).
  assert (Hlb : lb_op (length (bufs s)) s'
                = Ok (mkLazyOp LoadOps.CONST [] (ArgNum val)) s').
  { apply lb_op_Ok. split; [done|]. exists c, c. rewrite <- Hbase', <- Hbasec, <- Hop'.
    done. }
  assert (Hbn : base n = length (bufs s)) by congruence.
  assert (Hconst : base_is_const r0 s' = Ok true s').
  { apply base_is_const_Ok. split; [done|].
    exists n, (mkLazyOp LoadOps.CONST [] (ArgNum val)). rewrite Hbn.
    split; [done|]. split; [done|]. reflexivity. }
  split; [eauto using grows_trans|].
  exists b, dt, n, c. split_and!; try done; try congruence.
  intros base_bufs y Hy. unfold bufferop_of, bind.
  rewrite (get_lookup _ _ _ Hn), Hconst. rewrite Hbn, Hlb. simpl. by rewrite Hy.
Qed.

(** X10: on a compiled device other than LLVM, realizing a constant
    asks the backend for no buffer: the slot of the buffer receives the
    constant-folded scalar of size 1 that carries the dtype of the buffer
    and [float] of the value of the load, which [buf_is_kernel_arg] then
    refuses as a kernel argument. *)
Theorem _realize_const_folds_on_compiled_devices buffer s u s' b :
  bufs s !! buffer = Some b ->
  is_Compiled (device b) = true -> device b <> "LLVM" ->
  _realize_const buffer s = Ok u s' ->
  exists o v y, base b = buffer /\ _op b = Some o /\
    arg o = ArgNum v /\ py_float v = inr y /\
    realized buffer s' = Ok (Some (RawConst 1 (dtype b) y)) s' /\
    buf_is_kernel_arg buffer s' = Ok false s'.
Proof.
  intros Hb Hcomp Hdev H. unfold _realize_const in H.
  apply bind_Ok in H as (b' & s0 & Hg & H). apply get_Ok in Hg as [Hb' ->].
  rewrite Hb in Hb'. injection Hb' as <-.
  rewrite Hcomp, bool_decide_eq_false_2 in H by done. simpl in H.
  apply bind_Ok in H as (o & s0 & Ho & H).
  apply lb_op_Ok in Ho as (-> & b1 & bb & Hb1 & Hbb & _ & Hop).
  rewrite Hb in Hb1. injection Hb1 as <-.
  apply bind_Ok in H as (y & s0 & Hv & H).
  apply float_of_arg_Ok in Hv as (-> & v0 & Harg & Hy).
  apply set_realized_Ok in H as (b1 & Hb1 & Hbase & ->).
  rewrite Hb in Hb1. injection Hb1 as <-.
  rewrite Hbase, Hb in Hbb. injection Hbb as <-.
  exists o, v0, y.
  set (n := mkLazyBuffer (st b) (dtype b) (device b) (base b)
              (Some (RawConst 1 (dtype b) y)) (_children b) (_op b)).
  assert (Hn : <[buffer := n]> (bufs s) !! buffer = Some n).
  { apply list_lookup_insert_eq. by eapply lookup_lt_Some. }
  assert (Hreal : realized buffer (mkState (<[buffer := n]> (bufs s)) (calls s))
                  = Ok (Some (RawConst 1 (dtype b) y))
                       (mkState (<[buffer := n]> (bufs s)) (calls s))).
  { apply realized_Ok. split; [done|]. exists n, n. simpl. rewrite Hbase. done. }
  split_and!; try done.
  unfold buf_is_kernel_arg, bind. by rewrite Hreal.
Qed.

(** ** Further properties of the scheduler and the realizer *)

Lemma _ast_reduceops_op t s t' s' :
  _ast_reduceops OPT t s = Ok t' s' -> op t' = op t.
Proof.
  unfold _ast_reduceops. intros H.
  destruct (src t) as [|[o0|x] rest]; [discriminate H|discriminate H|].
  apply bind_Ok in H as (rz & s1 & _ & H).
  destruct (truthy rz); [unfold ret in H; by injection H as <- <-|].
  apply bind_Ok in H as (o & s2 & _ & H).
  destruct (MERGE_ELEMENTWISE_INTO_REDUCE OPT && in_ElementwiseOps (op o)).
  - apply bind_Ok in H as (ch & s3 & _ & H).
    destruct (length ch <=? 1)%nat; unfold ret in H; by injection H as <- <-.
  - unfold ret in H. by injection H as <- <-.
Qed.

Lemma absorption_op op1 shape0 s op2 s' :
  absorption OPT op1 shape0 s = Ok op2 s' -> op op2 = op op1.
Proof.
  unfold absorption. intros H.
  destruct (in_ElementwiseOps (op op1)).
  - unfold _ast_binaryops in H.
    apply bind_Ok in H as (? & ? & _ & H). apply bind_Ok in H as (? & ? & _ & H).
    apply bind_Ok in H as (? & ? & _ & H). apply bind_Ok in H as (? & ? & _ & H).
    unfold ret in H. injection H as <- <-. apply op_map_buffers.
  - destruct (in_ReduceOps (op op1)); [by eapply _ast_reduceops_op|].
    unfold ret in H. by injection H as <- <-.
Qed.

Lemma schedule_leaves_Forall (P : ScheduleItem -> Prop) (rec : Ref -> M (list ScheduleItem)) l :
  (forall x s sub s', rec x s = Ok sub s' -> Forall P sub) ->
  forall acc s acc' s',
    fold_M (schedule_leaf rec) l acc s = Ok acc' s' ->
    Forall P acc.1 -> Forall P acc'.1.
Proof.
  intros Hrec. induction l as [|x l IH]; intros acc s acc' s' H Hacc; simpl in H.
  - unfold ret in H. by injection H as <- <-.
  - apply bind_Ok in H as (acc1 & s1 & Hl & H).
    eapply IH; [exact H|].
    unfold schedule_leaf in Hl.
    apply bind_Ok in Hl as (rz & s2 & _ & Hl).
    destruct (negb (truthy rz) && negb (bool_decide (x ∈ acc.2))).
    + apply bind_Ok in Hl as (sub & s3 & Hsub & Hl).
      eapply schedule_add_Forall in Hl as [_ Hl]; [exact Hl|done|]. by eapply Hrec.
    + unfold ret in Hl. by injection Hl as <- <-.
Qed.

(** X11: no unit of a schedule carries the opcode [CONTIGUOUS], the one
    load operation that [LOAD_OPS_DISPATCHER] has no handler for: the
    scheduler rewrites it to [NOOP].  A unit whose opcode is a load
    operation lists its output and nothing else. *)
Theorem schedule_never_emits_a_CONTIGUOUS_unit fuel : forall self s units s',
  schedule OPT fuel self s = Ok units s' ->
  Forall (fun u : ScheduleItem =>
            op u.1 <> LoadOps.CONTIGUOUS /\
            (in_LoadOps (op u.1) = true -> exists x, u.2 = [x])) units.
Proof.
  induction fuel as [|fuel IH]; intros self s units s' H; [discriminate H|].
  simpl in H.
  apply bind_Ok in H as (b & s0 & Hg & H). apply get_Ok in Hg as [Hb ->].
  destruct (negb (base b =? self)%nat); [by eapply IH|].
  apply bind_Ok in H as (o & s0 & Ho & H).
  pose proof (lb_op_read_only _ _ _ _ Ho) as ->.
  set (op1 := if decide (op o = LoadOps.CONTIGUOUS)
              then mkLazyOp UnaryOps.NOOP (src o) ArgNone else o) in *.
  destruct (in_LoadOps (op op1)) eqn:Eload.
  - unfold ret in H. injection H as <- <-. apply Forall_singleton. simpl.
    split; [|eauto]. subst op1. destruct (decide (op o = LoadOps.CONTIGUOUS)); [discriminate|done].
  - apply bind_Ok in H as (op2 & s1 & Habs & H).
    apply bind_Ok in H as (op3 & s2 & Hbuf & H).
    apply bind_Ok in H as (acc & s3 & Hfold & H).
    unfold ret in H. injection H as <- <-.
    apply absorption_op in Habs.
    unfold _ast_bufferops in Hbuf.
    apply bind_Ok in Hbuf as (d & s4 & _ & Hbuf). unfold ret in Hbuf. injection Hbuf as <- <-.
    apply Forall_app. split.
    + eapply schedule_leaves_Forall in Hfold; [exact Hfold| |by apply Forall_nil].
      intros x si sub sj Hsub. by eapply IH.
    + apply Forall_singleton. simpl.
      rewrite (proj1 (op_map_buffers _ _)), Habs. split; [|by rewrite Eload].
      intros Heq. rewrite Heq in Eload. discriminate.
Qed.

Lemma read_only_buf_is_kernel_arg x : read_only (buf_is_kernel_arg x).
Proof. unfold buf_is_kernel_arg. read_only. Qed.

Lemma elem_of_omap_id {A} (l : list (option A)) (a : A) : a ∈ omap id l <-> Some a ∈ l.
Proof.
  rewrite list_elem_of_omap. split.
  - intros (o & Ho & Heq). simpl in Heq. by subst.
  - intros H. by exists (Some a).
Qed.

(** X12: for a unit that is not a load operation, [realize] makes one
    call of [exec_ast]; the inputs it passes are distinct and are exactly
    the materialized results of the buffers listed after the output that
    are not constant-folded scalars. *)
Theorem realize_unit_passes_distinct_kernel_arguments
    (rec : Ref -> M Ref) self t b0 ds s u s' :
  in_LoadOps (op t) = false ->
  realize_unit OPT rec self (t, b0 :: ds) s = Ok u s' ->
  exists inputs,
    calls s' = calls s ++ [ExecAst t b0 inputs] /\ NoDup inputs /\
    forall rb, rb ∈ inputs <->
      is_RawConst rb = false /\ exists x, x ∈ ds /\ realized x s = Ok (Some rb) s.
Proof.
  intros Hload H. unfold realize_unit in H. simpl in H.
  assert (Hexec :
    (args <- filter_M buf_is_kernel_arg ds ;;
     rzs <- map_M realized args ;;
     out <- get b0 ;;
     extra <- _device_extra_args self ;;
     log (ExecAst t b0 (dedup (omap id rzs))) ;;;
     s0 <- get_state ;;
     rb <- external (exec_ast s0 (device out) t out (dedup (omap id rzs)) extra) ;;
     set_realized b0 (Some rb)) s = Ok u s').
  { destruct (op t); [discriminate Hload|exact H..]. }
  clear H.
  apply bind_Ok in Hexec as (args & s1 & Hargs & H).
  apply filter_M_spec in Hargs as [-> Hargs]; [|apply read_only_buf_is_kernel_arg].
  apply bind_Ok in H as (rzs & s1 & Hrzs & H).
  pose proof (map_M_read_only realized args read_only_realized _ _ _ Hrzs) as ->.
  apply map_M_Forall2 in Hrzs; [|apply read_only_realized].
  apply bind_Ok in H as (out & s1 & Hg & H). apply get_Ok in Hg as [Hout ->].
  apply bind_Ok in H as (extra & s1 & He & H).
  unfold _device_extra_args in He.
  apply bind_Ok in He as (bs & s2 & Hg & He). apply get_Ok in Hg as [_ ->].
  unfold ret in He. injection He as <- <-.
  apply bind_Ok in H as (? & s1 & Hlog & H).
  unfold log in Hlog. inversion Hlog; subst; clear Hlog.
  apply bind_Ok in H as (s0 & s2 & Hs & H). unfold get_state in Hs. injection Hs as <- <-.
  apply bind_Ok in H as (rb & s2 & He & H). apply external_Ok in He as [_ ->].
  apply set_realized_Ok in H as (bn & _ & _ & ->).
  exists (dedup (omap id rzs)). split; [done|]. split; [apply dedup_NoDup|].
  intros rb0. rewrite elem_of_dedup, elem_of_omap_id. split.
  - intros Hin.
    apply list_elem_of_lookup in Hin as (i & Hi).
    destruct (Forall2_lookup_r _ _ _ _ _ Hrzs Hi) as (x & Hx & Hreal).
    assert (Hxin : x ∈ args) by (apply list_elem_of_lookup; eauto).
    apply Hargs in Hxin as [Hxds Hk].
    unfold buf_is_kernel_arg, bind in Hk. rewrite Hreal in Hk.
    unfold ret in Hk. injection Hk as Hk. apply negb_true_iff in Hk. eauto.
  - intros (Hrc & x & Hx & Hreal).
    assert (Hxin : x ∈ args).
    { apply Hargs. split; [done|]. unfold buf_is_kernel_arg, bind. rewrite Hreal.
      unfold ret. by rewrite Hrc. }
    apply list_elem_of_lookup in Hxin as (i & Hi).
    destruct (Forall2_lookup_l _ _ _ _ _ Hrzs Hi) as (rz & Hrz & Hreal').
    rewrite Hreal in Hreal'. injection Hreal' as <-.
    apply list_elem_of_lookup. eauto.
Qed.

Lemma device_suffix_spec d :
  match device_suffix d with
  | Some suf =>
      exists pre, d = pre +:+ String ":" suf /\ ":"%char ∉ String.list_ascii_of_string pre
  | None => ":"%char ∉ String.list_ascii_of_string d
  end.
Proof.
  induction d as [|c d IH]; simpl.
  - apply not_elem_of_nil.
  - destruct (Ascii.eqb c ":") eqn:E.
    + apply Ascii.eqb_eq in E as ->. exists EmptyString. split; [done|].
      apply not_elem_of_nil.
    + apply Ascii.eqb_neq in E. destruct (device_suffix d) as [suf|].
      * destruct IH as (pre & -> & Hpre). exists (String c pre). split; [done|].
        simpl. rewrite not_elem_of_cons. auto.
      * rewrite not_elem_of_cons. auto.
Qed.

(** X13: [_device_extra_args] only reads the state.  It returns the
    text that follows the first colon of the device name, the text before
    it holding none, and nothing when the device name holds no colon. *)
Theorem _device_extra_args_splits_at_the_first_colon x s b :
  bufs s !! x = Some b ->
  exists extra, _device_extra_args x s = Ok extra s /\
    match extra with
    | Some suf =>
        exists pre, device b = pre +:+ String ":" suf /\
                    ":"%char ∉ String.list_ascii_of_string pre
    | None => ":"%char ∉ String.list_ascii_of_string (device b)
    end.
Proof.
  intros Hb. exists (device_suffix (device b)). split.
  - unfold _device_extra_args, bind. by rewrite (get_lookup _ _ _ Hb).
  - apply device_suffix_spec.
Qed.

(** *** The scheduler adds views only *)

Lemma adds_views_refl s : adds_views s s.
Proof.
  split; [apply grows_refl|]. intros i b' Hi Hb'.
  apply lookup_lt_Some in Hb'. lia.
Qed.

Lemma adds_views_trans s1 s2 s3 :
  adds_views s1 s2 -> adds_views s2 s3 -> adds_views s1 s3.
Proof.
  intros [Hg1 Hv1] [Hg2 Hv2]. split; [eauto using grows_trans|].
  intros i b' Hi Hb'.
  destruct (decide (i < length (bufs s2))%nat) as [Hlt|Hge].
  - destruct (grows_lookup_inv _ _ _ _ Hg2 Hlt Hb') as (b & Hb & Hsame).
    destruct (Hv1 _ _ Hi Hb) as (H1 & H2 & H3).
    destruct Hsame as (_ & _ & _ & <- & <- & <-). done.
  - apply Hv2; [lia|done].
Qed.

Lemma movement_adds_views x a s v s' :
  movement x a s = Ok v s' -> adds_views s s'.
Proof.
  intros H. unfold movement in H.
  apply bind_Ok in H as (b & s1 & Hg & H). apply get_Ok in Hg as [Hb ->].
  apply bind_Ok in H as (st0 & s1 & He & H). apply external_Ok in He as [Hmv ->].
  unfold _movement_op in H.
  apply bind_Ok in H as (b' & s1 & Hg & H). apply get_Ok in Hg as [Hb' ->].
  destruct (st_eqb (st b') st0).
  - unfold ret in H. injection H as <- <-. apply adds_views_refl.
  - assert (Hbase : (base b' < length (bufs s))%nat).
    { unfold LazyBuffer_init in H. apply bind_Ok in H as (bb & s1 & Hg & _).
      apply get_Ok in Hg as [Hbb _]. by eapply lookup_lt_Some. }
    apply LazyBuffer_init_Ok in H as (-> & Hlen & Hg & n & Hn & Hsame).
    split; [done|]. intros i n' Hi Hn'.
    assert (i = length (bufs s)) as ->.
    { apply lookup_lt_Some in Hn'. lia. }
    rewrite Hn in Hn'. injection Hn' as <-.
    destruct Hsame as (_ & _ & _ & Hb0 & Hr0 & Ho0). simpl in *.
    rewrite <- Hb0, <- Hr0, <- Ho0. split; [lia|done].
Qed.

Lemma reshape_entries_add_views shape0 (entries : PyDict (option Src)) : forall s out s',
  map_M (fun kv : Ref * option Src =>
           match kv.2 with
           | Some y => ret (kv.1, y)
           | None => v <- reshape kv.1 shape0 ;; ret (kv.1, inr v : Src)
           end) entries s = Ok out s' ->
  adds_views s s'.
Proof.
  induction entries as [|[k v] entries IH]; intros s out s' H; simpl in H.
  - unfold ret in H. injection H as <- <-. apply adds_views_refl.
  - apply bind_Ok in H as (y & s1 & Hy & H).
    apply bind_Ok in H as (ys & s2 & Hys & H). unfold ret in H. injection H as <- <-.
    apply IH in Hys. eapply adds_views_trans; [|exact Hys].
    destruct v as [y0|]; simpl in Hy.
    + unfold ret in Hy. injection Hy as <- <-. apply adds_views_refl.
    + apply bind_Ok in Hy as (v & s3 & Hv & Hy). unfold ret in Hy. injection Hy as <- <-.
      by eapply movement_adds_views.
Qed.

Lemma _ast_binaryops_adds_views t shape0 s t' s' :
  _ast_binaryops OPT t shape0 s = Ok t' s' -> adds_views s s'.
Proof.
  intros H. unfold _ast_binaryops in H.
  apply bind_Ok in H as (keep & s1 & Hkeep & H).
  apply (filter_M_spec _ _ _ _ _ (fun x => psrc_filter_read_only x x)) in Hkeep as [-> _].
  apply bind_Ok in H as (psrcs & s1 & Hps & H).
  pose proof (map_M_read_only _ _ (fun x => psrc_of_read_only x x) _ _ _ Hps) as ->.
  apply bind_Ok in H as (absorbed & s1 & Habs & H).
  assert (s1 = s) as ->.
  { destruct psrcs as [|psrc psrcs]; [unfold ret in Habs; by injection Habs as <- <-|].
    destruct (MERGE_ONE_REDUCE_INTO_ELEMENTWISE OPT);
      [|unfold ret in Habs; by injection Habs as <- <-].
    apply bind_Ok in Habs as (o1 & s2 & Ho1 & Habs). apply lb_op_read_only in Ho1 as ->.
    apply bind_Ok in Habs as (top & s2 & Htop & Habs).
    destruct (in_ReduceOps (op o1)); [|discriminate].
    apply _ast_reduceops_read_only in Htop as ->.
    apply bind_Ok in Habs as (b0 & s2 & Hb0 & Habs). apply get_Ok in Hb0 as [_ ->].
    apply bind_Ok in Habs as (b1 & s2 & Hb1 & Habs). apply get_Ok in Hb1 as [_ ->].
    destruct (decide (shape b0 = shape b1)).
    - unfold ret in Habs. by injection Habs as <- <-.
    - apply bind_Ok in Habs as (? & s2 & Ha & Habs). apply py_assert_Ok in Ha as [_ ->].
      unfold ret in Habs. by injection Habs as <- <-. }
  apply bind_Ok in H as (real_srcs2 & s2 & Hrs & H).
  unfold ret in H. injection H as <- <-.
  by eapply reshape_entries_add_views.
Qed.

Lemma absorption_adds_views op1 shape0 s op2 s' :
  absorption OPT op1 shape0 s = Ok op2 s' -> adds_views s s'.
Proof.
  unfold absorption. intros H.
  destruct (in_ElementwiseOps (op op1)); [by eapply _ast_binaryops_adds_views|].
  destruct (in_ReduceOps (op op1)).
  - apply _ast_reduceops_read_only in H as ->. apply adds_views_refl.
  - unfold ret in H. injection H as <- <-. apply adds_views_refl.
Qed.

Lemma schedule_leaves_add_views (rec : Ref -> M (list ScheduleItem)) l :
  (forall x s sub s', rec x s = Ok sub s' -> adds_views s s') ->
  forall acc s acc' s',
    fold_M (schedule_leaf rec) l acc s = Ok acc' s' -> adds_views s s'.
Proof.
  intros Hrec. induction l as [|x l IH]; intros acc s acc' s' H; simpl in H.
  - unfold ret in H. injection H as <- <-. apply adds_views_refl.
  - apply bind_Ok in H as (acc1 & s1 & Hl & H).
    apply IH in H. eapply adds_views_trans; [|exact H].
    unfold schedule_leaf in Hl.
    apply bind_Ok in Hl as (rz & s2 & Hrz & Hl). apply read_only_realized in Hrz as ->.
    destruct (negb (truthy rz) && negb (bool_decide (x ∈ acc.2))).
    + apply bind_Ok in Hl as (sub & s3 & Hsub & Hl).
      apply (fold_M_read_only _ _ schedule_add_read_only) in Hl as ->. by eapply Hrec.
    + unfold ret in Hl. injection Hl as <- <-. apply adds_views_refl.
Qed.


End Theory.

(** * The properties on the example graphs *)

(** Closes [l = r] by evaluating [l]; [r] may have holes, which the value
    of [l] fills. *)
Ltac by_evaluation :=
  lazymatch goal with
  | |- ?l = ?r =>
      let v := eval vm_compute in l in
      unify r v; vm_cast_no_check (eq_refl v)
  end.

Lemma SimpleView_laws : ViewLaws.
Proof.
  split.
  - intros a b H. by apply bool_decide_eq_true in H.
  - intros sh. simpl. unfold SimpleView.of_shape. by destruct (ints sh).
  - intros v a v' H. simpl in *. unfold SimpleView.movement in H.
    destruct (decide (SimpleView.v_shape v = a)) as [<-|_].
    + by inversion H.
    + destruct (_ && _); [|discriminate]. inversion H.
      unfold SimpleView.of_shape. by destruct (ints a).
Qed.

Lemma movement_identity_short_circuit_witness :
  reshape 0 [SInt 4] ex_one = Ok 0%nat ex_one.
Proof.
  destruct (movement_identity_short_circuit (VA := SimpleView.view_algebra) ex_one 0 _
              eq_refl) as (_ & _ & _ & _ & _ & _ & H).
  apply (H (SimpleView.of_shape [SInt 4])); reflexivity.
Defined.

Lemma realized_is_assigned_on_bases_only_witness :
  set_realized 1 (Some (RawObject 0 4 float32)) ex_view
    = Raise (AssertionError "must be a base") /\
  realized 1 ex_view = Ok None ex_view.
Proof.
  destruct (realized_is_assigned_on_bases_only (VA := SimpleView.view_algebra) ex_view 1 _
              (Some (RawObject 0 4 float32)) eq_refl) as [H _].
  destruct H as [H1 H2]; [discriminate|]. split; [exact H1|].
  eapply (H2 _ eq_refl eq_refl).
Defined.

(** In [ex_neg] the negation at address 1 meets the four conditions. *)
Lemma ex_neg_inline_conditions : inline_conditions ex_neg 1.
Proof.
  eexists _, _, _. split; [reflexivity|]. split; [reflexivity|].
  split; [reflexivity|]. split; [split; reflexivity|]. split; [split; reflexivity|].
  reflexivity.
Qed.

Lemma e_inlines_exactly_the_eligible_sources_witness :
  exists n srcs',
    bufs (state_after (e 2 1 UnaryOps.EXP2 [0%nat] ArgNone) ex_neg) !! 2%nat = Some n /\
    _op n = Some (mkLazyOp UnaryOps.EXP2 srcs' ArgNone) /\
    Forall2 (fun x (y : LazyOp + nat) =>
               (1 <= 2 -> inline_conditions ex_neg x ->
                  exists o, op_of ex_neg x = Some o /\ y = inl o) /\
               (1 <= 2 -> ~ inline_conditions ex_neg x -> y = inr x) /\
               (2 < 1 -> y = inr x))
      [1%nat; 0%nat] srcs'.
Proof.
  apply (e_inlines_exactly_the_eligible_sources (VA := SimpleView.view_algebra) 2
           ex_neg 1 UnaryOps.EXP2 [0%nat] ArgNone 2).
  by_evaluation.
Defined.

(** With [OPT = 0] the source at address 1, which meets the four
    conditions, is kept as a buffer leaf. *)
Lemma e_keeps_eligible_source_when_merging_is_off :
  inline_conditions ex_neg 1 /\
  exists s' n,
    e 0 1 UnaryOps.EXP2 [] ArgNone ex_neg = Ok 2%nat s' /\
    bufs s' !! 2%nat = Some n /\
    _op n = Some (mkLazyOp UnaryOps.EXP2 [inr 1%nat] ArgNone).
Proof.
  split; [apply ex_neg_inline_conditions|].
  eexists _, _. split; [by_evaluation|]. split; reflexivity.
Qed.

Lemma r_split_path_witness :
  exists q pre post,
    [1048576] = pre ++ [q * 256] ++ post /\ length pre = 0%nat /\
    let S1 := map SInt (pre ++ [q; 256] ++ post) in
    let S2 := map SInt (pre ++ [q; 1] ++ post) in
    let S3 := map SInt (pre ++ [q] ++ post) in
    r 0 ReduceOps.SUM [SInt 1] ex_big =
      (v1 <- reshape 0 S1 ;; r1 <- _reduce_op v1 ReduceOps.SUM S2 ;;
       v2 <- reshape r1 S3 ;; _reduce_op v2 ReduceOps.SUM [SInt 1]) ex_big /\
    forall res s', r 0 ReduceOps.SUM [SInt 1] ex_big = Ok res s' ->
      let L := length (bufs ex_big) in
      res = (L + 3)%nat /\ length (bufs s') = (L + 4)%nat /\ grows ex_big s' /\
      exists n1 n2 n3 n4,
        bufs s' !! L = Some n1 /\ bufs s' !! (L + 1)%nat = Some n2 /\
        bufs s' !! (L + 2)%nat = Some n3 /\ bufs s' !! (L + 3)%nat = Some n4 /\
        (base n1 = 0%nat /\ shape n1 = S1) /\
        (base n2 = (L + 1)%nat /\ shape n2 = S2 /\
         _op n2 = Some (mkLazyOp ReduceOps.SUM [inr L] (ArgShape S2))) /\
        (base n3 = (L + 1)%nat /\ shape n3 = S3) /\
        (base n4 = (L + 3)%nat /\ shape n4 = [SInt 1] /\
         _op n4 = Some (mkLazyOp ReduceOps.SUM [inr (L + 2)%nat] (ArgShape [SInt 1]))).
Proof.
  apply (r_split_path (VA := SimpleView.view_algebra) ex_big 0 _ [1048576] [1]
           ReduceOps.SUM [SInt 1] 256 0 SimpleView_laws eq_refl eq_refl eq_refl).
  by_evaluation.
Defined.

(** On a buffer of 1048576 elements reduced to one, the split is on
    divisor 256; the code reshapes to (4096, 256), not to the pair
    (divisor, inner-remainder) = (256, 4096) of the specification. *)
Lemma r_does_not_split_into_divisor_and_remainder :
  reduce_plan [1048576] [1] [Some 1] = inr (Split 256 0) /\
  r 0 ReduceOps.SUM [SInt 1] ex_big
    <> spec_r_split 0 ReduceOps.SUM [SInt 1] [1048576] 256 0 ex_big.
Proof.
  split; [by_evaluation|].
  intros H.
  assert (H1 : (match r 0 ReduceOps.SUM [SInt 1] ex_big with
                | Ok _ s' => (fun b => SimpleView.v_shape (st b)) <$> bufs s' !! 1%nat
                | Raise _ => None
                end)
               = Some [SInt 4096; SInt 256]) by by_evaluation.
  rewrite H in H1. vm_compute in H1. discriminate H1.
Qed.

(** C8: on a buffer with a zero dimension, reduced to its own shape, [r]
    raises [ZeroDivisionError], while [_reduce_op] returns the buffer. *)
Lemma r_raises_on_zero_size_no_op_reduction :
  (shape <$> bufs ex_zero !! 0%nat) = Some [SInt 0] /\
  r 0 ReduceOps.SUM [SInt 0] ex_zero = Raise ZeroDivisionError /\
  _reduce_op 0 ReduceOps.SUM [SInt 0] ex_zero = Ok 0%nat ex_zero.
Proof. split; [|split]; by_evaluation. Qed.

Lemma ex_diamond_ordered : arena_ordered ex_diamond.
Proof. apply arena_orderedb_sound. by_evaluation. Qed.

Lemma ex_reduce_ordered : arena_ordered ex_reduce.
Proof. apply arena_orderedb_sound. by_evaluation. Qed.

(** The schedule of the diamond: [x] (1), reached through [y] and
    through [y2], is produced once; [y] (2) is absorbed into [z] (4). *)
Lemma ex_diamond_schedule :
  exists units s', schedule 2 10 4 ex_diamond = Ok units s' /\
    map snd units = [[0]; [1; 0]; [3; 1]; [4; 1; 3]]%nat.
Proof. eexists _, _. split; [by_evaluation|]. reflexivity. Qed.

Lemma ex_from_ordered : arena_ordered ex_from.
Proof. apply arena_orderedb_sound. by_evaluation. Qed.



Lemma schedule_unit_has_leaves_after_absorption_witness :
  exists units s', schedule 2 10 2 ex_reduce = Ok units s' /\
  exists op2 s1 op3 earlier,
    absorption 2 (mkLazyOp ReduceOps.SUM [inr 1%nat] (ArgShape [SInt 1])) [SInt 1] ex_reduce
      = Ok op2 s1 /\
    _ast_bufferops op2 s1 = Ok op3 s1 /\
    units = earlier ++ [(op3, 2%nat :: buffers op2)] /\
    (forall x, x ∈ buffers op2 -> unrealized s' x ->
       exists bx u, base_of s' x = Some bx /\ u ∈ earlier /\ output u = Some bx) /\
    (forall u, u ∈ earlier ->
       exists x si sub sj, x ∈ buffers op2 /\ grows s1 si /\ unrealized si x /\
         schedule 2 9 x si = Ok sub sj /\ u ∈ sub).
Proof.
  eexists _, _. split; [by_evaluation|].
  apply (schedule_unit_has_leaves_after_absorption (VA := SimpleView.view_algebra) 2 9
           ex_reduce 2 _ _ _ _ ex_reduce_ordered eq_refl eq_refl eq_refl eq_refl).
  by_evaluation.
Defined.

(** In [ex_reduce] the operation of [y] (2) has the single leaf [x] (1),
    which is unrealized; yet the unit appended for [y] lists [a] (0), the
    leaf after absorption, and [x] is never scheduled. *)
Lemma schedule_unit_does_not_list_the_original_leaves :
  (buffers <$> op_of ex_reduce 2) = Some [1%nat] /\
  unrealized ex_reduce 1 /\
  exists units s', schedule 2 10 2 ex_reduce = Ok units s' /\
    (snd <$> last units) = Some [2; 0]%nat /\
    (snd <$> last units) <> Some (2 :: [1])%nat /\
    outputs units = [0; 2]%nat.
Proof.
  split; [reflexivity|]. split.
  { eexists _, _. split; [reflexivity|]. split; reflexivity. }
  eexists _, _. split; [by_evaluation|].
  split; [reflexivity|]. split; [discriminate|reflexivity].
Qed.

(** C5: one [realize] of [z] in [ex_from] runs the handler of the random
    load [a] (0) twice: the schedule, computed first, holds the unit of the
    load [b] (1), the unit of [a] and the unit of [z]; the handler of [b]
    realizes its source [a] (line 203), and the loop then dispatches the
    unit of [a] again without looking at [a.realized] (line 194). *)
Lemma realize_runs_the_handler_of_a_load_source_twice :
  (exists units s', schedule 2 10 2 ex_from = Ok units s' /\
     map snd units = [[1]; [0]; [2; 1; 0]]%nat) /\
  exists s' t inputs,
    realize 2 10 2 ex_from = Ok 2%nat s' /\
    calls s' = [LoadCall LoadOps.FROM 1; LoadCall LoadOps.RAND 0;
                LoadCall LoadOps.RAND 0; ExecAst t 2 inputs] /\
    length inputs = 2%nat.
Proof.
  split.
  - eexists _, _. split; [by_evaluation|]. reflexivity.
  - eexists _, _, _. split; [by_evaluation|]. split; reflexivity.
Qed.

Lemma realize_twice_is_realize_once_witness :
  exists s1, realize 2 10 4 ex_diamond = Ok 4%nat s1 /\
    (exists rb, realized 4 s1 = Ok (Some rb) s1) /\
    (forall fuel2, realize 2 (S fuel2) 4 s1 = Ok 4%nat s1) /\
    length (calls s1) = 4%nat.
Proof.
  eexists. split; [by_evaluation|].
  edestruct (realize_twice_is_realize_once (VA := SimpleView.view_algebra)
               (BE := TestBackend.backend) 2 10 ex_diamond 4) as (_ & H1 & H2 & _);
    [by_evaluation|].
  split; [exact H1|]. split; [exact H2|reflexivity].
Defined.

(** ** Further properties on the example graphs *)

Lemma SimpleView_shape_of_shape sh : SimpleView.v_shape (SimpleView.of_shape sh) = sh.
Proof. unfold SimpleView.of_shape. by destruct (ints sh). Qed.

Lemma SimpleView_from_shape_contiguous sh :
  @st_contiguous SimpleView.view_algebra (from_shape sh) = true.
Proof.
  simpl. unfold SimpleView.is_contiguous. apply bool_decide_eq_true.
  by rewrite SimpleView_shape_of_shape.
Qed.

Lemma _ast_reduceops_merges_a_single_use_elementwise_source_witness :
  let t := mkLazyOp ReduceOps.SUM [inr 1%nat] (ArgShape [SInt 1]) in
  let t' := mkLazyOp ReduceOps.SUM [inl (mkLazyOp UnaryOps.NEG [inr 0%nat] ArgNone)]
              (ArgShape [SInt 1]) in
  ex_reduce = ex_reduce /\ op t' = op t /\ arg t' = arg t /\
  exists x rest b bb,
    src t = inr x :: rest /\
    bufs ex_reduce !! x = Some b /\ bufs ex_reduce !! base b = Some bb /\
    match _realized bb with
    | Some _ => src t' = [inr x]
    | None =>
        exists o, _op bb = Some o /\
          src t' = [if (1 <=? 2) && in_ElementwiseOps (op o)
                       && (length (_children bb) <=? 1)%nat
                    then inl o else inr x]
    end.
Proof.
  intros t t'.
  apply (_ast_reduceops_merges_a_single_use_elementwise_source
           (VA := SimpleView.view_algebra) 2 t ex_reduce t' ex_reduce).
  by_evaluation.
Defined.

Lemma _ast_bufferops_leaves_no_buffer_witness :
  let t := mkLazyOp ReduceOps.SUM [inr 1%nat] (ArgShape [SInt 1]) in
  exists t', _ast_bufferops t ex_reduce = Ok t' ex_reduce /\
    (ex_reduce = ex_reduce /\ op t' = op t /\ arg t' = arg t /\ buffers t' = [] /\
     exists d, t' = with_leaves d t /\
       forall x, x ∈ buffers t ->
         exists b, bufs ex_reduce !! x = Some b /\
           ((exists y, d x = const_descriptor y b) \/
            (exists k, 1 <= k /\ d x = mem_descriptor k b))).
Proof.
  intros t. eexists. split; [by_evaluation|].
  apply (_ast_bufferops_leaves_no_buffer (VA := SimpleView.view_algebra) t ex_reduce _
           ex_reduce).
  by_evaluation.
Defined.

Lemma reduce_plan_never_takes_the_max_of_nothing_witness :
  reduce_plan [1048576] [1] [Some 1] <> inl ValueError.
Proof. apply reduce_plan_never_takes_the_max_of_nothing; reflexivity. Defined.

Lemma reduce_plan_split_is_sound_witness :
  256 ∈ [16; 32; 64; 128; 256] /\
  exists old stride0,
    [1048576] !! 0%nat = Some old /\ (256 | old) /\
    [Some 1] !! 0%nat = Some (Some stride0) /\ 0 < stride0 <= 10 * 256 /\
    exists l, ints (splitted_shape [1048576] 256 0 [256]) = Some l /\
              prod l = prod [1048576].
Proof. apply (reduce_plan_split_is_sound [1048576] [1] [Some 1] 256 0). by_evaluation. Defined.

Lemma _reduce_op_twice_is_once_witness :
  (exists n, bufs ex_reduce !! 2%nat = Some n /\ shape n = [SInt 1]) /\
  _reduce_op 2 ReduceOps.MAX [SInt 1] ex_reduce = Ok 2%nat ex_reduce.
Proof.
  apply (_reduce_op_twice_is_once (VA := SimpleView.view_algebra) 1 ReduceOps.SUM
           ReduceOps.MAX [SInt 1] ex_neg 2 ex_reduce).
  - exact (st_shape_from_shape SimpleView_laws).
  - by_evaluation.
Defined.

Lemma contiguous_twice_is_once_witness :
  let s' := state_after (contiguous 2) ex_permuted in
  is_contiguous 3 s' = Ok true s' /\ contiguous 3 s' = Ok 3%nat s'.
Proof.
  intros s'.
  apply (contiguous_twice_is_once (VA := SimpleView.view_algebra) 2 ex_permuted 3 s').
  - exact SimpleView_from_shape_contiguous.
  - by_evaluation.
Defined.

Lemma fromCPU_is_realized_and_has_no_op_witness :
  let x := TestBackend.mk_host [SInt 4] (Some "float32") in
  let s' := state_after (fromCPU x) empty_state in
  0%nat = length (bufs empty_state) /\ calls s' = calls empty_state /\
  realized 0 s' = Ok (Some (raw_fromCPU empty_state x)) s' /\
  lb_op 0 s' = Raise AttributeError /\
  (forall fuel, schedule 2 (S fuel) 0 s' = Raise AttributeError) /\
  (forall fuel, realize 2 (S fuel) 0 s' = Ok 0%nat s').
Proof.
  intros x s'.
  apply (fromCPU_is_realized_and_has_no_op (VA := SimpleView.view_algebra)
           (BE := TestBackend.backend) 2 x empty_state 0 s').
  by_evaluation.
Defined.

Lemma const_is_backed_by_a_CONST_load_witness :
  let s' := state_after (const 0 (PyInt 3)) ex_one in
  grows ex_one s' /\
  exists b dt n c,
    bufs ex_one !! 0%nat = Some b /\ from_np (np (dtype b)) = Some dt /\
    bufs s' !! 3%nat = Some n /\ base n = length (bufs ex_one) /\
    dtype n = dt /\ device n = device b /\
    bufs s' !! length (bufs ex_one) = Some c /\ base c = length (bufs ex_one) /\
    _op c = Some (mkLazyOp LoadOps.CONST [] (ArgNum (PyInt 3))) /\ _realized c = None /\
    base_is_const 3 s' = Ok true s' /\
    forall base_bufs y, py_float (PyInt 3) = inr y ->
      bufferop_of base_bufs 3 s' = Ok (const_descriptor y n) s'.
Proof.
  intros s'.
  apply (const_is_backed_by_a_CONST_load (VA := SimpleView.view_algebra)
           (BE := TestBackend.backend) 0 (PyInt 3) ex_one 3 s').
  by_evaluation.
Defined.

Lemma _realize_const_folds_on_compiled_devices_witness :
  let s' := state_after (_realize_const 0) ex_const_gpu in
  exists b, bufs ex_const_gpu !! 0%nat = Some b /\
    exists o v y, base b = 0%nat /\ _op b = Some o /\
      arg o = ArgNum v /\ py_float v = inr y /\
      realized 0 s' = Ok (Some (RawConst 1 (dtype b) y)) s' /\
      buf_is_kernel_arg 0 s' = Ok false s'.
Proof.
  intros s'. eexists. split; [reflexivity|].
  apply (_realize_const_folds_on_compiled_devices (VA := SimpleView.view_algebra)
           (BE := TestBackend.backend) 0 ex_const_gpu tt s' _ eq_refl).
  - reflexivity.
  - discriminate.
  - by_evaluation.
Defined.

Lemma schedule_never_emits_a_CONTIGUOUS_unit_witness :
  op_of ex_contiguous 3 = Some (mkLazyOp LoadOps.CONTIGUOUS [inr 2%nat] ArgNone) /\
  exists units s', schedule 2 10 3 ex_contiguous = Ok units s' /\
    map (fun u : ScheduleItem => op u.1) units = [OpLoad LoadOps.RAND; OpUnary UnaryOps.NOOP] /\
    Forall (fun u : ScheduleItem =>
              op u.1 <> LoadOps.CONTIGUOUS /\
              (in_LoadOps (op u.1) = true -> exists x, u.2 = [x])) units.
Proof.
  split; [reflexivity|]. eexists _, _. split; [by_evaluation|]. split; [reflexivity|].
  eapply (schedule_never_emits_a_CONTIGUOUS_unit (VA := SimpleView.view_algebra) 2 10 3
            ex_contiguous).
  by_evaluation.
Defined.

Lemma realize_unit_passes_distinct_kernel_arguments_witness :
  let t := mkLazyOp UnaryOps.NEG
             [inl (mkLazyOp BufferOps.MEM []
                     (MemBuffer 1 float32 (SimpleView.of_shape [SInt 4])))] ArgNone in
  let s' := state_after (realize_unit 2 (realize 2 9) 1 (t, [1; 0]%nat)) ex_neg_realized in
  exists inputs,
    calls s' = calls ex_neg_realized ++ [ExecAst t 1 inputs] /\ NoDup inputs /\
    forall rb, rb ∈ inputs <->
      is_RawConst rb = false /\
      exists x, x ∈ [0%nat] /\ realized x ex_neg_realized = Ok (Some rb) ex_neg_realized.
Proof.
  intros t s'.
  apply (realize_unit_passes_distinct_kernel_arguments (VA := SimpleView.view_algebra)
           (BE := TestBackend.backend) 2 (realize 2 9) 1 t 1 [0%nat] ex_neg_realized tt s').
  - reflexivity.
  - by_evaluation.
Defined.

Lemma _device_extra_args_splits_at_the_first_colon_witness :
  exists extra, _device_extra_args 0 ex_gpu1 = Ok extra ex_gpu1 /\
    match extra with
    | Some suf =>
        exists pre, "GPU:1" = pre +:+ String ":" suf /\
                    ":"%char ∉ String.list_ascii_of_string pre
    | None => ":"%char ∉ String.list_ascii_of_string "GPU:1"
    end.
Proof.
  apply (_device_extra_args_splits_at_the_first_colon (VA := SimpleView.view_algebra)
           0 ex_gpu1 _ eq_refl).
Defined.

